(** * knowledge-miner: indexer, search, configuration and export names

  A shallow embedding of the directory walk, the content fingerprint and
  the catalog reconciliation of [app/indexer.py], together with the
  properties of full ([index_corpus]) and incremental ([reindex_changed])
  synchronisation; and of the pagination and parameter parsing of
  [app/search.py] with the search command of [cli.py], the configuration
  loader of [app/config.py] and the export file names of
  [app/consolidator.py].

  Layout:
  - [Pathlib]: the fragment of Python's [str] and [pathlib.PurePosixPath]
    the indexer relies on (splitting, joining, suffix, ordering);
  - the corpus tree, [rglob] and [walk_corpus];
  - the catalog (the [files] table of [app/models.py]) and the session
    operations the indexer calls;
  - [index_corpus] and [reindex_changed];
  - [execute_search], [parse_search_params] and [cli.py search];
  - the store of dict objects, [_deep_merge] and [load_config];
  - the name of an export file;
  - the theorems. *)

From Stdlib Require Import Ascii String.
From stdpp Require Import base list strings gmap sorting pretty.

Local Open Scope string_scope.

(** ** Python strings and [pathlib] paths *)

Module Pathlib.

(** [s.startswith(p)]. *)
Definition startswith (p s : string) : bool := String.prefix p s.

(** [s.rfind(c)]: the index of the last occurrence, if any. *)
Fixpoint rfind (c : ascii) (s : string) : option nat :=
  match s with
  | EmptyString => None
  | String a s' =>
      match rfind c s' with
      | Some i => Some (S i)
      | None => if decide (a = c) then Some 0%nat else None
      end
  end.

(** [PurePath.suffix] of a final component [name]:
    [i = name.rfind('.')], and [name[i:]] when [0 < i < len(name) - 1]. *)
Definition suffix (name : string) : string :=
  match rfind "." name with
  | Some i =>
      if (0 <? i)%nat && (i <? String.length name - 1)%nat
      then String.substring i (String.length name - i) name
      else ""
  | None => ""
  end.

(** [sep.join(parts)]. *)
Fixpoint join (sep : string) (parts : list string) : string :=
  match parts with
  | [] => ""
  | [p] => p
  | p :: ps => p ++ sep ++ join sep ps
  end.

(** [s.split('/')]: never empty, [''.split('/') = ['']]. *)
Fixpoint split_slash (s : string) : list string :=
  match s with
  | EmptyString => [""]
  | String c s' =>
      if decide (c = "/"%char) then "" :: split_slash s'
      else match split_slash s' with
           | h :: t => String c h :: t
           | [] => [String c ""]
           end
  end.

(** [posixpath.splitroot]: the root is ['/'], ['//'] (exactly two leading
    slashes) or empty. *)
Definition splitroot (s : string) : string * string :=
  match s with
  | String "/" (String "/" (String "/" _ as r)) => ("/", r)
  | String "/" (String "/" r) => ("//", r)
  | String "/" r => ("/", r)
  | _ => ("", s)
  end.

(** [PurePosixPath(s).parts]: the root, when there is one, followed by the
    components that are neither empty nor ['.']. *)
Definition parts (s : string) : list string :=
  let '(root, rel) := splitroot s in
  let parsed :=
    filter (λ x, x ≠ "" ∧ x ≠ ".") (split_slash rel) in
  if decide (root = "") then parsed else root :: parsed.

(** [str(p)] for a relative path given by its components. *)
Definition str (ps : list string) : string :=
  match ps with
  | [] => "."
  | _ => join "/" ps
  end.

(** [p.name]: the final component, or the empty string. *)
Definition name (ps : list string) : string := List.last ps "".

(** [p.parent] of a relative path. *)
Definition parent (ps : list string) : list string := removelast ps.

(** Python compares two sequences at the first position where they
    differ; a proper prefix is smaller.  Strings compare by code point. *)
Fixpoint compare (p q : list string) : comparison :=
  match p, q with
  | [], [] => Eq
  | [], _ :: _ => Lt
  | _ :: _, [] => Gt
  | a :: p', b :: q' =>
      match String.compare a b with
      | Eq => compare p' q'
      | c => c
      end
  end.

(** [p < q] on paths. *)
Definition ltb (p q : list string) : bool :=
  match compare p q with Lt => true | _ => false end.

(** [not (q < p)]: the order [sorted] arranges paths in. *)
Definition le (p q : list string) : Prop := ltb q p = false.

Global Instance le_dec : RelDecision le.
Proof. intros p q. unfold le. apply _. Defined.

End Pathlib.

(** ** The corpus tree

    What the filesystem holds below the corpus root.  A directory lists its
    entries in the arbitrary order of [os.scandir]; a regular file carries
    the [stat] fields the walker reads and its bytes, [None] when opening or
    reading it raises [OSError] (permission denied, I/O error). *)

Record Stat := mkStat {
  st_size : Z;
  st_ctime : Z;
  st_mtime : Z;
}.

Inductive node :=
| Reg (st : Stat) (data : option string)
| Dir (entries : list (string * node)).

(** [item.is_dir()]. *)
Definition is_dir (n : node) : bool :=
  match n with Dir _ => true | Reg _ _ => false end.

(** [root.rglob("*")]: every entry below a directory, directories included,
    each with its components relative to the root. *)
Fixpoint rglob (n : node) : list (list string * node) :=
  match n with
  | Reg _ _ => []
  | Dir es =>
      flat_map (λ e, ([e.1], e.2) :: map (λ it, (e.1 :: it.1, it.2)) (rglob e.2)) es
  end.

(** The first entry of a listing with a given name. *)
Fixpoint entry (nm : string) (es : list (string * node)) : option node :=
  match es with
  | [] => None
  | (k, c) :: es' => if decide (k = nm) then Some c else entry nm es'
  end.

(** Resolving a relative path from a node, as [open] and [stat] do. *)
Fixpoint fs_lookup (n : node) (p : list string) : option node :=
  match p with
  | [] => Some n
  | nm :: p' =>
      match n with
      | Dir es => c ← entry nm es; fs_lookup c p'
      | Reg _ _ => None
      end
  end.

(** Names a directory entry can have: not empty, not ['.'] or ['..'], and
    without a separator. *)
Definition valid_name (nm : string) : Prop :=
  nm ≠ "" ∧ nm ≠ "." ∧ nm ≠ ".." ∧ Pathlib.rfind "/" nm = None.

(** A tree as a filesystem presents it: valid names, no name twice in one
    directory. *)
Fixpoint wf_node (n : node) : Prop :=
  match n with
  | Reg _ _ => True
  | Dir es =>
      NoDup (map fst es) ∧
      (fix all es := match es with
                     | [] => True
                     | e :: es' => valid_name e.1 ∧ wf_node e.2 ∧ all es'
                     end) es
  end.

(** The corpus root of a run: [None] when the configured path does not
    exist. *)
Definition wf_root (root : option node) : Prop :=
  match root with Some n => wf_node n | None => True end.

(** ** The walker *)

Definition DEFAULT_SKIP_PATTERNS : list string :=
  ["~$*"; "*.tmp"; "Thumbs.db"; ".DS_Store"].
Definition DEFAULT_SUPPORTED_EXTENSIONS : list string :=
  [".md"; ".docx"; ".xlsx"; ".pdf"; ".vsdx"; ".txt"; ".csv"].

(** The metadata dict [walk_corpus] yields, with its nine keys.
    [absolute_path] is kept as the components below the corpus root: the
    tree is addressed from there. *)
Module Meta.
Record t := mk {
  file_path : string;
  file_name : string;
  file_extension : string;
  file_size_bytes : Z;
  parent_dir : string;
  corpus_section : option string;
  created_at : Z;
  modified_at : Z;
  absolute_path : list string;
}.
End Meta.

(** [determine_corpus_section]. *)
Definition determine_corpus_section (relative_path : string) : option string :=
  let parts := Pathlib.parts relative_path in
  if (length parts <=? 1)%nat then None else head parts.

(** [sorted] on directory entries: they compare as their paths do. *)
Definition item_le (x y : list string * node) : Prop := Pathlib.le x.1 y.1.

Global Instance item_le_dec : RelDecision item_le.
Proof. intros x y. unfold item_le. apply _. Defined.

Definition sorted (l : list (list string * node)) : list (list string * node) :=
  merge_sort item_le l.

Section Walker.

(** [fnmatch.fnmatch name pattern] of the Python standard library. *)
Variable fnmatch : string → string → bool.

(** [str.lower()], with all of Unicode it knows. *)
Variable lower : string → string.

(** The dict built at the [yield] for the file at [parts] with [stat]. *)
Definition record_of (parts : list string) (stat : Stat) : Meta.t :=
  let relative_path := Pathlib.str parts in
  {| Meta.file_path := relative_path;
     Meta.file_name := Pathlib.name parts;
     Meta.file_extension := lower (Pathlib.suffix (Pathlib.name parts));
     Meta.file_size_bytes := st_size stat;
     Meta.parent_dir :=
       if decide (Pathlib.parent parts = []) then ""
       else Pathlib.str (Pathlib.parent parts);
     Meta.corpus_section := determine_corpus_section relative_path;
     Meta.created_at := st_ctime stat;
     Meta.modified_at := st_mtime stat;
     Meta.absolute_path := parts |}.

(** [_should_skip]. *)
Fixpoint _should_skip (name : string) (skip_patterns : list string) : bool :=
  match skip_patterns with
  | [] => false
  | pattern :: rest =>
      if fnmatch name pattern then true else _should_skip name rest
  end.

(** One turn of the walker's loop: [None] where the source [continue]s,
    the yielded dict otherwise. *)
Definition walk_item (skip_patterns supported_extensions : list string)
    (item : list string * node) : option Meta.t :=
  let '(parts, n) := item in
  match n with
  | Dir _ => None
  | Reg stat _ =>
      if existsb (Pathlib.startswith ".") parts then None
      else if _should_skip (Pathlib.name parts) skip_patterns then None
      else
        let ext := lower (Pathlib.suffix (Pathlib.name parts)) in
        if bool_decide (ext ∈ supported_extensions) then
          Some (record_of parts stat)
        else None
  end.

(** [walk_corpus]: nothing when the root is not a directory, otherwise the
    records of the eligible entries in sorted order. *)
Definition walk_corpus (root : option node)
    (skip_patterns supported_extensions : option (list string)) : list Meta.t :=
  let skip_patterns := default DEFAULT_SKIP_PATTERNS skip_patterns in
  let supported_extensions :=
    default DEFAULT_SUPPORTED_EXTENSIONS supported_extensions in
  match root with
  | Some (Dir _ as d) =>
      omap (walk_item skip_patterns supported_extensions) (sorted (rglob d))
  | _ => []
  end.

End Walker.

(** ** The catalog

    A row of the [files] table of [app/models.py].  Nullable columns are
    options; a [DateTime] is the timestamp it denotes.  The [tags]
    relationship is never touched by the indexer and is left out. *)
Module File.
Record t := mk {
  id : nat;
  file_path : string;
  file_name : string;
  file_extension : string;
  file_size_bytes : Z;
  parent_dir : string;
  corpus_section : option string;
  created_at : option Z;
  modified_at : option Z;
  indexed_at : Z;
  content_text : option string;
  file_hash : option string;
}.
End File.

(** [db_session.query(File).filter_by(file_path=rel_path).first()]. *)
Definition query_first (rows : list File.t) (rel_path : string) : option File.t :=
  List.find (λ r, bool_decide (File.file_path r = rel_path)) rows.

(** The key the table hands to an added row ([autoincrement]). *)
Definition fresh_id (rows : list File.t) : nat :=
  S (max_list (map File.id rows)).

(** [db_session.add(new_file)]. *)
Definition session_add (rows : list File.t) (new_file : nat → File.t) : list File.t :=
  rows ++ [new_file (fresh_id rows)].

(** Attribute assignment on a loaded row: the row with that primary key is
    replaced by the mutated object. *)
Definition session_store (rows : list File.t) (r : File.t) : list File.t :=
  map (λ x, if decide (File.id x = File.id r) then r else x) rows.

(** [db_session.delete(record)]. *)
Definition session_delete (rows : list File.t) (record : File.t) : list File.t :=
  filter (λ x, File.id x ≠ File.id record) rows.

(** [stats[key] += 1] on a dict that has the key. *)
Definition incr (key : string) (stats : gmap string nat) : gmap string nat :=
  alter S key stats.

(** What a run works on: the rows of the session, the statistics dict and
    the number of [datetime.now] readings taken so far. *)
Record Work := mkWork {
  rows : list File.t;
  stats : gmap string nat;
  ticks : nat;
}.

(** The statistics dict a full run starts from (line 148). *)
Definition full_stats0 : gmap string nat :=
  {[ "new" := 0%nat; "updated" := 0%nat; "unchanged" := 0%nat;
     "deleted" := 0%nat; "total" := 0%nat ]}.

(** The statistics dict an incremental run starts from (line 229): it has
    no ["deleted"] key. *)
Definition incremental_stats0 : gmap string nat :=
  {[ "new" := 0%nat; "updated" := 0%nat; "unchanged" := 0%nat;
     "total" := 0%nat ]}.

Section Reconciler.

Variable fnmatch : string → string → bool.
Variable lower : string → string.

(** [hashlib.sha256(bytes).hexdigest()]. *)
Variable sha256 : string → string.

(** The successive readings of [datetime.now(timezone.utc)]. *)
Variable clock : nat → Z.

(** [compute_file_hash]: the digest of the bytes found at the path, [None]
    when opening or reading raises [OSError] (missing, a directory,
    unreadable). *)
Definition compute_file_hash (root : option node) (file_path : list string)
    : option string :=
  match n ← root; fs_lookup n file_path with
  | Some (Reg _ (Some bytes)) => Some (sha256 bytes)
  | _ => None
  end.

(** The assignments of the update branch. *)
Definition updated_row (existing : File.t) (meta : Meta.t) (now : Z)
    (file_hash : string) : File.t :=
  {| File.id := File.id existing;
     File.file_path := File.file_path existing;
     File.file_name := Meta.file_name meta;
     File.file_extension := Meta.file_extension meta;
     File.file_size_bytes := Meta.file_size_bytes meta;
     File.parent_dir := Meta.parent_dir meta;
     File.corpus_section := Meta.corpus_section meta;
     File.created_at := Some (Meta.created_at meta);
     File.modified_at := Some (Meta.modified_at meta);
     File.indexed_at := now;
     File.content_text := File.content_text existing;
     File.file_hash := Some file_hash |}.

(** The [File(...)] of the insert branch, before the table gives it a key. *)
Definition new_row (meta : Meta.t) (now : Z) (file_hash : string) (key : nat)
    : File.t :=
  {| File.id := key;
     File.file_path := Meta.file_path meta;
     File.file_name := Meta.file_name meta;
     File.file_extension := Meta.file_extension meta;
     File.file_size_bytes := Meta.file_size_bytes meta;
     File.parent_dir := Meta.parent_dir meta;
     File.corpus_section := Meta.corpus_section meta;
     File.created_at := Some (Meta.created_at meta);
     File.modified_at := Some (Meta.modified_at meta);
     File.indexed_at := now;
     File.content_text := None;
     File.file_hash := Some file_hash |}.

(** The part of the loop body that [index_corpus] (lines 156-195) and
    [reindex_changed] (lines 235-272) have in common: fingerprint, look the
    path up, then leave, update or insert. *)
Definition reconcile (root : option node) (w : Work) (meta : Meta.t) : Work :=
  let rel_path := Meta.file_path meta in
  match compute_file_hash root (Meta.absolute_path meta) with
  | None => w
  | Some file_hash =>
      match query_first (rows w) rel_path with
      | Some existing =>
          if decide (File.file_hash existing = Some file_hash) then
            mkWork (rows w) (incr "unchanged" (stats w)) (ticks w)
          else
            mkWork
              (session_store (rows w)
                 (updated_row existing meta (clock (ticks w)) file_hash))
              (incr "updated" (stats w))
              (S (ticks w))
      | None =>
          mkWork
            (session_add (rows w) (new_row meta (clock (ticks w)) file_hash))
            (incr "new" (stats w))
            (S (ticks w))
      end
  end.

(** The body of the walking loop of [index_corpus]. *)
Definition index_step (root : option node) (acc : Work * gset string)
    (meta : Meta.t) : Work * gset string :=
  let '(w, seen_paths) := acc in
  let w := mkWork (rows w) (incr "total" (stats w)) (ticks w) in
  let seen_paths := {[ Meta.file_path meta ]} ∪ seen_paths in
  (reconcile root w meta, seen_paths).

(** The body of the loop over [all_indexed]. *)
Definition delete_step (seen_paths : gset string) (w : Work) (record : File.t)
    : Work :=
  if decide (File.file_path record ∈ seen_paths) then w
  else mkWork (session_delete (rows w) record) (incr "deleted" (stats w)) (ticks w).

(** [index_corpus] up to the end of its walking loop (lines 147-195): the
    session, the statistics and [seen_paths] at that point. *)
Definition index_walk (root : option node) (db : list File.t) (t0 : nat)
    (skip_patterns supported_extensions : option (list string))
    : Work * gset string :=
  let stats := full_stats0 in
  foldl (index_step root) (mkWork db stats t0, ∅)
    (walk_corpus fnmatch lower root skip_patterns supported_extensions).

(** [index_corpus]: the walking loop, then the deletion loop over
    [all_indexed]; the result is the returned statistics together with the
    committed session. *)
Definition index_corpus (root : option node) (db : list File.t) (t0 : nat)
    (skip_patterns supported_extensions : option (list string)) : Work :=
  let '(w, seen_paths) :=
    index_walk root db t0 skip_patterns supported_extensions in
  let all_indexed := rows w in
  foldl (delete_step seen_paths) w all_indexed.

(** The body of the loop of [reindex_changed]. *)
Definition reindex_step (root : option node) (w : Work) (meta : Meta.t) : Work :=
  let w := mkWork (rows w) (incr "total" (stats w)) (ticks w) in
  reconcile root w meta.

(** [reindex_changed]. *)
Definition reindex_changed (root : option node) (db : list File.t) (t0 : nat)
    (skip_patterns supported_extensions : option (list string)) : Work :=
  let stats := incremental_stats0 in
  foldl (reindex_step root) (mkWork db stats t0)
    (walk_corpus fnmatch lower root skip_patterns supported_extensions).

End Reconciler.

(** ** Concrete instances

    Used to run the model on examples.  [glob_match] is shell-style matching
    for patterns without bracket expressions ([*], [?] and literal
    characters), where it agrees with [fnmatch.fnmatch] on POSIX. *)
Fixpoint glob_match (pattern name : string) {struct pattern} : bool :=
  match pattern with
  | EmptyString => match name with EmptyString => true | _ => false end
  | String "*" p =>
      (fix star (s : string) : bool :=
         glob_match p s ||
         match s with EmptyString => false | String _ s' => star s' end) name
  | String "?" p =>
      match name with String _ n' => glob_match p n' | EmptyString => false end
  | String c p =>
      match name with
      | String d n' => bool_decide (c = d) && glob_match p n'
      | EmptyString => false
      end
  end.

Definition fnmatch_glob (name pattern : string) : bool := glob_match pattern name.

(** Lower-casing of the letters A to Z, every other byte left as it is:
    [str.lower()] on ASCII strings. *)
Definition ascii_lower_char (c : ascii) : ascii :=
  let n := nat_of_ascii c in
  if (65 <=? n)%nat && (n <=? 90)%nat then ascii_of_nat (n + 32) else c.

Fixpoint ascii_lower (s : string) : string :=
  match s with
  | EmptyString => EmptyString
  | String c s' => String (ascii_lower_char c) (ascii_lower s')
  end.

(** A stand-in digest and clock for the examples. *)
Definition sample_digest (bytes : string) : string := "sha:" ++ bytes.
Definition sample_clock (n : nat) : Z := 1000 + Z.of_nat n.

(** The corpus of the scenario: [a.md] and [notes/b.txt]. *)
Definition scenario_tree : node :=
  Dir [ ("notes", Dir [ ("b.txt", Reg (mkStat 10 5 6) (Some "0123456789")) ]);
        ("a.md", Reg (mkStat 500 1 2) (Some "alpha")) ].

(** The same corpus once [a.md] is gone. *)
Definition scenario_tree_removed : node :=
  Dir [ ("notes", Dir [ ("b.txt", Reg (mkStat 10 5 6) (Some "0123456789")) ]) ].

(** The scenario corpus with its two entries listed the other way round. *)
Definition scenario_tree_relisted : node :=
  Dir [ ("a.md", Reg (mkStat 500 1 2) (Some "alpha"));
        ("notes", Dir [ ("b.txt", Reg (mkStat 10 5 6) (Some "0123456789")) ]) ].

(** The scenario corpus after the bytes of [a.md] changed under the same
    size and timestamps. *)
Definition scenario_tree_edited : node :=
  Dir [ ("notes", Dir [ ("b.txt", Reg (mkStat 10 5 6) (Some "0123456789")) ]);
        ("a.md", Reg (mkStat 500 1 2) (Some "alpha-bis")) ].

(** A corpus whose only file cannot be read. *)
Definition unreadable_tree : node :=
  Dir [ ("a.md", Reg (mkStat 3 1 2) None) ].

(** A catalog row of an earlier run. *)
Definition sample_row (key : nat) (path hash : string) : File.t :=
  {| File.id := key; File.file_path := path; File.file_name := path;
     File.file_extension := ".md"; File.file_size_bytes := 3;
     File.parent_dir := ""; File.corpus_section := None;
     File.created_at := Some 1%Z; File.modified_at := Some 2%Z;
     File.indexed_at := 900; File.content_text := None;
     File.file_hash := Some hash |}.

(** ** Vocabulary of the statements *)

(** What the table guarantees of its rows: [id] is the primary key and
    [file_path] is declared [unique]. *)
Definition catalog_ok (db : list File.t) : Prop :=
  NoDup (map File.id db) ∧ NoDup (map File.file_path db).

(** The paths of the rows of a catalog. *)
Definition paths (db : list File.t) : list string := map File.file_path db.

(** A regular file below the corpus root, at the relative path [p]. *)
Definition corpus_file (root : option node) (p : list string) : Prop :=
  p ≠ [] ∧ ∃ stat data, (n ← root; fs_lookup n p) = Some (Reg stat data).

(** What two listings of one tree agree on: which paths resolve, to a
    directory or to a file, and the [stat] and bytes of each file. *)
Definition fs_view (n : node) (p : list string) : option (option (Stat * option string)) :=
  match fs_lookup n p with
  | Some (Reg stat data) => Some (Some (stat, data))
  | Some (Dir _) => Some None
  | None => None
  end.

Definition same_files (n1 n2 : node) : Prop := ∀ p, fs_view n1 p = fs_view n2 p.

(** A session after a turn that counted its record and left every row as
    it was. *)
Definition counted (key : string) (w : Work) : Work :=
  mkWork (rows w) (incr key (incr "total" (stats w))) (ticks w).

(** The order of the yielded records: that of the paths they were built
    from. *)
Definition record_le (m1 m2 : Meta.t) : Prop :=
  Pathlib.le (Meta.absolute_path m1) (Meta.absolute_path m2).

(** The four ways a turn of the loop can end: the fingerprint failed, a
    row was inserted, a row was rewritten, the row was left alone. *)
Inductive outcome := Failed | New | Updated | Unchanged.

Global Instance outcome_eq_dec : EqDecision outcome.
Proof. solve_decision. Defined.

Section Vocabulary.

Variable fnmatch : string → string → bool.
Variable lower : string → string.
Variable sha256 : string → string.

(** The three acceptance rules of the path classifier, in the words of the
    specification: no component starts with a dot, the base name matches
    no skip pattern, the lowercased extension is supported. *)
Definition eligible (skip_patterns supported_extensions : list string)
    (p : list string) : Prop :=
  Forall (λ part, Pathlib.startswith "." part = false) p ∧
  Forall (λ pattern, fnmatch (Pathlib.name p) pattern = false) skip_patterns ∧
  lower (Pathlib.suffix (Pathlib.name p)) ∈ supported_extensions.

(** The branch of the loop body a record takes against a catalog. *)
Definition classify (root : option node) (db : list File.t) (meta : Meta.t)
    : outcome :=
  match compute_file_hash sha256 root (Meta.absolute_path meta) with
  | None => Failed
  | Some file_hash =>
      match query_first db (Meta.file_path meta) with
      | None => New
      | Some existing =>
          if decide (File.file_hash existing = Some file_hash)
          then Unchanged else Updated
      end
  end.

(** The counter a branch increments. *)
Definition outcome_key (o : outcome) : option string :=
  match o with
  | Failed => None
  | New => Some "new"
  | Updated => Some "updated"
  | Unchanged => Some "unchanged"
  end.

(** What the walking loop adds to the counter [k]: one for each record when
    [k] is ["total"], one for each record taking the branch of [k]
    otherwise. *)
Definition gain (root : option node) (db : list File.t) (l : list Meta.t)
    (k : string) : nat :=
  length (filter (λ m, k = "total" ∨
                       outcome_key (classify root db m) = Some k) l).

(** How many records of a walk take a given branch against [db]. *)
Definition branch_count (root : option node) (db : list File.t)
    (l : list Meta.t) (o : outcome) : nat :=
  length (filter (λ m, classify root db m = o) l).

(** The catalog mirrors the corpus: one entry per eligible regular file,
    keyed by its relative path, and no other entry. *)
Definition mirrors (root : option node)
    (skip_patterns supported_extensions : list string) (db : list File.t) : Prop :=
  NoDup (paths db) ∧
  ∀ s, s ∈ paths db ↔
       ∃ p, corpus_file root p ∧
            eligible skip_patterns supported_extensions p ∧
            Pathlib.str p = s.

End Vocabulary.

(** ** Search ([app/search.py]) *)

(** The [SearchParams] dataclass. *)
Module SearchParams.
Record t := mk {
  filename : string;
  extensions : list string;
  sections : list string;
  date_from : option Z;
  date_to : option Z;
  path_contains : string;
  min_size : option Z;
  max_size : option Z;
  sort_by : string;
  sort_dir : string;
  page : Z;
  per_page : Z;
}.

(** [SearchParams()] with the defaults of its fields. *)
Definition default : t :=
  {| filename := ""; extensions := []; sections := [];
     date_from := None; date_to := None; path_contains := "";
     min_size := None; max_size := None;
     sort_by := "file_name"; sort_dir := "asc"; page := 1; per_page := 25 |}.
End SearchParams.


(** The values of the dict [execute_search] returns. *)
Inductive search_value :=
| SFiles (files : list File.t)
| SInt (n : Z).

(** What [execute_search] dies of: the division of line 101, or [sqlite3]
    refusing a bound parameter. *)
Inductive search_error := ZeroDivisionError | OverflowError.

(** The integers SQLite holds: 64 bits, signed.  [sqlite3] raises
    [OverflowError] when it is to bind a Python [int] outside them. *)
Definition sqlite_integer (n : Z) : bool :=
  (-9223372036854775808 <=? n)%Z && (n <=? 9223372036854775807)%Z.

(** [query.offset(n)] and [query.limit(n)] on the rows a query selects.
    Offset and limit are bound parameters of the statement: [None] is the
    [OverflowError] for one that is no SQLite integer.  Otherwise they are
    evaluated the way SQLite does: a negative offset is no offset, a
    negative limit is no limit. *)
Definition sql_offset (n : Z) (q : list File.t) : option (list File.t) :=
  if sqlite_integer n then Some (drop (Z.to_nat n) q) else None.

Definition sql_limit (n : Z) (q : list File.t) : option (list File.t) :=
  if sqlite_integer n then
    Some (if (n <? 0)%Z then q else take (Z.to_nat n) q)
  else None.

(** [execute_search], given the rows [build_query(params)] selects, in the
    order of the query: the dict it returns, or what it dies of. *)
Definition execute_search (query : list File.t) (params : SearchParams.t)
    : search_error + gmap string search_value :=
  let per_page := SearchParams.per_page params in
  let total := Z.of_nat (length query) in
  if decide (per_page = 0%Z) then inl ZeroDivisionError
  else
    let pages := Z.max 1 ((total + per_page - 1) / per_page) in
    let page := Z.min (SearchParams.page params) pages in
    match sql_offset ((page - 1) * per_page) query ≫= sql_limit per_page with
    | None => inl OverflowError
    | Some files =>
        inr {[ "files" := SFiles files; "total" := SInt total;
               "page" := SInt page; "per_page" := SInt per_page;
               "pages" := SInt pages ]}
    end.




Section ParseSearchParams.

(** [str.strip], [int] on a string and [datetime.fromisoformat]; the last
    two are [None] where Python raises [ValueError]. *)
Variable strip : string → string.
Variable py_int : string → option Z.
Variable fromisoformat : string → option Z.



End ParseSearchParams.

(** How a command of [cli.py] ends: it returns after echoing lines, exits
    with a status after echoing to stderr, or dies of an exception. *)
Inductive cli_outcome :=
| Returned (stdout : list string)
| Exited (status : Z) (stderr : list string)
| Raised (exception : string).

(** The [SearchParams(...)] that [cli.py search] builds from its options
    (lines 115-120). *)
Definition cli_search_params (name ext section : string) (limit : Z)
    : SearchParams.t :=
  {| SearchParams.filename := name;
     SearchParams.extensions := if decide (ext = "") then [] else [ext];
     SearchParams.sections := if decide (section = "") then [] else [section];
     SearchParams.date_from := None;
     SearchParams.date_to := None;
     SearchParams.path_contains := "";
     SearchParams.min_size := None;
     SearchParams.max_size := None;
     SearchParams.sort_by := "file_name";
     SearchParams.sort_dir := "asc";
     SearchParams.page := 1;
     SearchParams.per_page := limit |}.

Section CliSearch.

Variable fromisoformat : string → option Z.

(** [modified_at.strftime("%Y-%m-%d")]. *)
Variable strftime_date : Z → string.

(** What [build_query] selects for given parameters. *)
Variable build_query : SearchParams.t → list File.t.

(** The report of [cli.py search] (lines 137-145) on the dict of
    [execute_search]. *)
Definition search_report (results : gmap string search_value) : cli_outcome :=
  match results !! "files" with
  | None => Raised "KeyError: 'files'"
  | Some (SInt _) => Raised "TypeError"
  | Some (SFiles []) => Returned ["No matching files found."]
  | Some (SFiles files) =>
      match results !! "total" with
      | None => Raised "KeyError: 'total'"
      | Some total =>
          match results !! "items" with
          | None => Raised "KeyError: 'items'"
          | Some (SInt _) => Raised "TypeError"
          | Some (SFiles items) =>
              Returned
                (("Found " ++
                  match total with SInt n => pretty n | SFiles _ => "[...]" end ++
                  " files (showing " ++ pretty (length items) ++ "):" ++
                  String "010" "") ::
                 map (λ f,
                        "  [" ++ File.file_extension f ++ "] " ++
                        File.file_path f ++ "  (" ++
                        match File.modified_at f with
                        | Some d => strftime_date d
                        | None => "unknown"
                        end ++ ")") files)
          end
      end
  end.

(** [cli.py search]: the command with its six options, once the
    application is set up. *)
Definition cli_search (name ext section after before : string) (limit : Z)
    : cli_outcome :=
  let params := cli_search_params name ext section limit in
  let set_from (p : SearchParams.t) d :=
    {| SearchParams.filename := SearchParams.filename p;
       SearchParams.extensions := SearchParams.extensions p;
       SearchParams.sections := SearchParams.sections p;
       SearchParams.date_from := Some d;
       SearchParams.date_to := SearchParams.date_to p;
       SearchParams.path_contains := SearchParams.path_contains p;
       SearchParams.min_size := SearchParams.min_size p;
       SearchParams.max_size := SearchParams.max_size p;
       SearchParams.sort_by := SearchParams.sort_by p;
       SearchParams.sort_dir := SearchParams.sort_dir p;
       SearchParams.page := SearchParams.page p;
       SearchParams.per_page := SearchParams.per_page p |} in
  let set_to (p : SearchParams.t) d :=
    {| SearchParams.filename := SearchParams.filename p;
       SearchParams.extensions := SearchParams.extensions p;
       SearchParams.sections := SearchParams.sections p;
       SearchParams.date_from := SearchParams.date_from p;
       SearchParams.date_to := Some d;
       SearchParams.path_contains := SearchParams.path_contains p;
       SearchParams.min_size := SearchParams.min_size p;
       SearchParams.max_size := SearchParams.max_size p;
       SearchParams.sort_by := SearchParams.sort_by p;
       SearchParams.sort_dir := SearchParams.sort_dir p;
       SearchParams.page := SearchParams.page p;
       SearchParams.per_page := SearchParams.per_page p |} in
  let run (params : SearchParams.t) :=
    match execute_search (build_query params) params with
    | inl ZeroDivisionError => Raised "ZeroDivisionError"
    | inl OverflowError => Raised "OverflowError"
    | inr results => search_report results
    end in
  let with_before (params : SearchParams.t) :=
    if decide (before = "") then run params
    else match fromisoformat before with
         | Some d => run (set_to params d)
         | None =>
             Exited 1 ["Invalid date format for --before: " ++ before]
         end in
  if decide (after = "") then with_before params
  else match fromisoformat after with
       | Some d => with_before (set_from params d)
       | None => Exited 1 ["Invalid date format for --after: " ++ after]
       end.

End CliSearch.

(** ** Vocabulary of the search *)

(** The files of a search result; none when the search raised. *)
Definition result_files
    (result : search_error + gmap string search_value) : list File.t :=
  match result with
  | inr d => match d !! "files" with Some (SFiles fs) => fs | _ => [] end
  | inl _ => []
  end.

(** [params] asking for another page. *)
Definition with_page (params : SearchParams.t) (page : Z) : SearchParams.t :=
  {| SearchParams.filename := SearchParams.filename params;
     SearchParams.extensions := SearchParams.extensions params;
     SearchParams.sections := SearchParams.sections params;
     SearchParams.date_from := SearchParams.date_from params;
     SearchParams.date_to := SearchParams.date_to params;
     SearchParams.path_contains := SearchParams.path_contains params;
     SearchParams.min_size := SearchParams.min_size params;
     SearchParams.max_size := SearchParams.max_size params;
     SearchParams.sort_by := SearchParams.sort_by params;
     SearchParams.sort_dir := SearchParams.sort_dir params;
     SearchParams.page := page;
     SearchParams.per_page := SearchParams.per_page params |}.

(** The number of pages [execute_search] reports. *)
Definition page_count (total per_page : Z) : Z :=
  Z.max 1 ((total + per_page - 1) / per_page).

(** ** Configuration ([app/config.py])

    [load_config] assigns into dicts that [_deep_merge] only copied one
    level deep, so the dicts are objects in a store and a dict value is a
    reference. *)

(** A value as [yaml.safe_load] returns it from a document without
    aliases: a scalar, a list or a dict with its string keys in order.
    [YOther] stands for the scalars that are none of the first four
    (floats, dates, bytes), by their truth value and their text. *)
Inductive yaml :=
| YStr (s : string)
| YInt (n : Z)
| YBool (b : bool)
| YNull
| YOther (truthy : bool) (text : string)
| YList (items : list yaml)
| YDict (entries : list (string * yaml)).

(** A value held in a dict of the store: a reference to a dict object, or
    anything that is not a dict. *)
Inductive hval :=
| HLeaf (v : yaml)
| HRef (l : nat).

(** A dict object: its items in insertion order. *)
Definition dictobj := list (string * hval).

(** [d.get(key)]. *)
Fixpoint dict_get (key : string) (d : dictobj) : option hval :=
  match d with
  | [] => None
  | (k, v) :: d' => if decide (k = key) then Some v else dict_get key d'
  end.

(** [d[key] = value]: in place when the key is there, at the end
    otherwise. *)
Fixpoint dict_set (key : string) (value : hval) (d : dictobj) : dictobj :=
  match d with
  | [] => [(key, value)]
  | (k, v) :: d' =>
      if decide (k = key) then (k, value) :: d'
      else (k, v) :: dict_set key value d'
  end.

(** The store of dict objects. *)
Abbreviation heap := (gmap nat dictobj).

(** The address of the next object. *)
Definition fresh_loc (h : heap) : nat := fresh (dom h).

(** The exceptions [load_config] can die of. *)
Inductive exn := KeyError | TypeError | ValueError | AttributeError.

(** A value as the loader leaves it in the store: what is no dict as it
    is, a dict as the address of its object with its items. *)
Inductive obj :=
| OLeaf (v : yaml)
| ODict (l : nat) (items : list (string * obj)).

(** The value as a dict holds it. *)
Definition obj_val (o : obj) : hval :=
  match o with
  | OLeaf v => HLeaf v
  | ODict l _ => HRef l
  end.

(** The items of a dict object. *)
Definition items_val (items : list (string * obj)) : dictobj :=
  map (λ kv, (kv.1, obj_val kv.2)) items.

(** [yaml.safe_load], and a dict display such as [{}]: every dict of the
    value becomes a new object of the store, the inner ones first. *)
Fixpoint alloc (v : yaml) (h : heap) {struct v} : heap * obj :=
  match v with
  | YDict entries =>
      let '(h, items) :=
        (fix go (entries : list (string * yaml)) (h : heap)
             : heap * list (string * obj) :=
           match entries with
           | [] => (h, [])
           | (k, x) :: rest =>
               let '(h, o) := alloc x h in
               let '(h, items) := go rest h in
               (h, (k, o) :: items)
           end) entries h in
      let l := fresh_loc h in
      (<[l := items_val items]> h, ODict l items)
  | _ => (h, OLeaf v)
  end.

(** The loop of [_deep_merge] over [override.items()], on the result dict
    at [r]; [rec] is [_deep_merge] itself.  In the [else] branch the
    result gets the value of the override as it is: a dict by reference. *)
Definition merge_loop (rec : obj → heap → nat → option (heap * nat)) (r : nat)
    : list (string * obj) → heap → option heap :=
  fix go items h :=
    match items with
    | [] => Some h
    | (key, value) :: rest =>
        result ← h !! r;
        h ← match dict_get key result, value with
            | Some (HRef b), ODict _ _ =>
                '(h, merged) ← rec value h b;
                result ← h !! r;
                Some (<[r := dict_set key (HRef merged) result]> h)
            | _, _ => Some (<[r := dict_set key (obj_val value) result]> h)
            end;
        go rest h
    end.

(** [_deep_merge(base, override)] for a dict [base] of the store and an
    [override] as the loader left it there, its items as [stored] says:
    the store afterwards and the address of the result.  [None] when
    [override] is not a dict (it has no [items]) or [base] is not in the
    store. *)
Fixpoint _deep_merge (override : obj) (h : heap) (base : nat) {struct override}
    : option (heap * nat) :=
  match override with
  | ODict _ items =>
      d ← h !! base;
      let r := fresh_loc h in
      h ← merge_loop _deep_merge r items (<[r := d]> h);
      Some (h, r)
  | OLeaf _ => None
  end.

(** The store holds the dicts of a loaded value with the items the value
    has; a leaf is a value that is no dict. *)
Fixpoint stored (h : heap) (o : obj) {struct o} : Prop :=
  match o with
  | OLeaf v => ∀ entries, v ≠ YDict entries
  | ODict l items =>
      h !! l = Some (items_val items) ∧
      (fix all (items : list (string * obj)) : Prop :=
         match items with
         | [] => True
         | (_, x) :: rest => stored h x ∧ all rest
         end) items
  end.

(** Python's truth value of a loaded value. *)
Definition yaml_truthy (v : yaml) : bool :=
  match v with
  | YStr s => negb (bool_decide (s = ""))
  | YInt n => negb (bool_decide (n = 0%Z))
  | YBool b => b
  | YNull => false
  | YOther truthy _ => truthy
  | YList items => negb (bool_decide (items = []))
  | YDict entries => negb (bool_decide (entries = []))
  end.

(** [ENV_OVERRIDES], in the order of the dict. *)
Definition ENV_OVERRIDES : list (string * (string * string)) :=
  [ ("KCM_CORPUS_ROOT", ("corpus", "root_path"));
    ("KCM_DATABASE_PATH", ("database", "path"));
    ("KCM_PORT", ("server", "port")) ].

(** The address of the module-level dict [DEFAULT_CONFIG]. *)
Definition DEFAULT_CONFIG : nat := 0.

(** The store when the module has been imported: [DEFAULT_CONFIG] and its
    five sections; [database_path] and [output_dir] are the two paths below
    the home directory. *)
Definition initial_heap (database_path output_dir : string) : heap :=
  {[ 0%nat := [ ("corpus", HRef 1); ("database", HRef 2);
                ("consolidation", HRef 3); ("server", HRef 4);
                ("indexer", HRef 5) ];
     1%nat := [ ("root_path", HLeaf (YStr "")) ];
     2%nat := [ ("path", HLeaf (YStr database_path)) ];
     3%nat := [ ("output_dir", HLeaf (YStr output_dir)) ];
     4%nat := [ ("host", HLeaf (YStr "127.0.0.1")); ("port", HLeaf (YInt 5000));
                ("debug", HLeaf (YBool true)) ];
     5%nat := [ ("skip_patterns",
                 HLeaf (YList (map YStr DEFAULT_SKIP_PATTERNS)));
                ("supported_extensions",
                 HLeaf (YList (map YStr DEFAULT_SUPPORTED_EXTENSIONS))) ] ]}.

Section LoadConfig.

(** [int] on a string, [None] where it raises [ValueError]. *)
Variable py_int : string → option Z.

(** [str(Path(s).expanduser())]. *)
Variable expanduser : string → string.

(** [os.environ]. *)
Variable environ : gmap string string.

(** [config[section]] followed by a subscript: the dict object the
    section is, [KeyError] when there is no such section, [TypeError] when
    the section is not a dict. *)
Definition section_dict (h : heap) (config : nat) (section : string)
    : exn + (nat * dictobj) :=
  match h !! config with
  | None => inl KeyError
  | Some c =>
      match dict_get section c with
      | None => inl KeyError
      | Some (HLeaf _) => inl TypeError
      | Some (HRef l) =>
          match h !! l with
          | Some d => inr (l, d)
          | None => inl KeyError
          end
      end
  end.

(** [config[section][key] = value]. *)
Definition set_item (h : heap) (config : nat) (section key : string)
    (value : hval) : heap * (exn + unit) :=
  match section_dict h config section with
  | inl e => (h, inl e)
  | inr (l, d) => (<[l := dict_set key value d]> h, inr tt)
  end.

(** The loop over [ENV_OVERRIDES] (lines 75-80). *)
Fixpoint apply_env (overrides : list (string * (string * string))) (h : heap)
    (config : nat) : heap * (exn + unit) :=
  match overrides with
  | [] => (h, inr tt)
  | (env_var, (section, key)) :: rest =>
      match environ !! env_var with
      | None => apply_env rest h config
      | Some value =>
          let converted :=
            if decide (key = "port") then YInt <$> py_int value
            else Some (YStr value) in
          match converted with
          | None => (h, inl ValueError)
          | Some v =>
              match set_item h config section key (HLeaf v) with
              | (h, inl e) => (h, inl e)
              | (h, inr _) => apply_env rest h config
              end
          end
      end
  end.

(** [config[section][key] = str(Path(config[section][key]).expanduser())]. *)
Definition expand_item (h : heap) (config : nat) (section key : string)
    : heap * (exn + unit) :=
  match section_dict h config section with
  | inl e => (h, inl e)
  | inr (l, d) =>
      match dict_get key d with
      | None => (h, inl KeyError)
      | Some (HLeaf (YStr s)) =>
          (<[l := dict_set key (HLeaf (YStr (expanduser s))) d]> h, inr tt)
      | Some _ => (h, inl TypeError)
      end
  end.

(** The test of line 87 followed by its assignment. *)
Definition expand_root_path (h : heap) (config : nat) : heap * (exn + unit) :=
  match section_dict h config "corpus" with
  | inl e => (h, inl e)
  | inr (l, d) =>
      match dict_get "root_path" d with
      | None => (h, inl KeyError)
      | Some (HLeaf v) =>
          if yaml_truthy v then expand_item h config "corpus" "root_path"
          else (h, inr tt)
      | Some (HRef r) =>
          match h !! r with
          | Some [] => (h, inr tt)
          | _ => (h, inl TypeError)
          end
      end
  end.

(** [load_config]: [yaml_file] is what [yaml.safe_load] reads from the
    configuration file, [None] when the file does not exist.  The result
    is the store afterwards with the address of the returned dict, or the
    exception the call dies of. *)
Definition load_config (yaml_file : option yaml) (h : heap)
    : heap * (exn + nat) :=
  match h !! DEFAULT_CONFIG with
  | None => (h, inl KeyError)
  | Some defaults =>
      (* config = DEFAULT_CONFIG.copy() *)
      let h := <[fresh_loc h := defaults]> h in
      (* config = _deep_merge(DEFAULT_CONFIG, {}) *)
      let '(h, empty) := alloc (YDict []) h in
      match _deep_merge empty h DEFAULT_CONFIG with
      | None => (h, inl KeyError)
      | Some (h, config) =>
          let merged :=
            match yaml_file with
            | None => inr (h, config)
            | Some loaded =>
                (* yaml_config = yaml.safe_load(f) or {} *)
                let '(h, yaml_config) := alloc loaded h in
                let '(h, yaml_config) :=
                  if yaml_truthy loaded then (h, yaml_config)
                  else alloc (YDict []) h in
                match _deep_merge yaml_config h config with
                | None => inl (h, AttributeError)
                | Some (h, config) => inr (h, config)
                end
            end in
          match merged with
          | inl (h, e) => (h, inl e)
          | inr (h, config) =>
              match apply_env ENV_OVERRIDES h config with
              | (h, inl e) => (h, inl e)
              | (h, inr _) =>
                  match expand_item h config "database" "path" with
                  | (h, inl e) => (h, inl e)
                  | (h, inr _) =>
                      match expand_item h config "consolidation" "output_dir" with
                      | (h, inl e) => (h, inl e)
                      | (h, inr _) =>
                          match expand_root_path h config with
                          | (h, inl e) => (h, inl e)
                          | (h, inr _) => (h, inr config)
                          end
                      end
                  end
              end
          end
      end
  end.

(** [config[section][key]] read from the store. *)
Definition get_item (h : heap) (config : nat) (section key : string)
    : option hval :=
  match section_dict h config section with
  | inl _ => None
  | inr (_, d) => dict_get key d
  end.

End LoadConfig.

(** ** Vocabulary of the configuration *)

(** A store without dangling references. *)
Definition closed (h : heap) : Prop :=
  ∀ l d k l', h !! l = Some d → dict_get k d = Some (HRef l') → is_Some (h !! l').

(** What [_deep_merge] is required to do for the loop to keep the store:
    add objects only and return a new one. *)
Definition merge_frame (rec : obj → heap → nat → option (heap * nat))
    (value : obj) : Prop :=
  ∀ h b h' m, rec value h b = Some (h', m) →
    h ⊆ h' ∧ h !! m = None ∧ is_Some (h' !! m).

(** What [_deep_merge] is required to do for the loop to return: return
    for a dict of the store as override, over a store without dangling
    references, and leave such a store. *)
Definition merge_total (rec : obj → heap → nat → option (heap * nat))
    (value : obj) : Prop :=
  ∀ h b l items, value = ODict l items → closed h → stored h value →
    is_Some (h !! b) →
    ∃ h' m, rec value h b = Some (h', m) ∧ closed h'.

(** The module-level defaults as [load_config] needs them: no dangling
    reference, [DEFAULT_CONFIG] in the store, and its sections objects of
    their own. *)
Definition defaults_ok (h : heap) : Prop :=
  closed h ∧
  ∃ d0, h !! DEFAULT_CONFIG = Some d0 ∧
    (∀ k l, dict_get k d0 = Some (HRef l) → l ≠ DEFAULT_CONFIG) ∧
    (∀ k k' l, dict_get k d0 = Some (HRef l) → dict_get k' d0 = Some (HRef l) →
       k = k').

(** The configuration file says nothing about [section]: there is no file,
    or what is loaded from it is empty, or a dict without that key. *)
Definition no_section (section : string) (yaml_file : option yaml) : Prop :=
  match yaml_file with
  | None => True
  | Some (YDict entries) => section ∉ entries.*1
  | Some v => yaml_truthy v = false
  end.

(** The state of [load_config] once the configuration is merged: the
    working dict [config] is an object of its own, its corpus section is
    the object [c] of the defaults, which holds [dc], and no other section
    is [c], [config] or [DEFAULT_CONFIG]. *)
Definition config_inv (d0 : dictobj) (c config : nat) (dc : dictobj)
    (h : heap) : Prop :=
  closed h ∧ h !! DEFAULT_CONFIG = Some d0 ∧ h !! c = Some dc ∧
  config ≠ DEFAULT_CONFIG ∧ config ≠ c ∧ c ≠ DEFAULT_CONFIG ∧
  ∃ d, h !! config = Some d ∧ dict_get "corpus" d = Some (HRef c) ∧
    ∀ k l, dict_get k d = Some (HRef l) →
      l ≠ DEFAULT_CONFIG ∧ l ≠ config ∧ (k ≠ "corpus" → l ≠ c).

Section ConfigVocabulary.

Variable expanduser : string → string.
Variable environ : gmap string string.

(** The corpus section after the loop over [ENV_OVERRIDES]. *)
Definition overridden (dc : dictobj) : dictobj :=
  match environ !! "KCM_CORPUS_ROOT" with
  | Some v => dict_set "root_path" (HLeaf (YStr v)) dc
  | None => dc
  end.

(** The corpus section after lines 87-90. *)
Definition expanded (dc : dictobj) : dictobj :=
  match dict_get "root_path" dc with
  | Some (HLeaf (YStr s)) =>
      if decide (s = "") then dc
      else dict_set "root_path" (HLeaf (YStr (expanduser s))) dc
  | _ => dc
  end.

End ConfigVocabulary.

(** ** Export file names ([app/consolidator.py])

    The name of an export is made character by character with
    [str.isalnum], which knows all of Unicode: here a Python string is
    the list of its code points. *)

Definition pystr := list nat.

(** The code points of an ASCII literal. *)
Definition literal (s : string) : pystr :=
  map nat_of_ascii (list_ascii_of_string s).

(** [FORMAT_HANDLERS], the extension of each format. *)
Definition FORMAT_HANDLERS : list (string * string) :=
  [("markdown", ".md"); ("json", ".json"); ("text", ".txt")].

Section Consolidator.

(** [str.isalnum] and [str.isspace] on one character. *)
Variable isalnum : nat → bool.
Variable isspace : nat → bool.

(** [s.strip()]. *)
Fixpoint lstrip (s : pystr) : pystr :=
  match s with
  | [] => []
  | c :: s' => if isspace c then lstrip s' else s
  end.

Definition py_strip (s : pystr) : pystr := reverse (lstrip (reverse (lstrip s))).

(** [s.replace(" ", "_")]. *)
Definition replace_space (s : pystr) : pystr :=
  map (λ c, if decide (c = 32) then 95 else c) s.

(** Lines 159-160 of [consolidate_files]. *)
Definition safe_name (name : pystr) : pystr :=
  let joined :=
    map (λ c, if isalnum c || bool_decide (c ∈ literal "-_ ") then c else 95)
        name in
  replace_space (py_strip joined).

(** The file name [consolidate_files] writes to, for the [timestamp] the
    clock gives; [None] when it raises [ValueError] for the format. *)
Definition export_filename (output_format : string) (timestamp name : pystr)
    : option pystr :=
  match list_find (λ e, e.1 = output_format) FORMAT_HANDLERS with
  | None => None
  | Some (_, (_, extension)) =>
      Some (timestamp ++ literal "_" ++ safe_name name ++ literal extension)%list
  end.

End Consolidator.

(** ** Concrete instances for the search, the configuration and the
    exports *)

(** Three rows a query selects, and parameters asking for pages of two. *)
Definition sample_rows : list File.t :=
  [ sample_row 1 "a.md" "sha:alpha"; sample_row 2 "b.md" "sha:beta";
    sample_row 3 "c.md" "sha:gamma" ].

Definition sample_params (page : Z) : SearchParams.t :=
  {| SearchParams.filename := ""; SearchParams.extensions := [];
     SearchParams.sections := []; SearchParams.date_from := None;
     SearchParams.date_to := None; SearchParams.path_contains := "";
     SearchParams.min_size := None; SearchParams.max_size := None;
     SearchParams.sort_by := "file_name"; SearchParams.sort_dir := "asc";
     SearchParams.page := page; SearchParams.per_page := 2 |}.

(** A home directory with the two default paths below it, the expansion
    of a leading tilde into it, and [int] on unsigned decimal numerals. *)
Definition sample_home : string := "/home/kcm".
Definition sample_database_path : string := "/home/kcm/.kcm/corpus.db".
Definition sample_output_dir : string := "/home/kcm/.kcm/exports".

(** The store of a freshly imported module in that home directory. *)
Definition sample_store : heap :=
  initial_heap sample_database_path sample_output_dir.

Definition sample_expanduser (s : string) : string :=
  match s with
  | String "~" rest => sample_home ++ rest
  | _ => s
  end.

Fixpoint digits (s : string) (acc : Z) : option Z :=
  match s with
  | "" => Some acc
  | String c s' =>
      let n := nat_of_ascii c in
      if (48 <=? n)%nat && (n <=? 57)%nat
      then digits s' (10 * acc + Z.of_nat (n - 48))
      else None
  end.

Definition sample_int (s : string) : option Z :=
  if decide (s = "") then None else digits s 0.

(** An environment with a corpus root, and one with a port that is no
    number as well. *)
Definition sample_environ : gmap string string :=
  {[ "KCM_CORPUS_ROOT" := "~/corpus" ]}.

Definition sample_environ_bad_port : gmap string string :=
  {[ "KCM_CORPUS_ROOT" := "~/corpus"; "KCM_PORT" := "http" ]}.

(** The items of [DEFAULT_CONFIG] in [initial_heap]. *)
Definition sample_defaults : dictobj :=
  [ ("corpus", HRef 1); ("database", HRef 2); ("consolidation", HRef 3);
    ("server", HRef 4); ("indexer", HRef 5) ].

(** A configuration file that sets the port and a title. *)
Definition sample_yaml : list (string * yaml) :=
  [ ("server", YDict [("port", YInt 8080)]); ("title", YStr "notes") ].

(** The same configuration once loaded into the store of a freshly imported
    module: the server section is object 6, the configuration object 7. *)
Definition sample_override : obj :=
  ODict 7 [ ("server", ODict 6 [("port", OLeaf (YInt 8080))]);
            ("title", OLeaf (YStr "notes")) ].

Definition sample_loaded_store : heap :=
  <[7%nat := [("server", HRef 6); ("title", HLeaf (YStr "notes"))]]>
    (<[6%nat := [("port", HLeaf (YInt 8080))]]> sample_store).

(** [isalnum] and [isspace] on ASCII. *)
Definition sample_isalnum (c : nat) : bool :=
  ((48 <=? c) && (c <=? 57) || (65 <=? c) && (c <=? 90)
   || (97 <=? c) && (c <=? 122))%nat.

Definition sample_isspace (c : nat) : bool :=
  bool_decide (c ∈ [9; 10; 11; 12; 13; 32]%nat).

(** A corpus with a directory whose name matches a skip pattern. *)
Definition pattern_dir_tree : node :=
  Dir [ ("build.tmp", Dir [ ("a.md", Reg (mkStat 3 1 2) (Some "abc")) ]) ].

(** * Properties *)

(** ** The order on paths *)

Lemma string_compare_refl (s : string) : (s ?= s)%string = Eq.
Proof.
  pose proof (String.compare_antisym s s) as H.
  destruct (s ?= s)%string; simpl in H; congruence.
Qed.

Lemma string_compare_lt_trans (a b c : string) :
  (a ?= b)%string = Lt → (b ?= c)%string = Lt → (a ?= c)%string = Lt.
Proof.
  intros Hab Hbc.
  assert (Hle : String.le a c).
  { trans b; unfold String.le, String.leb; [by rewrite Hab | by rewrite Hbc]. }
  unfold String.le, String.leb in Hle.
  destruct (a ?= c)%string eqn:Hac; [| done | done].
  apply String.compare_eq_iff in Hac as ->.
  rewrite String.compare_antisym, Hbc in Hab. discriminate.
Qed.

Lemma path_compare_refl (p : list string) : Pathlib.compare p p = Eq.
Proof. induction p as [|a p IH]; simpl; [done|]. by rewrite string_compare_refl. Qed.

Lemma path_compare_antisym (p q : list string) :
  Pathlib.compare p q = CompOpp (Pathlib.compare q p).
Proof.
  revert q. induction p as [|a p IH]; intros [|b q]; simpl; try done.
  rewrite (String.compare_antisym a b).
  destruct (b ?= a)%string; simpl; auto.
Qed.

Lemma path_compare_eq (p q : list string) :
  Pathlib.compare p q = Eq → p = q.
Proof.
  revert q. induction p as [|a p IH]; intros [|b q]; simpl; try done.
  destruct (a ?= b)%string eqn:Hab; try done.
  intros Hpq. apply String.compare_eq_iff in Hab. f_equal; auto.
Qed.

Lemma path_compare_lt_trans (p q r : list string) :
  Pathlib.compare p q = Lt → Pathlib.compare q r = Lt → Pathlib.compare p r = Lt.
Proof.
  revert q r. induction p as [|a p IH]; intros [|b q] [|c r]; simpl; try done.
  destruct (a ?= b)%string eqn:Hab; try done.
  - apply String.compare_eq_iff in Hab as ->.
    destruct (b ?= c)%string; try done. apply IH.
  - destruct (b ?= c)%string eqn:Hbc; try done.
    + apply String.compare_eq_iff in Hbc as ->. by rewrite Hab.
    + by rewrite (string_compare_lt_trans a b c).
Qed.

Lemma path_le_alt (p q : list string) :
  Pathlib.le p q ↔ Pathlib.compare p q ≠ Gt.
Proof.
  unfold Pathlib.le, Pathlib.ltb. rewrite (path_compare_antisym q p).
  destruct (Pathlib.compare p q); simpl; split; congruence.
Qed.

Global Instance path_le_total : Total Pathlib.le.
Proof.
  intros p q. rewrite !path_le_alt, (path_compare_antisym q p).
  destruct (Pathlib.compare p q); simpl; auto.
Qed.

Global Instance path_le_trans : Transitive Pathlib.le.
Proof.
  intros p q r. rewrite !path_le_alt. intros Hpq Hqr.
  destruct (Pathlib.compare p q) eqn:E1; [| |done].
  - by apply path_compare_eq in E1 as ->.
  - destruct (Pathlib.compare q r) eqn:E2; [| |done].
    + by apply path_compare_eq in E2 as <-; rewrite E1.
    + by rewrite (path_compare_lt_trans p q r).
Qed.

Global Instance path_le_antisym : AntiSymm (=) Pathlib.le.
Proof.
  intros p q. rewrite !path_le_alt, (path_compare_antisym q p).
  destruct (Pathlib.compare p q) eqn:E; simpl; try done.
  intros _ _. by apply path_compare_eq.
Qed.

Global Instance item_le_total : Total item_le.
Proof. intros x y. apply (total Pathlib.le). Qed.

Global Instance item_le_trans : Transitive item_le.
Proof. intros x y z. apply (transitivity (R:=Pathlib.le)). Qed.

(** ** Joining and splitting paths *)

Lemma rfind_None_cons (c a : ascii) (s : string) :
  Pathlib.rfind c (String a s) = None ↔ a ≠ c ∧ Pathlib.rfind c s = None.
Proof.
  simpl. destruct (Pathlib.rfind c s); [by split; [|intros [_ ?]]|].
  destruct (decide (a = c)); split; try done; by intros [? _].
Qed.

Lemma split_slash_nonempty (s : string) : Pathlib.split_slash s ≠ [].
Proof.
  destruct s as [|c s]; simpl; [done|].
  destruct (decide _); [done|]. by destruct (Pathlib.split_slash s).
Qed.

Lemma split_slash_plain (s : string) :
  Pathlib.rfind "/" s = None → Pathlib.split_slash s = [s].
Proof.
  induction s as [|c s IH]; [done|].
  intros [Hc Hs]%rfind_None_cons. simpl.
  rewrite decide_False by done. by rewrite IH.
Qed.

Lemma split_slash_app (a rest : string) :
  Pathlib.rfind "/" a = None →
  Pathlib.split_slash (a ++ "/" ++ rest) = a :: Pathlib.split_slash rest.
Proof.
  induction a as [|c a IH]; [done|].
  intros [Hc Ha]%rfind_None_cons. simpl.
  rewrite decide_False by done. by rewrite IH.
Qed.

Lemma split_slash_join (ps : list string) :
  ps ≠ [] → Forall (λ s, Pathlib.rfind "/" s = None) ps →
  Pathlib.split_slash (Pathlib.join "/" ps) = ps.
Proof.
  induction ps as [|a ps IH]; [done|]. intros _ Hall.
  apply Forall_cons in Hall as [Ha Hps].
  destruct ps as [|b ps]; [by apply split_slash_plain|].
  change (Pathlib.join "/" (a :: b :: ps)) with (a ++ "/" ++ Pathlib.join "/" (b :: ps)).
  rewrite split_slash_app by done. by rewrite IH.
Qed.

Lemma valid_name_no_sep (nm : string) :
  valid_name nm → Pathlib.rfind "/" nm = None.
Proof. by intros (_ & _ & _ & ?). Qed.

(** [str] is injective on the paths a real tree has. *)
Lemma str_inj (p q : list string) :
  p ≠ [] → q ≠ [] → Forall valid_name p → Forall valid_name q →
  Pathlib.str p = Pathlib.str q → p = q.
Proof.
  intros Hp Hq Vp Vq Heq.
  rewrite <- (split_slash_join p), <- (split_slash_join q); try done.
  - destruct p, q; try done. unfold Pathlib.str in Heq. by rewrite Heq.
  - eapply Forall_impl; [exact Vq | apply valid_name_no_sep].
  - eapply Forall_impl; [exact Vp | apply valid_name_no_sep].
Qed.

Lemma splitroot_relative (c : ascii) (s : string) :
  c ≠ "/"%char → Pathlib.splitroot (String c s) = ("", String c s).
Proof.
  intros Hc. unfold Pathlib.splitroot.
  destruct c as [[] [] [] [] [] [] [] []]; try done.
Qed.

Lemma join_head_char (a : string) (ps : list string) :
  valid_name a →
  ∃ c s, c ≠ "/"%char ∧ Pathlib.join "/" (a :: ps) = String c s.
Proof.
  intros (Hne & _ & _ & Hsep). destruct a as [|c a]; [done|].
  apply rfind_None_cons in Hsep as [Hc _].
  exists c. destruct ps; simpl; eauto.
Qed.

(** Parsing the string of a path gives its components back. *)
Lemma parts_str (p : list string) :
  Forall valid_name p → Pathlib.parts (Pathlib.str p) = p.
Proof.
  intros Vp. destruct p as [|a ps]; [done|].
  unfold Pathlib.str.
  destruct (join_head_char a ps) as (c & s & Hc & Hj).
  { by apply Forall_cons in Vp as [? _]. }
  unfold Pathlib.parts. rewrite Hj, splitroot_relative by done.
  rewrite <- Hj, split_slash_join; [| done |].
  - rewrite decide_True by done.
    clear Hj. induction Vp as [|x l Hx Hl IH]; [done|].
    rewrite filter_cons_True; [by rewrite IH|].
    destruct Hx as (? & ? & _); done.
  - eapply Forall_impl; [exact Vp | apply valid_name_no_sep].
Qed.

(** On the path of a walked file the section is the top-level directory. *)
Lemma determine_corpus_section_str (p : list string) :
  Forall valid_name p →
  determine_corpus_section (Pathlib.str p) =
    match p with
    | top :: _ :: _ => Some top
    | _ => None
    end.
Proof.
  intros Vp. unfold determine_corpus_section. rewrite parts_str by done.
  by destruct p as [|a [|b p]].
Qed.

(** ** The corpus tree *)

Local Open Scope list_scope.

(** Induction on trees, with the hypothesis for every entry of a
    directory. *)
Lemma node_ind_entries (P : node → Prop) :
  (∀ st data, P (Reg st data)) →
  (∀ es, Forall (λ e, P e.2) es → P (Dir es)) →
  ∀ n, P n.
Proof.
  intros HReg HDir. fix IH 1. intros [st data|es]; [apply HReg|].
  apply HDir. induction es as [|e es IHes]; constructor; [apply IH | apply IHes].
Qed.

Lemma wf_node_Dir (es : list (string * node)) :
  wf_node (Dir es) ↔
  NoDup (map fst es) ∧ Forall (λ e, valid_name e.1 ∧ wf_node e.2) es.
Proof.
  simpl. apply and_iff_compat_l.
  induction es as [|e es IH]; [by split; intros; constructor|].
  rewrite Forall_cons, <- IH. tauto.
Qed.

Lemma entry_Some_elem (nm : string) (es : list (string * node)) (c : node) :
  entry nm es = Some c → (nm, c) ∈ es.
Proof.
  induction es as [|[k c'] es IH]; simpl; [done|].
  destruct (decide (k = nm)) as [->|]; intros Heq.
  - injection Heq as ->. left.
  - right. auto.
Qed.

Lemma entry_NoDup (nm : string) (es : list (string * node)) (c : node) :
  NoDup (map fst es) → (nm, c) ∈ es → entry nm es = Some c.
Proof.
  induction es as [|[k c'] es IH]; simpl; [by intros _ ?%elem_of_nil|].
  intros [Hk Hes]%NoDup_cons [Heq|Hin]%elem_of_cons.
  - injection Heq as -> ->. by rewrite decide_True.
  - destruct (decide (k = nm)) as [->|]; [|auto].
    exfalso. apply Hk. apply list_elem_of_fmap. by exists (nm, c).
Qed.

Lemma elem_of_rglob_Dir (es : list (string * node)) (p : list string) (n : node) :
  (p, n) ∈ rglob (Dir es) ↔
  ∃ k c, (k, c) ∈ es ∧
         (p = [k] ∧ n = c ∨ ∃ q, p = k :: q ∧ (q, n) ∈ rglob c).
Proof.
  simpl. rewrite list_elem_of_In, in_flat_map. split.
  - intros ([k c] & Hin%list_elem_of_In & Hp). exists k, c. split; [done|].
    simpl in Hp. destruct Hp as [Hp|Hp].
    + left. by injection Hp as <- <-.
    + right. apply in_map_iff in Hp as ([q n'] & Heq & Hq). simpl in Heq.
      injection Heq as <- <-. exists q. by rewrite list_elem_of_In.
  - intros (k & c & Hin & Hp). exists (k, c). rewrite <- list_elem_of_In.
    split; [done|]. simpl. destruct Hp as [[-> ->]|(q & -> & Hq)]; [by left|].
    right. apply in_map_iff. exists (q, n). by rewrite <- list_elem_of_In.
Qed.

Lemma rglob_nonempty (n : node) (p : list string) (c : node) :
  (p, c) ∈ rglob n → p ≠ [].
Proof.
  destruct n as [st data|es]; [by intros ?%elem_of_nil|].
  rewrite elem_of_rglob_Dir.
  by intros (k & c0 & _ & [[-> _]|(q & -> & _)]).
Qed.

(** Under a well-formed directory, [rglob] lists exactly the paths that
    resolve, each with the node it resolves to. *)
Lemma rglob_lookup (n : node) :
  wf_node n → ∀ p c, (p, c) ∈ rglob n ↔ p ≠ [] ∧ fs_lookup n p = Some c.
Proof.
  induction n as [st data|es IH] using node_ind_entries; intros Hwf p c.
  - simpl. split; [by intros ?%elem_of_nil|]. intros [Hp Hl]. by destruct p.
  - apply wf_node_Dir in Hwf as [Hnd Hall].
    rewrite elem_of_rglob_Dir. split.
    + intros (k & c0 & Hin & Hp).
      pose proof (entry_NoDup _ _ _ Hnd Hin) as He.
      destruct Hp as [[-> ->]|(q & -> & Hq)]; simpl; rewrite He; [done|].
      rewrite Forall_forall in IH, Hall.
      apply (IH _ Hin) in Hq; [|by apply (Hall _ Hin)].
      by destruct Hq.
    + intros [Hp Hl]. destruct p as [|k q]; [done|]. simpl in Hl.
      destruct (entry k es) as [c0|] eqn:He; [|done]. simpl in Hl.
      apply entry_Some_elem in He. exists k, c0. split; [done|].
      destruct q as [|k' q]; [left; by injection Hl as ->|].
      right. exists (k' :: q). split; [done|].
      rewrite Forall_forall in IH, Hall.
      apply (IH _ He); [by apply (Hall _ He)|done].
Qed.

(** Every listed path is made of valid names. *)
Lemma rglob_valid (n : node) :
  wf_node n → ∀ p c, (p, c) ∈ rglob n → p ≠ [] ∧ Forall valid_name p.
Proof.
  induction n as [st data|es IH] using node_ind_entries; intros Hwf p c.
  - by intros ?%elem_of_nil.
  - apply wf_node_Dir in Hwf as [_ Hall].
    rewrite elem_of_rglob_Dir. intros (k & c0 & Hin & Hp).
    rewrite Forall_forall in IH, Hall.
    destruct (Hall _ Hin) as [Hk Hc0]. simpl in Hk, Hc0.
    destruct Hp as [[-> ->]|(q & -> & Hq)].
    { split; [done|]. by apply Forall_singleton. }
    apply (IH _ Hin Hc0) in Hq as [_ Hq].
    split; [done | by apply Forall_cons].
Qed.

(** No path is listed twice. *)
Lemma rglob_NoDup (n : node) : wf_node n → NoDup (map fst (rglob n)).
Proof.
  induction n as [st data|es IH] using node_ind_entries; intros Hwf.
  - constructor.
  - apply wf_node_Dir in Hwf as [Hnd Hall]. simpl.
    induction es as [|[k c] es IHes]; [constructor|].
    apply Forall_cons in IH as [IHc IHrest].
    apply Forall_cons in Hall as [[Hk Hc] Hall].
    apply NoDup_cons in Hnd as [Hkn Hnd].
    simpl. rewrite map_app. constructor.
    + rewrite elem_of_app. intros [Hin|Hin].
      * apply list_elem_of_fmap in Hin as ([q n'] & Heq & Hin).
        apply list_elem_of_fmap in Hin as ([q' n''] & Heq' & Hq').
        apply rglob_nonempty in Hq'.
        simpl in Heq, Heq'. by simplify_eq.
      * apply list_elem_of_fmap in Hin as ([q n'] & Heq & Hin). simpl in Heq.
        subst q. change (flat_map _ es) with (rglob (Dir es)) in Hin.
        apply elem_of_rglob_Dir in Hin as (k' & c' & Hin & Hp).
        apply Hkn. apply list_elem_of_fmap. exists (k', c'). split; [|done].
        destruct Hp as [[? _]|(q & ? & _)]; simpl; congruence.
    + apply NoDup_app. split; [|split].
      * rewrite map_map. simpl.
        rewrite <- (map_map fst (cons k)).
        apply (NoDup_fmap_2 (cons k)). by apply IHc.
      * intros q Hq1 Hq2.
        apply list_elem_of_fmap in Hq1 as ([q1 n1] & Heq1 & Hq1).
        apply list_elem_of_fmap in Hq1 as ([q1' n1'] & Heq1' & _).
        apply list_elem_of_fmap in Hq2 as ([q2 n2] & Heq2 & Hq2).
        change (flat_map _ es) with (rglob (Dir es)) in Hq2.
        apply elem_of_rglob_Dir in Hq2 as (k' & c' & Hin & Hp).
        apply Hkn. apply list_elem_of_fmap. exists (k', c'). split; [|done].
        simpl in Heq1, Heq1', Heq2. simplify_eq.
        destruct Hp as [[? _]|(q & ? & _)]; simpl; congruence.
      * by apply IHes.
Qed.

(** ** The walker *)

Global Arguments rglob : simpl never.
Global Arguments fs_lookup : simpl nomatch.

Section WalkerFacts.

Variable fnmatch : string → string → bool.
Variable lower : string → string.

Lemma should_skip_false (name : string) (skip_patterns : list string) :
  _should_skip fnmatch name skip_patterns = false ↔
  Forall (λ pattern, fnmatch name pattern = false) skip_patterns.
Proof.
  induction skip_patterns as [|pat rest IH]; simpl.
  - split; [constructor | done].
  - rewrite Forall_cons, <- IH. destruct (fnmatch name pat); [|tauto].
    split; [done | by intros [? _]].
Qed.

Lemma hidden_false (p : list string) :
  existsb (Pathlib.startswith ".") p = false ↔
  Forall (λ part, Pathlib.startswith "." part = false) p.
Proof.
  induction p as [|a p IH]; simpl.
  - split; [constructor | done].
  - rewrite Forall_cons, <- IH, orb_false_iff. done.
Qed.

Lemma walk_item_Some (skip exts : list string) (p : list string) (n : node)
    (m : Meta.t) :
  walk_item fnmatch lower skip exts (p, n) = Some m ↔
  ∃ stat data, n = Reg stat data ∧ eligible fnmatch lower skip exts p ∧
               m = record_of lower p stat.
Proof.
  unfold walk_item, eligible. destruct n as [stat data|es].
  - destruct (existsb _ p) eqn:Hh.
    { split; [done|]. intros (? & ? & _ & (Hp & _) & _).
      apply hidden_false in Hp. congruence. }
    apply hidden_false in Hh.
    destruct (_should_skip _ _ _) eqn:Hs.
    { split; [done|]. intros (? & ? & _ & (_ & Hp & _) & _).
      apply should_skip_false in Hp. congruence. }
    apply should_skip_false in Hs.
    case_bool_decide as He.
    + split.
      * intros [= <-]. by exists stat, data.
      * intros (stat' & data' & [= <- <-] & _ & ->). done.
    + split; [done|]. by intros (? & ? & _ & (_ & _ & ?) & _).
  - split; [done|]. by intros (? & ? & ? & _).
Qed.

Lemma walk_item_path (skip exts : list string) (it : list string * node)
    (m : Meta.t) :
  walk_item fnmatch lower skip exts it = Some m → Meta.absolute_path m = it.1.
Proof.
  destruct it as [p n]. intros (stat & data & _ & _ & ->)%walk_item_Some. done.
Qed.

(** The records of a walk are those of the eligible regular files below
    the root. *)
Lemma elem_of_walk_corpus (root : option node)
    (skip_patterns supported_extensions : option (list string)) (m : Meta.t) :
  wf_root root →
  m ∈ walk_corpus fnmatch lower root skip_patterns supported_extensions ↔
  ∃ p stat data,
    p ≠ [] ∧ (n ← root; fs_lookup n p) = Some (Reg stat data) ∧
    eligible fnmatch lower (default DEFAULT_SKIP_PATTERNS skip_patterns)
      (default DEFAULT_SUPPORTED_EXTENSIONS supported_extensions) p ∧
    m = record_of lower p stat.
Proof.
  intros Hwf. unfold walk_corpus. destruct root as [[st0 data0|es]|]; simpl.
  - split; [by intros ?%elem_of_nil|].
    intros (p & stat & data & Hp & Hl & _). by destruct p.
  - rewrite list_elem_of_omap. split.
    + intros ([p n] & Hin & Hm).
      unfold sorted in Hin. rewrite merge_sort_Permutation in Hin.
      apply rglob_lookup in Hin as [Hp Hl]; [|done].
      apply walk_item_Some in Hm as (stat & data & -> & He & ->).
      by exists p, stat, data.
    + intros (p & stat & data & Hp & Hl & He & ->).
      exists (p, Reg stat data). split.
      * unfold sorted. rewrite merge_sort_Permutation.
        by apply rglob_lookup.
      * apply walk_item_Some. by exists stat, data.
  - split; [by intros ?%elem_of_nil|]. by intros (p & stat & data & _ & ? & _).
Qed.

(** What a walked record says of its file. *)
Lemma walk_corpus_record (root : option node)
    (skip_patterns supported_extensions : option (list string)) (m : Meta.t) :
  wf_root root →
  m ∈ walk_corpus fnmatch lower root skip_patterns supported_extensions →
  Meta.absolute_path m ≠ [] ∧
  Forall valid_name (Meta.absolute_path m) ∧
  Meta.file_path m = Pathlib.str (Meta.absolute_path m).
Proof.
  intros Hwf (p & stat & data & Hp & Hl & _ & ->)%elem_of_walk_corpus; [|done].
  split; [done|]. split; [|done]. simpl.
  destruct root as [n|]; [|done]. simpl in Hl.
  eapply (rglob_valid n); [done|]. apply rglob_lookup; [done|]. by split.
Qed.

(** The records come out in the order of their paths. *)
Lemma walk_corpus_sorted (root : option node)
    (skip_patterns supported_extensions : option (list string)) :
  StronglySorted record_le
    (walk_corpus fnmatch lower root skip_patterns supported_extensions).
Proof.
  unfold walk_corpus. destruct root as [[st0 data0|es]|]; try constructor.
  set (f := walk_item _ _ _ _).
  assert (Hs : StronglySorted item_le (sorted (rglob (Dir es)))).
  { apply StronglySorted_merge_sort; apply _. }
  induction Hs as [|it l Hs IH Hall]; simpl; [constructor|].
  destruct (f it) as [m|] eqn:Hm; [|done].
  constructor; [done|].
  apply Forall_forall. intros m' ([p' n'] & Hin & Hm')%list_elem_of_omap.
  rewrite Forall_forall in Hall. specialize (Hall _ Hin).
  unfold record_le. apply walk_item_path in Hm, Hm'. by rewrite Hm, Hm'.
Qed.

(** No path is yielded twice. *)
Lemma walk_corpus_NoDup_abs (root : option node)
    (skip_patterns supported_extensions : option (list string)) :
  wf_root root →
  NoDup (map Meta.absolute_path
           (walk_corpus fnmatch lower root skip_patterns supported_extensions)).
Proof.
  intros Hwf. unfold walk_corpus. destruct root as [[st0 data0|es]|]; try constructor.
  set (f := walk_item _ _ _ _).
  assert (Hnd : NoDup (map fst (sorted (rglob (Dir es))))).
  { unfold sorted. change (map fst ?l) with (fst <$> l).
    rewrite merge_sort_Permutation. by apply rglob_NoDup. }
  induction (sorted (rglob (Dir es))) as [|it l IH]; simpl; [constructor|].
  apply NoDup_cons in Hnd as [Hit Hnd].
  destruct (f it) as [m|] eqn:Hm; [|auto].
  simpl. constructor; [|auto].
  intros (m' & Heq & ([p' n'] & Hin & Hm')%list_elem_of_omap)%list_elem_of_fmap.
  apply walk_item_path in Hm, Hm'. apply Hit.
  apply list_elem_of_fmap. exists (p', n'). split; [|done]. congruence.
Qed.

Lemma walk_corpus_NoDup (root : option node)
    (skip_patterns supported_extensions : option (list string)) :
  wf_root root →
  NoDup (map Meta.file_path
           (walk_corpus fnmatch lower root skip_patterns supported_extensions)).
Proof.
  intros Hwf.
  pose proof (walk_corpus_NoDup_abs root skip_patterns supported_extensions Hwf) as Hnd.
  apply NoDup_fmap_1 in Hnd as Hnd0.
  apply NoDup_fmap_2_strong; [|done].
  intros m1 m2 H1 H2 Heq.
  destruct (walk_corpus_record _ _ _ _ Hwf H1) as (N1 & V1 & E1).
  destruct (walk_corpus_record _ _ _ _ Hwf H2) as (N2 & V2 & E2).
  rewrite E1, E2 in Heq. apply str_inj in Heq; try done.
  apply elem_of_walk_corpus in H1 as (p1 & s1 & d1 & _ & L1 & _ & ->); [|done].
  apply elem_of_walk_corpus in H2 as (p2 & s2 & d2 & _ & L2 & _ & ->); [|done].
  simpl in Heq. subst p2. rewrite L1 in L2. by injection L2 as -> _.
Qed.

End WalkerFacts.

(** ** The session *)

Lemma lookup_incr (key k : string) (stats : gmap string nat) :
  incr key stats !! k =
  if decide (key = k) then S <$> stats !! k else stats !! k.
Proof.
  unfold incr. rewrite lookup_alter. by destruct (decide (key = k)) as [->|].
Qed.

Lemma query_first_Some (db : list File.t) (s : string) (r : File.t) :
  query_first db s = Some r → r ∈ db ∧ File.file_path r = s.
Proof.
  unfold query_first. intros [Hin Hp]%find_some.
  apply list_elem_of_In in Hin. by apply bool_decide_eq_true in Hp.
Qed.

Lemma query_first_None (db : list File.t) (s : string) :
  query_first db s = None ↔ s ∉ paths db.
Proof.
  unfold query_first, paths. induction db as [|x db IH]; simpl.
  - split; [by intros _ ?%elem_of_nil | done].
  - rewrite not_elem_of_cons. case_bool_decide as Hx.
    + split; [done|]. by intros [? _].
    + rewrite IH. split; [by split | by intros [_ ?]].
Qed.

Lemma query_first_elem (db : list File.t) (r : File.t) :
  NoDup (paths db) → r ∈ db → query_first db (File.file_path r) = Some r.
Proof.
  unfold query_first, paths. induction db as [|x db IH]; simpl.
  - by intros _ ?%elem_of_nil.
  - intros [Hx Hnd]%NoDup_cons [->|Hin]%elem_of_cons.
    + by rewrite bool_decide_eq_true_2.
    + rewrite bool_decide_eq_false_2; [auto|].
      intros Heq. apply Hx. rewrite Heq. apply list_elem_of_fmap. by exists r.
Qed.

Lemma query_first_app (db tail : list File.t) (s : string) :
  query_first (db ++ tail) s =
  match query_first db s with
  | Some r => Some r
  | None => query_first tail s
  end.
Proof.
  unfold query_first. induction db as [|x db IH]; simpl; [done|].
  by case_bool_decide.
Qed.

Lemma fresh_id_fresh (db : list File.t) : fresh_id db ∉ map File.id db.
Proof. apply max_list_not_elem_of_gt. unfold fresh_id. lia. Qed.

Lemma session_store_ids (db : list File.t) (r : File.t) :
  map File.id (session_store db r) = map File.id db.
Proof.
  unfold session_store. induction db as [|x db IH]; simpl; [done|].
  rewrite IH. by destruct (decide _) as [->|].
Qed.

Lemma session_store_paths (db : list File.t) (r existing : File.t) :
  NoDup (map File.id db) → existing ∈ db →
  File.id r = File.id existing → File.file_path r = File.file_path existing →
  paths (session_store db r) = paths db.
Proof.
  unfold session_store, paths. intros Hnd Hex Hid Hp.
  apply list_eq_same_length with (length db); rewrite ?length_map; try done.
  intros i a b _. rewrite !list_lookup_fmap.
  destruct (db !! i) as [x|] eqn:Hx; simpl; [|done].
  intros [= <-] [= <-]. destruct (decide _) as [Heq|]; [|done].
  rewrite Hp. f_equal.
  apply list_elem_of_lookup in Hex as [j Hj].
  assert (i = j) as ->; [|congruence].
  eapply NoDup_lookup; [exact Hnd| |]; rewrite list_lookup_fmap.
  - by rewrite Hx.
  - rewrite Hj. simpl. congruence.
Qed.

(** A stored row is the only one that changes. *)
Lemma session_store_other (db : list File.t) (r x : File.t) :
  x ∈ db → File.id x ≠ File.id r → x ∈ session_store db r.
Proof.
  intros Hx Hne. unfold session_store. apply list_elem_of_fmap.
  exists x. by rewrite decide_False.
Qed.

Lemma session_store_elem (db : list File.t) (r x : File.t) :
  x ∈ session_store db r → x = r ∨ (x ∈ db ∧ File.id x ≠ File.id r).
Proof.
  unfold session_store. intros (y & -> & Hy)%list_elem_of_fmap.
  destruct (decide _); [by left | by right].
Qed.

Lemma query_first_store_other (db : list File.t) (r : File.t) (s : string) :
  (∀ x, x ∈ db → File.id x = File.id r → File.file_path x ≠ s) →
  File.file_path r ≠ s →
  query_first (session_store db r) s = query_first db s.
Proof.
  unfold query_first, session_store. intros Hdb Hr.
  induction db as [|x db IH]; simpl; [done|].
  rewrite IH by (intros; apply Hdb; [by right | done]).
  destruct (decide (File.id x = File.id r)) as [Hid|Hid]; [|done].
  rewrite !bool_decide_eq_false_2; [done| |done].
  apply Hdb; [left | done].
Qed.

Lemma query_first_store_same (db : list File.t) (r existing : File.t) (s : string) :
  NoDup (map File.id db) → query_first db s = Some existing →
  File.id r = File.id existing → File.file_path r = s →
  query_first (session_store db r) s = Some r.
Proof.
  unfold query_first, session_store. intros Hnd Hq Hid Hp.
  induction db as [|x db IH]; simpl in *; [done|].
  apply NoDup_cons in Hnd as [Hx Hnd].
  case_bool_decide as Hxs.
  - injection Hq as ->. rewrite decide_True by done.
    by rewrite bool_decide_eq_true_2.
  - destruct (decide (File.id x = File.id r)) as [Heq|Hne].
    + exfalso. apply Hx. apply find_some in Hq as [Hin _].
      apply list_elem_of_In in Hin. apply list_elem_of_fmap.
      exists existing. split; [congruence | done].
    + rewrite bool_decide_eq_false_2 by done. auto.
Qed.

Lemma session_delete_filter (db : list File.t) (record : File.t) :
  session_delete db record = filter (λ x, File.id x ≠ File.id record) db.
Proof. done. Qed.

Lemma filter_ext_elem {A} (P Q : A → Prop) `{∀ x, Decision (P x)}
    `{∀ x, Decision (Q x)} (l : list A) :
  (∀ x, x ∈ l → P x ↔ Q x) → filter P l = filter Q l.
Proof.
  induction l as [|a l IH]; intros Hext; [done|].
  rewrite !filter_cons, IH by (intros; apply Hext; by right).
  destruct (decide (P a)) as [Hp|Hp], (decide (Q a)) as [Hq|Hq]; try done.
  - exfalso. apply Hq, Hext; [left | done].
  - exfalso. apply Hp, Hext; [left | done].
Qed.

Lemma filter_all {A} (P : A → Prop) `{∀ x, Decision (P x)} (l : list A) :
  (∀ x, x ∈ l → P x) → filter P l = l.
Proof.
  induction l as [|a l IH]; intros Hall; [done|].
  rewrite filter_cons_True by (apply Hall; left).
  rewrite IH; [done|]. intros; apply Hall; by right.
Qed.

Lemma filter_none {A} (P : A → Prop) `{∀ x, Decision (P x)} (l : list A) :
  (∀ x, x ∈ l → ¬ P x) → filter P l = [].
Proof.
  induction l as [|a l IH]; intros Hall; [done|].
  rewrite filter_cons_False by (apply Hall; left).
  apply IH. intros; apply Hall; by right.
Qed.

Lemma NoDup_fmap_inj {A B} (f : A → B) (l : list A) (x y : A) :
  NoDup (map f l) → x ∈ l → y ∈ l → f x = f y → x = y.
Proof.
  intros Hnd [i Hi]%list_elem_of_lookup [j Hj]%list_elem_of_lookup Heq.
  assert (i = j) as ->; [|congruence].
  eapply NoDup_lookup; [exact Hnd| |]; rewrite list_lookup_fmap.
  - by rewrite Hi.
  - rewrite Hj. simpl. congruence.
Qed.

Lemma ids_inj (db : list File.t) (x y : File.t) :
  NoDup (map File.id db) → x ∈ db → y ∈ db → File.id x = File.id y → x = y.
Proof.
  intros Hnd [i Hi]%list_elem_of_lookup [j Hj]%list_elem_of_lookup Heq.
  assert (i = j) as ->; [|congruence].
  eapply NoDup_lookup; [exact Hnd| |]; rewrite list_lookup_fmap.
  - by rewrite Hi.
  - rewrite Hj. simpl. congruence.
Qed.

Lemma session_store_filter (P : File.t → Prop) `{∀ x, Decision (P x)}
    (db : list File.t) (r : File.t) :
  ¬ P r → (∀ x, x ∈ db → File.id x = File.id r → ¬ P x) →
  filter P (session_store db r) = filter P db.
Proof.
  unfold session_store. intros Hr Hdb.
  induction db as [|x db IH]; simpl; [done|].
  rewrite !filter_cons.
  rewrite IH by (intros; apply Hdb; [by right | done]).
  destruct (decide (File.id x = File.id r)) as [Hid|Hid]; [|done].
  rewrite decide_False by done.
  rewrite decide_False; [done|]. apply Hdb; [left | done].
Qed.

(** ** One turn of the loop *)

Section ReconcileFacts.

Variable sha256 : string → string.
Variable clock : nat → Z.

Local Abbreviation rc := (reconcile sha256 clock).
Local Abbreviation cl := (classify sha256).

Lemma reconcile_stats (root : option node) (w : Work) (m : Meta.t) :
  stats (rc root w m) =
  match outcome_key (cl root (rows w) m) with
  | Some key => incr key (stats w)
  | None => stats w
  end.
Proof.
  unfold reconcile, classify.
  destruct (compute_file_hash _ _ _) as [h|]; [|done].
  destruct (query_first _ _) as [existing|]; [|done].
  by destruct (decide _).
Qed.

Lemma reconcile_rows_same (root : option node) (w : Work) (m : Meta.t) :
  cl root (rows w) m = Failed ∨ cl root (rows w) m = Unchanged →
  rows (rc root w m) = rows w ∧ ticks (rc root w m) = ticks w.
Proof.
  unfold reconcile, classify.
  destruct (compute_file_hash _ _ _) as [h|]; [|done].
  destruct (query_first _ _) as [existing|]; [|by intros [|]].
  destruct (decide _); [done | by intros [|]].
Qed.

Lemma reconcile_paths (root : option node) (w : Work) (m : Meta.t) :
  NoDup (map File.id (rows w)) →
  paths (rows (rc root w m)) =
  (paths (rows w) ++
    (if decide (cl root (rows w) m = New) then [Meta.file_path m] else []))%list.
Proof.
  intros Hnd. unfold reconcile, classify.
  destruct (compute_file_hash _ _ _) as [h|]; [|by rewrite app_nil_r].
  destruct (query_first _ _) as [existing|] eqn:Hq; simpl.
  - apply query_first_Some in Hq as [Hin Hp].
    destruct (decide (File.file_hash existing = _)); simpl;
      rewrite app_nil_r; [done|].
    by eapply session_store_paths.
  - unfold session_add, paths. by rewrite map_app.
Qed.

Lemma reconcile_ids (root : option node) (w : Work) (m : Meta.t) :
  map File.id (rows (rc root w m)) =
  (map File.id (rows w) ++
    (if decide (cl root (rows w) m = New) then [fresh_id (rows w)] else []))%list.
Proof.
  unfold reconcile, classify.
  destruct (compute_file_hash _ _ _) as [h|]; [|by rewrite app_nil_r].
  destruct (query_first _ _) as [existing|] eqn:Hq; simpl.
  - destruct (decide (File.file_hash existing = _)); simpl;
      rewrite app_nil_r; [done|].
    apply session_store_ids.
  - unfold session_add. by rewrite map_app.
Qed.

Lemma classify_New (root : option node) (db : list File.t) (m : Meta.t) :
  cl root db m = New → Meta.file_path m ∉ paths db.
Proof.
  unfold classify. destruct (compute_file_hash _ _ _); [|done].
  destruct (query_first _ _) eqn:Hq; [by destruct (decide _)|].
  intros _. by apply query_first_None.
Qed.

(** The constraints of the table survive a turn. *)
Lemma reconcile_catalog_ok (root : option node) (w : Work) (m : Meta.t) :
  catalog_ok (rows w) → catalog_ok (rows (rc root w m)).
Proof.
  intros [Hid Hp]. unfold catalog_ok.
  fold (paths (rows (rc root w m))).
  rewrite reconcile_ids, reconcile_paths by done.
  destruct (decide _) as [Hnew|]; [|by rewrite !app_nil_r].
  split; apply NoDup_app; (split; [done|]); (split; [|apply NoDup_singleton]).
  - intros x Hx ->%list_elem_of_singleton. by apply (fresh_id_fresh (rows w)).
  - intros x Hx ->%list_elem_of_singleton. by apply classify_New in Hnew.
Qed.

(** A turn only concerns the path of its record. *)
Lemma reconcile_query_other (root : option node) (w : Work) (m : Meta.t)
    (s : string) :
  NoDup (map File.id (rows w)) → s ≠ Meta.file_path m →
  query_first (rows (rc root w m)) s = query_first (rows w) s.
Proof.
  intros Hnd Hs. unfold reconcile.
  destruct (compute_file_hash _ _ _) as [h|]; [|done].
  destruct (query_first (rows w) (Meta.file_path m)) as [existing|] eqn:Hq; simpl.
  - destruct (decide _); [done|]. simpl.
    apply query_first_Some in Hq as [Hin Hp].
    apply query_first_store_other; simpl; [|congruence].
    intros x Hx Hid. rewrite (ids_inj _ x existing Hnd Hx Hin Hid). congruence.
  - unfold session_add. rewrite query_first_app.
    destruct (query_first (rows w) s); [done|].
    unfold query_first. simpl. by rewrite bool_decide_eq_false_2.
Qed.

Lemma reconcile_frame (root : option node) (w : Work) (m : Meta.t) (r : File.t) :
  NoDup (map File.id (rows w)) → r ∈ rows w →
  File.file_path r ≠ Meta.file_path m →
  r ∈ rows (rc root w m).
Proof.
  intros Hnd Hr Hp. unfold reconcile.
  destruct (compute_file_hash _ _ _) as [h|]; [|done].
  destruct (query_first (rows w) (Meta.file_path m)) as [existing|] eqn:Hq; simpl.
  - destruct (decide _); [done|]. simpl.
    apply query_first_Some in Hq as [Hin Hpe].
    apply session_store_other; [done|]. simpl. intros Hid.
    rewrite (ids_inj _ r existing Hnd Hr Hin Hid) in Hp. congruence.
  - unfold session_add. apply elem_of_app. by left.
Qed.

(** After a turn whose fingerprint succeeded, the entry of the path holds
    that fingerprint. *)
Lemma reconcile_query_same (root : option node) (w : Work) (m : Meta.t)
    (h : string) :
  NoDup (map File.id (rows w)) →
  compute_file_hash sha256 root (Meta.absolute_path m) = Some h →
  ∃ r, query_first (rows (rc root w m)) (Meta.file_path m) = Some r ∧
       File.file_hash r = Some h.
Proof.
  intros Hnd Hh. unfold reconcile. rewrite Hh.
  destruct (query_first (rows w) (Meta.file_path m)) as [existing|] eqn:Hq; simpl.
  - destruct (decide _) as [He|He]; simpl; [by exists existing|].
    pose proof Hq as [_ Hp]%query_first_Some.
    eexists. split; [by eapply query_first_store_same | done].
  - eexists. split.
    + unfold session_add. rewrite query_first_app, Hq.
      unfold query_first. simpl. rewrite bool_decide_eq_true_2; done.
    + done.
Qed.

(** Rows of paths outside a set that contains the record's path are left
    as they are, in place. *)
Lemma reconcile_filter (root : option node) (w : Work) (m : Meta.t)
    (P : File.t → Prop) `{∀ x, Decision (P x)} :
  NoDup (map File.id (rows w)) →
  (∀ x, File.file_path x = Meta.file_path m → ¬ P x) →
  filter P (rows (rc root w m)) = filter P (rows w).
Proof.
  intros Hnd HP. unfold reconcile.
  destruct (compute_file_hash _ _ _) as [h|]; [|done].
  destruct (query_first (rows w) (Meta.file_path m)) as [existing|] eqn:Hq; simpl.
  - destruct (decide _); [done|]. simpl.
    apply query_first_Some in Hq as [Hin Hpe].
    apply session_store_filter.
    + by apply HP.
    + intros x Hx Hid. simpl in Hid.
      rewrite (ids_inj _ x existing Hnd Hx Hin Hid). by apply HP.
  - unfold session_add. rewrite filter_app, filter_cons_False, filter_nil.
    + by rewrite app_nil_r.
    + by apply HP.
Qed.

End ReconcileFacts.

(** ** The walking loop *)

Section LoopFacts.

Variable sha256 : string → string.
Variable clock : nat → Z.

Local Abbreviation rc := (reconcile sha256 clock).
Local Abbreviation cl := (classify sha256).
Local Abbreviation rstep := (reindex_step sha256 clock).
Local Abbreviation istep := (index_step sha256 clock).
Local Abbreviation hash := (compute_file_hash sha256).

(** The walking loop of [index_corpus] does to the session what the loop of
    [reindex_changed] does, and collects the paths it meets. *)
Lemma index_loop_reindex_loop (root : option node) (l : list Meta.t)
    (w : Work) (seen : gset string) :
  foldl (istep root) (w, seen) l =
  (foldl (rstep root) w l, list_to_set (map Meta.file_path l) ∪ seen).
Proof.
  revert w seen. induction l as [|m l IH]; intros w seen; simpl.
  - f_equal. set_solver.
  - rewrite IH. f_equal. set_solver.
Qed.

Lemma classify_ext (root : option node) (db1 db2 : list File.t) (m : Meta.t) :
  query_first db1 (Meta.file_path m) = query_first db2 (Meta.file_path m) →
  cl root db1 m = cl root db2 m.
Proof. unfold classify. by intros ->. Qed.

Lemma classify_hash (root : option node) (db : list File.t) (m : Meta.t) :
  cl root db m = Failed ↔ hash root (Meta.absolute_path m) = None.
Proof.
  unfold classify. destruct (hash _ _); [|done].
  destruct (query_first _ _); [|done]. by destruct (decide _).
Qed.

Lemma reindex_step_rows (root : option node) (w : Work) (m : Meta.t) :
  rows (rstep root w m) =
  rows (rc root w m) ∧
  ticks (rstep root w m) = ticks (rc root w m).
Proof.
  unfold reindex_step, reconcile.
  simpl. destruct (hash _ _); [|done].
  destruct (query_first _ _); [|done]. by destruct (decide _).
Qed.

Lemma reindex_step_stats (root : option node) (w : Work) (m : Meta.t)
    (k : string) :
  stats (rstep root w m) !! k =
  (λ x, x + if decide (k = "total" ∨
                       outcome_key (cl root (rows w) m) = Some k)
            then 1 else 0)%nat <$> stats w !! k.
Proof.
  unfold reindex_step. rewrite reconcile_stats. simpl.
  assert (Hid : ∀ o : option nat, o = (λ x, x + 0)%nat <$> o).
  { intros [x|]; simpl; [f_equal; lia | done]. }
  assert (HS : ∀ o : option nat, S <$> o = (λ x, x + 1)%nat <$> o).
  { intros [x|]; simpl; [f_equal; lia | done]. }
  destruct (cl root (rows w) m); simpl;
    rewrite ?lookup_incr;
    repeat (destruct (decide (_ = k)) as [<-|]); simpl;
    try rewrite lookup_incr; simpl;
    repeat case_decide; try done; try (exfalso; naive_solver);
    auto using Hid, HS.
Qed.

Lemma loop_catalog_ok (root : option node) (l : list Meta.t) (w : Work) :
  catalog_ok (rows w) → catalog_ok (rows (foldl (rstep root) w l)).
Proof.
  revert w. induction l as [|m l IH]; intros w Hok; simpl; [done|].
  apply IH. destruct (reindex_step_rows root w m) as [-> _].
  by apply reconcile_catalog_ok.
Qed.

Lemma loop_query_other (root : option node) (l : list Meta.t) (w : Work)
    (s : string) :
  catalog_ok (rows w) → s ∉ map Meta.file_path l →
  query_first (rows (foldl (rstep root) w l)) s = query_first (rows w) s.
Proof.
  revert w. induction l as [|m l IH]; intros w Hok Hs; simpl; [done|].
  simpl in Hs. apply not_elem_of_cons in Hs as [Hm Hl].
  destruct (reindex_step_rows root w m) as [Hr _].
  rewrite IH; [| rewrite Hr; by apply reconcile_catalog_ok | done].
  rewrite Hr. apply reconcile_query_other; [apply Hok | done].
Qed.

Lemma loop_rows_same (root : option node) (l : list Meta.t) (w : Work) :
  (∀ m, m ∈ l →
     cl root (rows w) m = Failed ∨ cl root (rows w) m = Unchanged) →
  rows (foldl (rstep root) w l) = rows w ∧
  ticks (foldl (rstep root) w l) = ticks w.
Proof.
  revert w. induction l as [|m l IH]; intros w Hall; simpl; [done|].
  destruct (reindex_step_rows root w m) as [Hr Ht].
  destruct (reconcile_rows_same sha256 clock root w m) as [Hr' Ht'].
  { apply Hall. left. }
  destruct (IH (rstep root w m)) as [-> ->].
  - intros m' Hm'. rewrite Hr, Hr'. apply Hall. by right.
  - by rewrite Hr, Hr', Ht, Ht'.
Qed.

Lemma loop_frame (root : option node) (l : list Meta.t) (w : Work) (r : File.t) :
  catalog_ok (rows w) → r ∈ rows w →
  (∀ m, m ∈ l → Meta.file_path m = File.file_path r →
     cl root (rows w) m = Failed ∨ cl root (rows w) m = Unchanged) →
  r ∈ rows (foldl (rstep root) w l).
Proof.
  revert w. induction l as [|m l IH]; intros w Hok Hr Hall; simpl; [done|].
  destruct (reindex_step_rows root w m) as [Hrows _].
  assert (Hok' : catalog_ok (rows (rstep root w m))).
  { rewrite Hrows. by apply reconcile_catalog_ok. }
  destruct (decide (Meta.file_path m = File.file_path r)) as [Heq|Hne].
  - destruct (reconcile_rows_same sha256 clock root w m) as [Hr' _].
    { apply Hall; [left | done]. }
    apply IH; [done | by rewrite Hrows, Hr' |].
    intros m' Hm' Hp. rewrite Hrows, Hr'. apply Hall; [by right | done].
  - apply IH; [done | |].
    + rewrite Hrows. apply reconcile_frame; [apply Hok | done | done].
    + intros m' Hm' Hp.
      rewrite (classify_ext root _ (rows w)); [apply Hall; [by right | done]|].
      rewrite Hrows. apply reconcile_query_other; [apply Hok | congruence].
Qed.

Lemma loop_query_same (root : option node) (l : list Meta.t) (w : Work)
    (m : Meta.t) (h : string) :
  NoDup (map Meta.file_path l) → catalog_ok (rows w) → m ∈ l →
  hash root (Meta.absolute_path m) = Some h →
  ∃ r, query_first (rows (foldl (rstep root) w l)) (Meta.file_path m)
         = Some r ∧ File.file_hash r = Some h.
Proof.
  revert w. induction l as [|m0 l IH]; intros w Hnd Hok Hm Hh; simpl.
  { by apply elem_of_nil in Hm. }
  simpl in Hnd. apply NoDup_cons in Hnd as [Hm0 Hnd].
  destruct (reindex_step_rows root w m0) as [Hrows _].
  assert (Hok' : catalog_ok (rows (rstep root w m0))).
  { rewrite Hrows. by apply reconcile_catalog_ok. }
  apply elem_of_cons in Hm as [->|Hm]; [|by apply IH].
  rewrite loop_query_other by done. rewrite Hrows.
  apply reconcile_query_same; [apply Hok | done].
Qed.

Lemma loop_paths (root : option node) (l : list Meta.t) (w : Work) (s : string) :
  catalog_ok (rows w) →
  s ∈ paths (rows (foldl (rstep root) w l)) ↔
  s ∈ paths (rows w) ∨
  ∃ m, m ∈ l ∧ Meta.file_path m = s ∧ is_Some (hash root (Meta.absolute_path m)).
Proof.
  revert w. induction l as [|m l IH]; intros w Hok; simpl.
  { split; [by left|]. intros [?|(m & ?%elem_of_nil & _)]; done. }
  destruct (reindex_step_rows root w m) as [Hrows _].
  rewrite IH by (rewrite Hrows; by apply reconcile_catalog_ok).
  rewrite Hrows, reconcile_paths by apply Hok.
  rewrite elem_of_app. split.
  - intros [[Hs|Hs]|(m' & Hm' & Hp & Hh)].
    + by left.
    + destruct (decide _) as [Hnew|]; [|by apply elem_of_nil in Hs].
      apply list_elem_of_singleton in Hs as ->. right. exists m.
      split; [left|]. split; [done|].
      destruct (hash root (Meta.absolute_path m)) eqn:E; [done|].
      apply (proj2 (classify_hash root (rows w) m)) in E. congruence.
    + right. exists m'. split; [by right | done].
  - intros [Hs|(m' & [->|Hm']%elem_of_cons & Hp & Hh)].
    + by left; left.
    + left. destruct (decide _) as [Hnew|Hnew].
      * right. rewrite Hp. left.
      * left. subst s. apply dec_stable. intros Hnot%query_first_None.
        apply Hnew. unfold classify.
        destruct Hh as [h ->]. by rewrite Hnot.
    + right. by exists m'.
Qed.

Lemma loop_filter (root : option node) (l : list Meta.t) (w : Work)
    (P : File.t → Prop) `{∀ x, Decision (P x)} :
  catalog_ok (rows w) →
  (∀ m x, m ∈ l → File.file_path x = Meta.file_path m → ¬ P x) →
  filter P (rows (foldl (rstep root) w l)) = filter P (rows w).
Proof.
  revert w. induction l as [|m l IH]; intros w Hok HP; simpl; [done|].
  destruct (reindex_step_rows root w m) as [Hrows _].
  rewrite IH.
  - rewrite Hrows. apply reconcile_filter; [apply Hok|].
    intros x. apply HP. left.
  - rewrite Hrows. by apply reconcile_catalog_ok.
  - intros m' x Hm'. apply HP. by right.
Qed.

Lemma loop_stats (root : option node) (l : list Meta.t) (w : Work) (k : string) :
  NoDup (map Meta.file_path l) → catalog_ok (rows w) →
  stats (foldl (rstep root) w l) !! k =
  (λ x, x + gain sha256 root (rows w) l k)%nat <$> stats w !! k.
Proof.
  revert w. induction l as [|m l IH]; intros w Hnd Hok; simpl.
  { unfold gain. simpl. destruct (stats w !! k); simpl; [f_equal; lia | done]. }
  simpl in Hnd. apply NoDup_cons in Hnd as [Hm Hnd].
  destruct (reindex_step_rows root w m) as [Hrows _].
  rewrite IH; [| done | rewrite Hrows; by apply reconcile_catalog_ok].
  rewrite reindex_step_stats, <- option_fmap_compose.
  assert (Hg : gain sha256 root (rows (rstep root w m)) l k
               = gain sha256 root (rows w) l k).
  { unfold gain. f_equal. apply filter_ext_elem. intros m' Hm'.
    rewrite (classify_ext root _ (rows w)); [done|].
    rewrite Hrows. apply reconcile_query_other; [apply Hok|].
    intros Heq. apply Hm. rewrite <- Heq. apply list_elem_of_fmap. by exists m'. }
  rewrite Hg. unfold gain at 2. rewrite filter_cons.
  destruct (stats w !! k) as [x|]; simpl; [|done]. f_equal.
  unfold gain. destruct (decide _); simpl; lia.
Qed.

End LoopFacts.

(** ** The deletion loop *)

Section DeleteFacts.

Variable seen : gset string.

Lemma delete_loop_rows (l : list File.t) (w : Work) :
  rows (foldl (delete_step seen) w l) =
  filter (λ x, File.id x ∉ map File.id (filter (λ r, File.file_path r ∉ seen) l))
    (rows w).
Proof.
  revert w. induction l as [|r l IH]; intros w; simpl.
  { symmetry. apply filter_all. intros x _. apply not_elem_of_nil. }
  rewrite IH. unfold delete_step. rewrite filter_cons.
  destruct (decide (File.file_path r ∈ seen)) as [Hs|Hs].
  - by rewrite decide_False by tauto.
  - rewrite decide_True by done. simpl. rewrite session_delete_filter.
    rewrite list_filter_filter. apply list_filter_iff. intros x.
    rewrite not_elem_of_cons. tauto.
Qed.

Lemma delete_loop_ticks (l : list File.t) (w : Work) :
  ticks (foldl (delete_step seen) w l) = ticks w.
Proof.
  revert w. induction l as [|r l IH]; intros w; simpl; [done|].
  rewrite IH. unfold delete_step. by destruct (decide _).
Qed.

Lemma delete_loop_stats (l : list File.t) (w : Work) (k : string) :
  stats (foldl (delete_step seen) w l) !! k =
  (λ x, x + if decide (k = "deleted")
            then length (filter (λ r, File.file_path r ∉ seen) l) else 0)%nat
    <$> stats w !! k.
Proof.
  revert w. induction l as [|r l IH]; intros w; simpl.
  { destruct (stats w !! k); simpl; [f_equal|done]. destruct (decide _); lia. }
  rewrite IH. unfold delete_step. rewrite filter_cons.
  destruct (decide (File.file_path r ∈ seen)) as [Hs|Hs];
    destruct (decide (File.file_path r ∉ seen)) as [Hn|Hn]; try done.
  simpl. rewrite lookup_incr.
  destruct (decide ("deleted" = k)) as [<-|Hk].
  - rewrite decide_True by done.
    destruct (stats w !! "deleted"); simpl; [f_equal; lia | done].
  - destruct (decide (k = "deleted")) as [->|]; [done|].
    destruct (stats w !! k); simpl; [f_equal; lia | done].
Qed.

(** Run over all the rows, the loop keeps those whose path was seen. *)
Lemma delete_all_rows (w : Work) :
  NoDup (map File.id (rows w)) →
  rows (foldl (delete_step seen) w (rows w)) =
  filter (λ r, File.file_path r ∈ seen) (rows w).
Proof.
  intros Hnd. rewrite delete_loop_rows. apply filter_ext_elem. intros x Hx.
  split.
  - intros Hid. apply dec_stable. intros Hs. apply Hid.
    apply list_elem_of_fmap. exists x. split; [done|].
    by apply list_elem_of_filter.
  - intros Hs (y & Hid & [Hy Hin]%list_elem_of_filter)%list_elem_of_fmap.
    by rewrite (ids_inj _ x y Hnd Hx Hin Hid) in Hs.
Qed.

End DeleteFacts.

(** ** Whole runs *)

Section RunFacts.

Variable fnmatch : string → string → bool.
Variable lower : string → string.
Variable sha256 : string → string.
Variable clock : nat → Z.

Local Abbreviation walk := (walk_corpus fnmatch lower).
Local Abbreviation rstep := (reindex_step sha256 clock).
Local Abbreviation hash := (compute_file_hash sha256).

(** [index_corpus] is its walking loop followed by its deletion loop over
    the paths of the walk. *)
Lemma index_walk_unfold (root : option node) (db : list File.t) (t0 : nat)
    (skip exts : option (list string)) :
  index_walk fnmatch lower sha256 clock root db t0 skip exts =
  let l := walk root skip exts in
  (foldl (rstep root) (mkWork db full_stats0 t0) l,
   list_to_set (map Meta.file_path l)).
Proof.
  unfold index_walk. rewrite index_loop_reindex_loop. simpl.
  by rewrite (right_id_L ∅ (∪)).
Qed.

Lemma index_corpus_unfold (root : option node) (db : list File.t) (t0 : nat)
    (skip exts : option (list string)) :
  index_corpus fnmatch lower sha256 clock root db t0 skip exts =
  let l := walk root skip exts in
  let w := foldl (rstep root) (mkWork db full_stats0 t0) l in
  foldl (delete_step (list_to_set (map Meta.file_path l))) w (rows w).
Proof. unfold index_corpus. by rewrite index_walk_unfold. Qed.

Lemma elem_of_seen (l : list Meta.t) (s : string) :
  s ∈ (list_to_set (map Meta.file_path l) : gset string) ↔
  s ∈ map Meta.file_path l.
Proof. apply elem_of_list_to_set. Qed.

Lemma gain_total (root : option node) (db : list File.t) (l : list Meta.t) :
  gain sha256 root db l "total" = length l.
Proof. unfold gain. rewrite filter_all; [done|]. intros; by left. Qed.

Lemma gain_key (root : option node) (db : list File.t) (l : list Meta.t)
    (o : outcome) (k : string) :
  outcome_key o = Some k →
  gain sha256 root db l k = branch_count sha256 root db l o.
Proof.
  intros Hk. unfold gain, branch_count. f_equal. apply list_filter_iff.
  intros m. split.
  - intros [->|Hm]; [by destruct o|].
    destruct o, (classify sha256 root db m); simpl in *; congruence.
  - intros ->. by right.
Qed.

Lemma gain_other (root : option node) (db : list File.t) (l : list Meta.t)
    (k : string) :
  k ≠ "total" → k ≠ "new" → k ≠ "updated" → k ≠ "unchanged" →
  gain sha256 root db l k = 0%nat.
Proof.
  intros H1 H2 H3 H4. unfold gain. rewrite filter_none; [done|].
  intros m _ [?|Hm]; [done|].
  destruct (classify sha256 root db m); simpl in Hm; congruence.
Qed.

Lemma branch_count_sum (root : option node) (db : list File.t) (l : list Meta.t) :
  (branch_count sha256 root db l New + branch_count sha256 root db l Updated +
   branch_count sha256 root db l Unchanged +
   branch_count sha256 root db l Failed = length l)%nat.
Proof.
  unfold branch_count. induction l as [|m l IH]; [done|].
  rewrite !filter_cons. simpl.
  destruct (classify sha256 root db m);
    repeat (destruct (decide _); try done); simpl; lia.
Qed.

Lemma branch_count_Failed (root : option node) (db : list File.t)
    (l : list Meta.t) :
  branch_count sha256 root db l Failed =
  length (filter (λ m, hash root (Meta.absolute_path m) = None) l).
Proof.
  unfold branch_count. f_equal. apply list_filter_iff. intros m.
  apply classify_hash.
Qed.

(** The case analysis on a key of the statistics dict. *)
Ltac stats_cases k :=
  destruct (decide (k = "new")) as [->|?];
  [|destruct (decide (k = "updated")) as [->|?];
    [|destruct (decide (k = "unchanged")) as [->|?];
      [|destruct (decide (k = "deleted")) as [->|?];
        [|destruct (decide (k = "total")) as [->|?]]]]].

(** The statistics an incremental run returns. *)
Lemma reindex_changed_stats (root : option node) (db : list File.t) (t0 : nat)
    (skip exts : option (list string)) :
  wf_root root → catalog_ok db →
  let l := walk root skip exts in
  stats (reindex_changed fnmatch lower sha256 clock root db t0 skip exts) =
  {[ "new" := branch_count sha256 root db l New;
     "updated" := branch_count sha256 root db l Updated;
     "unchanged" := branch_count sha256 root db l Unchanged;
     "total" := length l ]}.
Proof.
  intros Hwf Hok l. unfold reindex_changed. fold l. apply map_eq. intros k.
  rewrite loop_stats; [| by apply walk_corpus_NoDup | done]. simpl.
  unfold incremental_stats0. stats_cases k.
  - rewrite (gain_key _ _ _ New) by done. by simplify_map_eq.
  - rewrite (gain_key _ _ _ Updated) by done. by simplify_map_eq.
  - rewrite (gain_key _ _ _ Unchanged) by done. by simplify_map_eq.
  - by simplify_map_eq.
  - rewrite gain_total. by simplify_map_eq.
  - by simplify_map_eq.
Qed.

(** The session a full run reaches before its deletion loop. *)
Lemma index_walk_stats (root : option node) (db : list File.t) (t0 : nat)
    (skip exts : option (list string)) :
  wf_root root → catalog_ok db →
  let l := walk root skip exts in
  stats (index_walk fnmatch lower sha256 clock root db t0 skip exts).1 =
  {[ "new" := branch_count sha256 root db l New;
     "updated" := branch_count sha256 root db l Updated;
     "unchanged" := branch_count sha256 root db l Unchanged;
     "deleted" := 0%nat;
     "total" := length l ]}.
Proof.
  intros Hwf Hok l. rewrite index_walk_unfold. fold l. simpl.
  apply map_eq. intros k.
  rewrite loop_stats; [| by apply walk_corpus_NoDup | done]. simpl.
  unfold full_stats0. stats_cases k.
  - rewrite (gain_key _ _ _ New) by done. by simplify_map_eq.
  - rewrite (gain_key _ _ _ Updated) by done. by simplify_map_eq.
  - rewrite (gain_key _ _ _ Unchanged) by done. by simplify_map_eq.
  - rewrite gain_other by done. by simplify_map_eq.
  - rewrite gain_total. by simplify_map_eq.
  - by simplify_map_eq.
Qed.

Lemma index_walk_catalog_ok (root : option node) (db : list File.t) (t0 : nat)
    (skip exts : option (list string)) :
  catalog_ok db →
  catalog_ok (rows (index_walk fnmatch lower sha256 clock root db t0 skip exts).1).
Proof. intros Hok. rewrite index_walk_unfold. simpl. by apply loop_catalog_ok. Qed.

(** The rows a full run commits: those its walking loop leaves whose path
    the walk has met. *)
Lemma index_corpus_rows (root : option node) (db : list File.t) (t0 : nat)
    (skip exts : option (list string)) :
  catalog_ok db →
  rows (index_corpus fnmatch lower sha256 clock root db t0 skip exts) =
  filter (λ r, File.file_path r ∈ map Meta.file_path (walk root skip exts))
    (rows (index_walk fnmatch lower sha256 clock root db t0 skip exts).1).
Proof.
  intros Hok.
  pose proof (index_walk_catalog_ok root db t0 skip exts Hok) as [Hid _].
  unfold index_corpus. rewrite index_walk_unfold in *. simpl in *.
  rewrite delete_all_rows by done.
  apply list_filter_iff. intros r. apply elem_of_seen.
Qed.

Lemma index_corpus_ticks (root : option node) (db : list File.t) (t0 : nat)
    (skip exts : option (list string)) :
  ticks (index_corpus fnmatch lower sha256 clock root db t0 skip exts) =
  ticks (index_walk fnmatch lower sha256 clock root db t0 skip exts).1.
Proof.
  unfold index_corpus. destruct (index_walk _ _ _ _ _ _ _ _) as [w seen].
  apply delete_loop_ticks.
Qed.

(** Rows whose path the walk does not meet are where they were when the
    walking loop ends. *)
Lemma index_walk_unseen (root : option node) (db : list File.t) (t0 : nat)
    (skip exts : option (list string)) :
  catalog_ok db →
  filter (λ r, File.file_path r ∉ map Meta.file_path (walk root skip exts))
    (rows (index_walk fnmatch lower sha256 clock root db t0 skip exts).1) =
  filter (λ r, File.file_path r ∉ map Meta.file_path (walk root skip exts)) db.
Proof.
  intros Hok. rewrite index_walk_unfold. simpl.
  rewrite loop_filter; [done | done |].
  intros m x Hm Hp Hx. apply Hx. rewrite Hp.
  apply list_elem_of_fmap. by exists m.
Qed.

(** The statistics a full run returns. *)
Lemma index_corpus_stats (root : option node) (db : list File.t) (t0 : nat)
    (skip exts : option (list string)) :
  wf_root root → catalog_ok db →
  let l := walk root skip exts in
  stats (index_corpus fnmatch lower sha256 clock root db t0 skip exts) =
  {[ "new" := branch_count sha256 root db l New;
     "updated" := branch_count sha256 root db l Updated;
     "unchanged" := branch_count sha256 root db l Unchanged;
     "deleted" :=
       length (filter (λ r, File.file_path r ∉ map Meta.file_path l) db);
     "total" := length l ]}.
Proof.
  intros Hwf Hok l.
  pose proof (index_walk_stats root db t0 skip exts Hwf Hok) as Hst.
  pose proof (index_walk_unseen root db t0 skip exts Hok) as Hun.
  unfold index_corpus. rewrite index_walk_unfold in *. simpl in *. fold l in Hst, Hun |- *.
  set (w := foldl _ _ l) in *.
  apply map_eq. intros k. rewrite delete_loop_stats, Hst.
  assert (Hlen : length (filter (λ r, File.file_path r ∉
                   (list_to_set (map Meta.file_path l) : gset string)) (rows w)) =
                 length (filter (λ r, File.file_path r ∉ map Meta.file_path l) db)).
  { rewrite <- Hun. f_equal. apply list_filter_iff. intros r.
    by rewrite elem_of_seen. }
  rewrite Hlen.
  stats_cases k; simplify_map_eq; try done; f_equal; lia.
Qed.

End RunFacts.

(** * The claims *)

(** ** Section derivation *)

(** C8. For every relative path, the section is the first component when
    the path splits into more than one component and null otherwise; in
    particular ["docs/guides/setup.md"] gives ["docs"] and ["readme.txt"]
    gives null. *)
Theorem determine_corpus_section_spec :
  (∀ relative_path : string,
     determine_corpus_section relative_path =
     match Pathlib.parts relative_path with
     | first :: _ :: _ => Some first
     | _ => None
     end) ∧
  determine_corpus_section "docs/guides/setup.md" = Some "docs" ∧
  determine_corpus_section "readme.txt" = None.
Proof.
  split; [|split; reflexivity].
  intros relative_path. unfold determine_corpus_section.
  by destruct (Pathlib.parts relative_path) as [|a [|b ps]].
Qed.

(** ** Traversal order *)

Lemma fs_view_Reg (n : node) (p : list string) (stat : Stat) (data : option string) :
  fs_lookup n p = Some (Reg stat data) ↔ fs_view n p = Some (Some (stat, data)).
Proof.
  unfold fs_view. destruct (fs_lookup n p) as [[st d|es]|]; split; congruence.
Qed.

Lemma walk_corpus_same_files (fnmatch : string → string → bool)
    (lower : string → string) (n1 n2 : node)
    (skip exts : option (list string)) (m : Meta.t) :
  wf_node n1 → wf_node n2 → same_files n1 n2 →
  m ∈ walk_corpus fnmatch lower (Some n1) skip exts →
  m ∈ walk_corpus fnmatch lower (Some n2) skip exts.
Proof.
  intros W1 W2 Hsame.
  rewrite !elem_of_walk_corpus by done.
  intros (p & stat & data & Hp & Hl & He & ->). exists p, stat, data.
  split; [done|]. split; [|done]. simpl in *.
  apply fs_view_Reg. rewrite <- Hsame. by apply fs_view_Reg.
Qed.

(** C9. The records of a walk come in the lexicographic order of their
    paths, and the sequence is a function of the tree alone: two walks over
    the same files yield the same sequence, in whatever order the
    directories list their entries. *)
Theorem walk_corpus_deterministic (fnmatch : string → string → bool)
    (lower : string → string)
    (n1 n2 : node) (skip_patterns supported_extensions : option (list string)) :
  (∀ root, StronglySorted record_le
             (walk_corpus fnmatch lower root skip_patterns supported_extensions)) ∧
  (wf_node n1 → wf_node n2 → same_files n1 n2 →
   walk_corpus fnmatch lower (Some n1) skip_patterns supported_extensions =
   walk_corpus fnmatch lower (Some n2) skip_patterns supported_extensions).
Proof.
  split; [intros root; apply walk_corpus_sorted|].
  intros W1 W2 Hsame.
  assert (Hsame' : same_files n2 n1) by (intros p; by rewrite Hsame).
  pose proof (walk_corpus_NoDup fnmatch lower (Some n1) skip_patterns
                supported_extensions W1) as Hnd1.
  pose proof (walk_corpus_NoDup fnmatch lower (Some n2) skip_patterns
                supported_extensions W2) as Hnd2.
  apply (StronglySorted_unique_strong record_le);
    [| apply walk_corpus_sorted | apply walk_corpus_sorted |].
  - intros m1 m2 H1 H2 L12 L21.
    assert (Habs : Meta.absolute_path m1 = Meta.absolute_path m2)
      by (by apply (anti_symm Pathlib.le)).
    apply (walk_corpus_same_files _ _ n2 n1) in H2; [|done..].
    apply elem_of_walk_corpus in H1 as (p1 & s1 & d1 & _ & L1 & _ & ->); [|done].
    apply elem_of_walk_corpus in H2 as (p2 & s2 & d2 & _ & L2 & _ & ->); [|done].
    simpl in Habs. subst p2. rewrite L1 in L2. by injection L2 as -> _.
  - apply NoDup_Permutation.
    + by apply NoDup_fmap_1 in Hnd1.
    + by apply NoDup_fmap_1 in Hnd2.
    + intros m. split; by apply walk_corpus_same_files.
Qed.

(** ** Full synchronisation and the corpus *)

Lemma elem_of_paths_filter (L : list string) (db : list File.t) (s : string) :
  s ∈ paths (filter (λ r, File.file_path r ∈ L) db) ↔ s ∈ paths db ∧ s ∈ L.
Proof.
  unfold paths. rewrite !list_elem_of_fmap. split.
  - intros (r & -> & [Hp Hr]%list_elem_of_filter). split; [by exists r | done].
  - intros [(r & -> & Hr) Hp]. exists r. split; [done|].
    by apply list_elem_of_filter.
Qed.

Lemma NoDup_paths_filter (P : File.t → Prop) `{∀ r, Decision (P r)}
    (db : list File.t) :
  NoDup (paths db) → NoDup (paths (filter P db)).
Proof.
  unfold paths. induction db as [|r db IH]; simpl; [done|].
  intros [Hr Hnd]%NoDup_cons. rewrite filter_cons.
  destruct (decide (P r)); [|auto]. simpl. constructor; [|auto].
  intros (x & Hx & [_ Hin]%list_elem_of_filter)%list_elem_of_fmap.
  apply Hr. apply list_elem_of_fmap. by exists x.
Qed.

Section Claims.

Variable fnmatch : string → string → bool.
Variable lower : string → string.
Variable sha256 : string → string.
Variable clock : nat → Z.

Local Abbreviation walk := (walk_corpus fnmatch lower).
Local Abbreviation hash := (compute_file_hash sha256).
Local Abbreviation full := (index_corpus fnmatch lower sha256 clock).
Local Abbreviation incremental := (reindex_changed fnmatch lower sha256 clock).

(** The paths a full run leaves in the catalog. *)
Lemma index_corpus_paths (root : option node) (db : list File.t) (t0 : nat)
    (skip exts : option (list string)) (s : string) :
  catalog_ok db →
  s ∈ paths (rows (full root db t0 skip exts)) ↔
  s ∈ map Meta.file_path (walk root skip exts) ∧
  (s ∈ paths db ∨
   ∃ m, m ∈ walk root skip exts ∧ Meta.file_path m = s ∧
        is_Some (hash root (Meta.absolute_path m))).
Proof.
  intros Hok. rewrite index_corpus_rows by done.
  rewrite elem_of_paths_filter.
  rewrite index_walk_unfold. simpl. rewrite loop_paths by done. simpl. tauto.
Qed.

(** C1, amended. After a full run the catalog holds exactly one entry,
    keyed by relative path, for each eligible regular file below the root
    that the run could fingerprint or that already had an entry, and no
    entry for any other path.  The files below the root are those the
    directory listings show during the run; the extension is tested after
    [str.lower()]. *)
Theorem index_corpus_mirrors_fingerprinted (root : option node)
    (db : list File.t) (t0 : nat)
    (skip_patterns supported_extensions : option (list string)) :
  wf_root root → catalog_ok db →
  let final := rows (full root db t0 skip_patterns supported_extensions) in
  NoDup (paths final) ∧
  ∀ s, s ∈ paths final ↔
       ∃ p, corpus_file root p ∧
            eligible fnmatch lower (default DEFAULT_SKIP_PATTERNS skip_patterns)
              (default DEFAULT_SUPPORTED_EXTENSIONS supported_extensions) p ∧
            Pathlib.str p = s ∧
            (is_Some (hash root p) ∨ s ∈ paths db).
Proof.
  intros Hwf Hok final. split.
  { unfold final. rewrite index_corpus_rows by done.
    apply NoDup_paths_filter. by apply index_walk_catalog_ok. }
  intros s. unfold final. rewrite index_corpus_paths by done. split.
  - intros [(m & -> & Hm)%list_elem_of_fmap Hs].
    destruct Hs as [Hdb|(m' & Hm' & Hp & Hh)].
    + apply elem_of_walk_corpus in Hm as (p & stat & data & Hne & Hl & He & ->);
        [|done].
      exists p. split; [split; eauto|]. split; [done|]. split; [done|]. by right.
    + apply elem_of_walk_corpus in Hm' as (p & stat & data & Hne & Hl & He & ->);
        [|done].
      exists p. split; [split; eauto|]. split; [done|]. split; [done|]. by left.
  - intros (p & [Hne (stat & data & Hl)] & He & <- & Hs).
    assert (Hm : record_of lower p stat ∈ walk root skip_patterns supported_extensions).
    { apply elem_of_walk_corpus; [done|]. by exists p, stat, data. }
    split.
    + apply list_elem_of_fmap. by exists (record_of lower p stat).
    + destruct Hs as [Hh|Hdb]; [right | by left].
      by exists (record_of lower p stat).
Qed.

(** ** Turns of the loop inside a run *)

Lemma index_step_reindex_step (root : option node) (w : Work)
    (seen : gset string) (m : Meta.t) :
  index_step sha256 clock root (w, seen) m =
  (reindex_step sha256 clock root w m, {[ Meta.file_path m ]} ∪ seen).
Proof. done. Qed.

Lemma reindex_step_Failed (root : option node) (w : Work) (m : Meta.t) :
  hash root (Meta.absolute_path m) = None →
  reindex_step sha256 clock root w m =
  mkWork (rows w) (incr "total" (stats w)) (ticks w).
Proof. intros Hh. unfold reindex_step, reconcile. by rewrite Hh. Qed.

Lemma reindex_step_Unchanged (root : option node) (w : Work) (m : Meta.t)
    (h : string) (existing : File.t) :
  hash root (Meta.absolute_path m) = Some h →
  query_first (rows w) (Meta.file_path m) = Some existing →
  File.file_hash existing = Some h →
  reindex_step sha256 clock root w m = counted "unchanged" w.
Proof.
  intros Hh Hq He. unfold reindex_step, reconcile. simpl.
  by rewrite Hh, Hq, decide_True.
Qed.

Lemma reindex_step_Updated (root : option node) (w : Work) (m : Meta.t)
    (h : string) (existing : File.t) :
  hash root (Meta.absolute_path m) = Some h →
  query_first (rows w) (Meta.file_path m) = Some existing →
  File.file_hash existing ≠ Some h →
  stats (reindex_step sha256 clock root w m) =
  incr "updated" (incr "total" (stats w)).
Proof.
  intros Hh Hq He. unfold reindex_step, reconcile. simpl.
  by rewrite Hh, Hq, decide_False.
Qed.

Lemma walk_unique (root : option node) (skip exts : option (list string))
    (m m' : Meta.t) :
  wf_root root → m ∈ walk root skip exts → m' ∈ walk root skip exts →
  Meta.file_path m = Meta.file_path m' → m = m'.
Proof.
  intros Hwf. apply NoDup_fmap_inj. by apply walk_corpus_NoDup.
Qed.

(** When the turn of a record comes, the entry of its path is still the one
    the run started with. *)
Lemma turn_query (root : option node) (skip exts : option (list string))
    (l1 l2 : list Meta.t) (m : Meta.t) (w0 : Work) :
  wf_root root → catalog_ok (rows w0) →
  walk root skip exts = l1 ++ m :: l2 →
  query_first (rows (foldl (reindex_step sha256 clock root) w0 l1))
    (Meta.file_path m) =
  query_first (rows w0) (Meta.file_path m).
Proof.
  intros Hwf Hok Hsplit. apply loop_query_other; [done|].
  pose proof (walk_corpus_NoDup fnmatch lower root skip exts Hwf) as Hnd.
  rewrite Hsplit, map_app in Hnd. apply NoDup_app in Hnd as (_ & Hd & _).
  intros Hin. apply (Hd _ Hin). simpl. left.
Qed.

(** A row whose path the walk meets only in turns that fail or find it
    unchanged is still there when the walking loop ends. *)
Lemma walk_frame (root : option node) (db : list File.t) (t0 : nat)
    (skip exts : option (list string)) (stats0 : gmap string nat)
    (m : Meta.t) (r : File.t) :
  wf_root root → catalog_ok db → m ∈ walk root skip exts →
  r ∈ db → File.file_path r = Meta.file_path m →
  classify sha256 root db m = Failed ∨ classify sha256 root db m = Unchanged →
  r ∈ rows (foldl (reindex_step sha256 clock root) (mkWork db stats0 t0)
              (walk root skip exts)).
Proof.
  intros Hwf Hok Hm Hr Hp Hc. apply loop_frame; [done | done |].
  simpl. intros m' Hm' Hp'.
  by rewrite (walk_unique root skip exts m' m) by (done || congruence).
Qed.

Lemma full_keeps_seen (root : option node) (db : list File.t) (t0 : nat)
    (skip exts : option (list string)) (m : Meta.t) (r : File.t) :
  catalog_ok db → m ∈ walk root skip exts →
  File.file_path r = Meta.file_path m →
  r ∈ rows (index_walk fnmatch lower sha256 clock root db t0 skip exts).1 →
  r ∈ rows (full root db t0 skip exts).
Proof.
  intros Hok Hm Hp Hr. rewrite index_corpus_rows by done.
  apply list_elem_of_filter. split; [|done].
  rewrite Hp. apply list_elem_of_fmap. by exists m.
Qed.

(** ** Fingerprint failures *)

(** C2. When the fingerprint of a walked record fails during a full run, a
    catalog entry that existed for its path is neither modified nor
    deleted: the path is among the seen paths and the entry is in the
    committed catalog exactly as it was. *)
Theorem hash_failure_keeps_entry (root : option node) (db : list File.t)
    (t0 : nat) (skip_patterns supported_extensions : option (list string))
    (m : Meta.t) (r : File.t) :
  wf_root root → catalog_ok db →
  m ∈ walk root skip_patterns supported_extensions →
  hash root (Meta.absolute_path m) = None →
  r ∈ db → File.file_path r = Meta.file_path m →
  Meta.file_path m ∈
    (index_walk fnmatch lower sha256 clock root db t0 skip_patterns
       supported_extensions).2 ∧
  r ∈ rows (full root db t0 skip_patterns supported_extensions).
Proof.
  intros Hwf Hok Hm Hh Hr Hp. split.
  - rewrite index_walk_unfold. simpl. apply elem_of_seen.
    apply list_elem_of_fmap. by exists m.
  - apply (full_keeps_seen _ _ _ _ _ m); [done..|].
    rewrite index_walk_unfold. simpl.
    apply (walk_frame _ _ _ _ _ _ m); [done..|].
    left. by apply classify_hash.
Qed.

(** C10. In both runs a record whose fingerprint fails is counted in
    total and in none of new, updated and unchanged, so that new + updated +
    unchanged is total minus the number of failures; and such a record
    with no entry beforehand gets none from the run. *)
Theorem fingerprint_failures_counted (root : option node) (db : list File.t)
    (t0 : nat) (skip_patterns supported_extensions : option (list string)) :
  wf_root root → catalog_ok db →
  let l := walk root skip_patterns supported_extensions in
  let failures :=
    length (filter (λ m, hash root (Meta.absolute_path m) = None) l) in
  let w := full root db t0 skip_patterns supported_extensions in
  let w' := incremental root db t0 skip_patterns supported_extensions in
  (∀ (w0 : Work) (seen : gset string) (m : Meta.t),
     hash root (Meta.absolute_path m) = None →
     reindex_step sha256 clock root w0 m =
       mkWork (rows w0) (incr "total" (stats w0)) (ticks w0) ∧
     (index_step sha256 clock root (w0, seen) m).1 =
       mkWork (rows w0) (incr "total" (stats w0)) (ticks w0)) ∧
  (∃ n u c,
     stats w !! "new" = Some n ∧ stats w !! "updated" = Some u ∧
     stats w !! "unchanged" = Some c ∧ stats w !! "total" = Some (length l) ∧
     stats w' !! "new" = Some n ∧ stats w' !! "updated" = Some u ∧
     stats w' !! "unchanged" = Some c ∧ stats w' !! "total" = Some (length l) ∧
     (n + u + c = length l - failures)%nat ∧ (failures ≤ length l)%nat) ∧
  (∀ m, m ∈ l → hash root (Meta.absolute_path m) = None →
        Meta.file_path m ∉ paths db →
        (Meta.file_path m ∉ paths (rows w)) ∧
        (Meta.file_path m ∉ paths (rows w'))).
Proof.
  intros Hwf Hok l failures w w'. split; [|split].
  - intros w0 seen m Hh. rewrite index_step_reindex_step. simpl.
    by rewrite reindex_step_Failed.
  - exists (branch_count sha256 root db l New),
           (branch_count sha256 root db l Updated),
           (branch_count sha256 root db l Unchanged).
    pose proof (branch_count_sum sha256 root db l) as Hsum.
    rewrite branch_count_Failed in Hsum. fold failures in Hsum.
    unfold w, w'. rewrite index_corpus_stats, reindex_changed_stats by done.
    fold l.
    set (n := branch_count _ _ _ _ New) in *.
    set (u := branch_count _ _ _ _ Updated) in *.
    set (c := branch_count _ _ _ _ Unchanged) in *.
    repeat split; try done; lia.
  - intros m Hm Hh Hdb.
    assert (Hnone : ¬ ∃ m', m' ∈ l ∧ Meta.file_path m' = Meta.file_path m ∧
                            is_Some (hash root (Meta.absolute_path m'))).
    { intros (m' & Hm' & Hp & Hs).
      rewrite (walk_unique root skip_patterns supported_extensions m' m) in Hs
        by done.
      rewrite Hh in Hs. by destruct Hs. }
    split.
    + unfold w. rewrite index_corpus_paths by done. fold l. tauto.
    + unfold w', reindex_changed. rewrite loop_paths by done. simpl. fold l. tauto.
Qed.

(** ** The unchanged branch *)

(** C7. A walked file whose fingerprint equals the one stored in its entry
    is counted as unchanged, in a full and in an incremental run alike, and
    the turn writes nothing: the entry is in the committed catalog with
    every field as it was. *)
Theorem unchanged_entry_untouched (root : option node) (db : list File.t)
    (t0 : nat) (skip_patterns supported_extensions : option (list string))
    (l1 l2 : list Meta.t) (m : Meta.t) (r : File.t) (h : string) :
  wf_root root → catalog_ok db →
  walk root skip_patterns supported_extensions = l1 ++ m :: l2 →
  hash root (Meta.absolute_path m) = Some h →
  r ∈ db → File.file_path r = Meta.file_path m → File.file_hash r = Some h →
  let before_full :=
    foldl (index_step sha256 clock root) (mkWork db full_stats0 t0, ∅) l1 in
  let before_incremental :=
    foldl (reindex_step sha256 clock root) (mkWork db incremental_stats0 t0) l1 in
  (index_step sha256 clock root before_full m).1 =
    counted "unchanged" before_full.1 ∧
  reindex_step sha256 clock root before_incremental m =
    counted "unchanged" before_incremental ∧
  r ∈ rows (full root db t0 skip_patterns supported_extensions) ∧
  r ∈ rows (incremental root db t0 skip_patterns supported_extensions).
Proof.
  intros Hwf Hok Hsplit Hh Hr Hp He before_full before_incremental.
  assert (Hq : query_first db (Meta.file_path m) = Some r).
  { rewrite <- Hp. apply query_first_elem; [apply Hok | done]. }
  assert (Hm : m ∈ walk root skip_patterns supported_extensions).
  { rewrite Hsplit. apply elem_of_app. right. left. }
  assert (Hc : classify sha256 root db m = Unchanged).
  { unfold classify. by rewrite Hh, Hq, decide_True. }
  split; [|split; [|split]].
  - unfold before_full. rewrite index_loop_reindex_loop.
    rewrite index_step_reindex_step. simpl.
    apply (reindex_step_Unchanged _ _ _ h r); [done| |done].
    by rewrite (turn_query root skip_patterns supported_extensions l1 l2).
  - apply (reindex_step_Unchanged _ _ _ h r); [done| |done].
    unfold before_incremental.
    by rewrite (turn_query root skip_patterns supported_extensions l1 l2).
  - apply (full_keeps_seen _ _ _ _ _ m); [done..|].
    rewrite index_walk_unfold. simpl.
    apply (walk_frame _ _ _ _ _ _ m); auto.
  - unfold reindex_changed. apply (walk_frame _ _ _ _ _ _ m); auto.
Qed.

(** ** Deletion *)

(** C5. A full run deletes every entry whose path the walk did not meet and
    counts it in deleted; an incremental run deletes nothing, the entry of
    a file that is gone stays as it was, and its statistics have no deleted
    key. *)
Theorem deletion_full_mode_only (root : option node) (db : list File.t)
    (t0 : nat) (skip_patterns supported_extensions : option (list string)) :
  wf_root root → catalog_ok db →
  let l := walk root skip_patterns supported_extensions in
  let unseen := filter (λ r, File.file_path r ∉ map Meta.file_path l) db in
  let w := full root db t0 skip_patterns supported_extensions in
  let w' := incremental root db t0 skip_patterns supported_extensions in
  ((∀ r, r ∈ rows w → File.file_path r ∈ map Meta.file_path l) ∧
   stats w !! "deleted" = Some (length unseen)) ∧
  ((∀ r, r ∈ db → File.file_path r ∈ paths (rows w')) ∧
   (∀ r, r ∈ unseen → r ∈ rows w') ∧
   stats w' !! "deleted" = None ∧
   dom (stats w') = ({[ "new"; "updated"; "unchanged"; "total" ]} : gset string)).
Proof.
  intros Hwf Hok l unseen w w'. split; split.
  - intros r. unfold w. rewrite index_corpus_rows by done.
    by intros [? _]%list_elem_of_filter.
  - unfold w. rewrite index_corpus_stats by done. by simplify_map_eq.
  - intros r Hr. unfold w', reindex_changed. rewrite loop_paths by done.
    left. simpl. apply list_elem_of_fmap. by exists r.
  - split; [|split].
    + intros r [Hun Hr]%list_elem_of_filter. unfold w', reindex_changed.
      apply loop_frame; [done | done |]. simpl. intros m Hm Hp.
      exfalso. apply Hun. rewrite <- Hp. apply list_elem_of_fmap. by exists m.
    + unfold w'. rewrite reindex_changed_stats by done. by simplify_map_eq.
    + unfold w'. rewrite reindex_changed_stats by done.
      rewrite !dom_insert_L, dom_singleton_L. set_solver.
Qed.

(** ** A second run *)

Lemma catalog_ok_filter (P : File.t → Prop) `{∀ r, Decision (P r)}
    (db : list File.t) :
  catalog_ok db → catalog_ok (filter P db).
Proof.
  intros [Hid Hp]. split; [|by apply NoDup_paths_filter].
  clear Hp. induction db as [|r db IH]; simpl; [done|].
  apply NoDup_cons in Hid as [Hr Hnd]. rewrite filter_cons.
  destruct (decide (P r)); [|auto]. simpl. constructor; [|auto].
  intros (x & Hx & [_ Hin]%list_elem_of_filter)%list_elem_of_fmap.
  apply Hr. apply list_elem_of_fmap. by exists x.
Qed.

Lemma query_first_filter (P : File.t → Prop) `{∀ r, Decision (P r)}
    (db : list File.t) (s : string) :
  (∀ r, r ∈ db → File.file_path r = s → P r) →
  query_first (filter P db) s = query_first db s.
Proof.
  unfold query_first. induction db as [|r db IH]; intros HP; [done|].
  rewrite filter_cons. simpl.
  destruct (decide (P r)) as [Hr|Hr]; simpl.
  - rewrite IH by (intros; apply HP; [by right | done]). done.
  - rewrite bool_decide_eq_false_2.
    + apply IH. intros; apply HP; [by right | done].
    + intros Hs. apply Hr, HP; [left | done].
Qed.

Lemma full_catalog_ok (root : option node) (db : list File.t) (t0 : nat)
    (skip exts : option (list string)) :
  catalog_ok db → catalog_ok (rows (full root db t0 skip exts)).
Proof.
  intros Hok. rewrite index_corpus_rows by done.
  apply catalog_ok_filter. by apply index_walk_catalog_ok.
Qed.

(** After a full run the entry of every fingerprinted file holds its
    fingerprint. *)
Lemma full_query_hash (root : option node) (db : list File.t) (t0 : nat)
    (skip exts : option (list string)) (m : Meta.t) (h : string) :
  wf_root root → catalog_ok db → m ∈ walk root skip exts →
  hash root (Meta.absolute_path m) = Some h →
  ∃ r, query_first (rows (full root db t0 skip exts)) (Meta.file_path m) = Some r ∧
       File.file_hash r = Some h.
Proof.
  intros Hwf Hok Hm Hh. rewrite index_corpus_rows by done.
  rewrite query_first_filter.
  - rewrite index_walk_unfold. simpl.
    apply loop_query_same; [by apply walk_corpus_NoDup | done..].
  - intros r _ ->. apply list_elem_of_fmap. by exists m.
Qed.

(** How a second run over the same tree classifies the records. *)
Lemma second_run_classify (root : option node) (db : list File.t) (t0 : nat)
    (skip exts : option (list string)) (m : Meta.t) :
  wf_root root → catalog_ok db → m ∈ walk root skip exts →
  classify sha256 root (rows (full root db t0 skip exts)) m =
  if decide (hash root (Meta.absolute_path m) = None) then Failed else Unchanged.
Proof.
  intros Hwf Hok Hm.
  destruct (hash root (Meta.absolute_path m)) as [h|] eqn:Hh.
  - destruct (full_query_hash root db t0 skip exts m h) as (r & Hq & Hr);
      [done..|].
    unfold classify. rewrite Hh, Hq, decide_True by done.
    by rewrite decide_False.
  - rewrite decide_True by done. by apply classify_hash.
Qed.

(** C4, amended. A second full run over an unchanged tree reports
    new = updated = deleted = 0, total = the number of walked records and
    unchanged = total minus the number of records whose fingerprint fails,
    and leaves the catalog of the first run as it is. *)
Theorem index_corpus_idempotent (root : option node) (db : list File.t)
    (t0 : nat) (skip_patterns supported_extensions : option (list string)) :
  wf_root root → catalog_ok db →
  let l := walk root skip_patterns supported_extensions in
  let failures :=
    length (filter (λ m, hash root (Meta.absolute_path m) = None) l) in
  let w1 := full root db t0 skip_patterns supported_extensions in
  let w2 := full root (rows w1) (ticks w1) skip_patterns supported_extensions in
  stats w2 =
    {[ "new" := 0%nat; "updated" := 0%nat;
       "unchanged" := (length l - failures)%nat;
       "deleted" := 0%nat; "total" := length l ]} ∧
  rows w2 = rows w1 ∧ ticks w2 = ticks w1.
Proof.
  intros Hwf Hok l failures w1 w2.
  assert (Hok1 : catalog_ok (rows w1)) by by apply full_catalog_ok.
  assert (Hcl : ∀ m, m ∈ l →
            classify sha256 root (rows w1) m =
            if decide (hash root (Meta.absolute_path m) = None)
            then Failed else Unchanged).
  { intros m Hm. by apply second_run_classify. }
  assert (Hseen : ∀ r, r ∈ rows w1 → File.file_path r ∈ map Meta.file_path l).
  { intros r. unfold w1. rewrite index_corpus_rows by done.
    by intros [? _]%list_elem_of_filter. }
  assert (Hsame : rows (index_walk fnmatch lower sha256 clock root (rows w1) (ticks w1)
                          skip_patterns supported_extensions).1 = rows w1 ∧
                  ticks (index_walk fnmatch lower sha256 clock root (rows w1) (ticks w1)
                          skip_patterns supported_extensions).1 = ticks w1).
  { rewrite index_walk_unfold. simpl. fold l.
    apply (loop_rows_same sha256 clock root l
             (mkWork (rows w1) full_stats0 (ticks w1))). simpl.
    intros m Hm. rewrite Hcl by done. destruct (decide _); auto. }
  destruct Hsame as [Hrows Hticks].
  split; [|split].
  - unfold w2. rewrite index_corpus_stats by done. fold l.
    pose proof (branch_count_sum sha256 root (rows w1) l) as Hsum.
    rewrite branch_count_Failed in Hsum. fold failures in Hsum.
    assert (HN : branch_count sha256 root (rows w1) l New = 0%nat).
    { unfold branch_count. rewrite filter_none; [done|].
      intros m Hm. rewrite Hcl by done. by destruct (decide _). }
    assert (HU : branch_count sha256 root (rows w1) l Updated = 0%nat).
    { unfold branch_count. rewrite filter_none; [done|].
      intros m Hm. rewrite Hcl by done. by destruct (decide _). }
    assert (HD : filter (λ r, File.file_path r ∉ map Meta.file_path l) (rows w1)
                 = []).
    { apply filter_none. intros r Hr Hn. by apply Hn, Hseen. }
    rewrite HD. rewrite HN, HU in Hsum |- *.
    replace (branch_count sha256 root (rows w1) l Unchanged)
      with (length l - failures)%nat by lia.
    done.
  - unfold w2. rewrite index_corpus_rows by done. rewrite Hrows. fold l.
    by apply filter_all.
  - unfold w2. by rewrite index_corpus_ticks.
Qed.

(** ** A root that is not a directory *)

(** C3, amended. When the configured root does not exist or is not a
    directory the walker yields nothing; a full run then inserts and
    updates no entry, an incremental run leaves the catalog as it is, and
    both return an ordinary statistics dict in which new, updated,
    unchanged and total are 0. *)
Theorem missing_root_no_upsert (root : option node) (db : list File.t)
    (t0 : nat) (skip_patterns supported_extensions : option (list string)) :
  (∀ es, root ≠ Some (Dir es)) →
  let w := full root db t0 skip_patterns supported_extensions in
  walk root skip_patterns supported_extensions = [] ∧
  ((∀ r, r ∈ rows w → r ∈ db) ∧ ticks w = t0 ∧
   stats w !! "new" = Some 0%nat ∧ stats w !! "updated" = Some 0%nat ∧
   stats w !! "unchanged" = Some 0%nat ∧ stats w !! "total" = Some 0%nat) ∧
  incremental root db t0 skip_patterns supported_extensions =
    mkWork db incremental_stats0 t0.
Proof.
  intros Hroot w.
  assert (Hwalk : walk root skip_patterns supported_extensions = []).
  { unfold walk_corpus. destruct root as [[st data|es]|]; try done.
    by destruct (Hroot es). }
  split; [done|]. split.
  - unfold w. rewrite index_corpus_unfold, Hwalk. simpl.
    split; [|split].
    + intros r. rewrite delete_loop_rows. simpl.
      by intros [_ ?]%list_elem_of_filter.
    + by rewrite delete_loop_ticks.
    + rewrite !delete_loop_stats. simpl. done.
  - unfold reindex_changed. by rewrite Hwalk.
Qed.

(** ** Content changes *)

(** C6. Whether a file with an entry counts as updated or as unchanged is
    decided by comparing its fresh fingerprint with the stored one, and by
    nothing else: at the turn of such a file, in the full and in the
    incremental loop alike, the counter [updated] goes up by one and
    [unchanged] stays when the fingerprints differ, and [unchanged] goes up
    by one and [updated] stays when they are equal.  In particular, when
    the bytes of a file change between two full runs while its size and
    timestamps stay the same, the second run counts the file as updated,
    and not as unchanged, exactly when the fingerprint of the new bytes
    differs from the fingerprint of the old ones. *)
Theorem content_change_is_updated (root1 root2 : option node)
    (db : list File.t) (t0 : nat)
    (skip_patterns supported_extensions : option (list string))
    (p : list string) (stat : Stat) (bytes1 bytes2 : string)
    (l1 l2 : list Meta.t) :
  (∀ (root : option node) (w : Work) (seen : gset string) (m : Meta.t)
     (h : string) (existing : File.t) (u n : nat),
     hash root (Meta.absolute_path m) = Some h →
     query_first (rows w) (Meta.file_path m) = Some existing →
     stats w !! "updated" = Some u → stats w !! "unchanged" = Some n →
     let after := reindex_step sha256 clock root w m in
     (index_step sha256 clock root (w, seen) m).1 = after ∧
     stats after !! "updated" =
       Some (if decide (File.file_hash existing = Some h) then u else S u) ∧
     stats after !! "unchanged" =
       Some (if decide (File.file_hash existing = Some h) then S n else n)) ∧
  (wf_root root1 → wf_root root2 → catalog_ok db →
   (n ← root1; fs_lookup n p) = Some (Reg stat (Some bytes1)) →
   (n ← root2; fs_lookup n p) = Some (Reg stat (Some bytes2)) →
   walk root2 skip_patterns supported_extensions =
     l1 ++ record_of lower p stat :: l2 →
   let w1 := full root1 db t0 skip_patterns supported_extensions in
   let before :=
     foldl (index_step sha256 clock root2)
       (mkWork (rows w1) full_stats0 (ticks w1), ∅) l1 in
   let after :=
     (index_step sha256 clock root2 before (record_of lower p stat)).1 in
   ∃ u n : nat,
     stats before.1 !! "updated" = Some u ∧
     stats before.1 !! "unchanged" = Some n ∧
     stats after !! "updated" =
       Some (if decide (sha256 bytes2 = sha256 bytes1) then u else S u) ∧
     stats after !! "unchanged" =
       Some (if decide (sha256 bytes2 = sha256 bytes1) then S n else n)).
Proof.
  assert (Hturn : ∀ (root : option node) (w : Work) (m : Meta.t) (h : string)
            (existing : File.t) (u n : nat),
     hash root (Meta.absolute_path m) = Some h →
     query_first (rows w) (Meta.file_path m) = Some existing →
     stats w !! "updated" = Some u → stats w !! "unchanged" = Some n →
     stats (reindex_step sha256 clock root w m) !! "updated" =
       Some (if decide (File.file_hash existing = Some h) then u else S u) ∧
     stats (reindex_step sha256 clock root w m) !! "unchanged" =
       Some (if decide (File.file_hash existing = Some h) then S n else n)).
  { intros root w m h existing u n Hh Hq Hu Hn.
    destruct (decide (File.file_hash existing = Some h)) as [He|He].
    - rewrite (reindex_step_Unchanged root w m h existing) by done.
      unfold counted. simpl. rewrite !lookup_incr. simpl.
      by rewrite Hu, Hn.
    - rewrite (reindex_step_Updated root w m h existing) by done.
      rewrite !lookup_incr. simpl. by rewrite Hu, Hn. }
  split.
  { intros root w seen m h existing u n Hh Hq Hu Hn after.
    split; [done|]. by apply Hturn. }
  intros W1 W2 Hok L1 L2 Hsplit w1 before after.
  set (m := record_of lower p stat) in *.
  assert (Hm2 : m ∈ walk root2 skip_patterns supported_extensions).
  { rewrite Hsplit. apply elem_of_app. right. left. }
  assert (Hm1 : m ∈ walk root1 skip_patterns supported_extensions).
  { apply elem_of_walk_corpus in Hm2
      as (p' & stat' & data' & Hp' & _ & He & Heq); [|done].
    assert (p' = p) as -> by (by apply (f_equal Meta.absolute_path) in Heq).
    apply elem_of_walk_corpus; [done|]. by exists p, stat, (Some bytes1). }
  assert (Hh1 : hash root1 (Meta.absolute_path m) = Some (sha256 bytes1)).
  { unfold compute_file_hash. simpl. by rewrite L1. }
  assert (Hh2 : hash root2 (Meta.absolute_path m) = Some (sha256 bytes2)).
  { unfold compute_file_hash. simpl. by rewrite L2. }
  destruct (full_query_hash root1 db t0 skip_patterns supported_extensions m _
              W1 Hok Hm1 Hh1) as (r & Hq & Hr).
  fold w1 in Hq.
  assert (Hok1 : catalog_ok (rows w1)) by by apply full_catalog_ok.
  pose proof (walk_corpus_NoDup fnmatch lower root2 skip_patterns
                supported_extensions W2) as Hnd.
  rewrite Hsplit, map_app in Hnd. apply NoDup_app in Hnd as (Hnd1 & _ & _).
  set (w0 := mkWork (rows w1) full_stats0 (ticks w1)).
  assert (Hbefore : before.1 = foldl (reindex_step sha256 clock root2) w0 l1).
  { unfold before. by rewrite index_loop_reindex_loop. }
  assert (Hafter : after = reindex_step sha256 clock root2 before.1 m).
  { unfold after. destruct before as [wb sb]. by rewrite index_step_reindex_step. }
  assert (Hkeys : ∀ k, is_Some (full_stats0 !! k) → is_Some (stats before.1 !! k)).
  { intros k [x Hx]. rewrite Hbefore, (loop_stats sha256 clock) by done.
    simpl. rewrite Hx. by eexists. }
  destruct (Hkeys "updated") as [u Hu]; [by eexists|].
  destruct (Hkeys "unchanged") as [n Hn]; [by eexists|].
  exists u, n. split; [done|]. split; [done|].
  assert (Hqb : query_first (rows before.1) (Meta.file_path m) = Some r).
  { rewrite Hbefore.
    by rewrite (turn_query root2 skip_patterns supported_extensions l1 l2 m w0). }
  destruct (Hturn root2 before.1 m (sha256 bytes2) r u n Hh2 Hqb Hu Hn)
    as [HU HN].
  rewrite Hafter, HU, HN, Hr.
  destruct (decide (Some (sha256 bytes1) = Some (sha256 bytes2))) as [He|He],
           (decide (sha256 bytes2 = sha256 bytes1)) as [He'|He'];
    try done; congruence.
Qed.

End Claims.

(** * The claims on concrete corpora *)

(** Well-formedness of a concrete tree. *)
Ltac solve_wf :=
  simpl; repeat split; try done;
  repeat (apply NoDup_cons_2;
          [rewrite ?not_elem_of_cons; repeat split; try done;
           apply not_elem_of_nil|]);
  try apply NoDup_nil_2.

Ltac solve_catalog_ok :=
  split; simpl;
  repeat (apply NoDup_cons_2;
          [rewrite ?not_elem_of_cons; repeat split; try done;
           apply not_elem_of_nil|]);
  apply NoDup_nil_2.

Lemma scenario_tree_wf : wf_node scenario_tree.
Proof. solve_wf. Qed.

Lemma scenario_tree_relisted_wf : wf_node scenario_tree_relisted.
Proof. solve_wf. Qed.

Lemma scenario_tree_edited_wf : wf_node scenario_tree_edited.
Proof. solve_wf. Qed.

Lemma scenario_tree_removed_wf : wf_node scenario_tree_removed.
Proof. solve_wf. Qed.

Lemma unreadable_tree_wf : wf_node unreadable_tree.
Proof. solve_wf. Qed.

Lemma scenario_relisted_same_files : same_files scenario_tree scenario_tree_relisted.
Proof.
  intros p. unfold fs_view, scenario_tree, scenario_tree_relisted.
  destruct p as [|a p]; [done|]. simpl.
  repeat (simpl; case_decide; subst; simpl; try done;
          try (destruct p as [|? p]; simpl; try done)).
Qed.

(** The scenario of the specification: two files indexed, then nothing to
    do, then one deletion. *)
Example scenario_runs :
  let run root db t0 :=
    index_corpus fnmatch_glob ascii_lower sample_digest sample_clock root db t0 None None in
  let w1 := run (Some scenario_tree) [] 0%nat in
  let w2 := run (Some scenario_tree) (rows w1) (ticks w1) in
  let w3 := run (Some scenario_tree_removed) (rows w2) (ticks w2) in
  stats w1 = {[ "new" := 2%nat; "updated" := 0%nat; "unchanged" := 0%nat;
                "deleted" := 0%nat; "total" := 2%nat ]} ∧
  map (λ r, (File.file_path r, File.corpus_section r)) (rows w1) =
    [("a.md", None); ("notes/b.txt", Some "notes")] ∧
  stats w2 = {[ "new" := 0%nat; "updated" := 0%nat; "unchanged" := 2%nat;
                "deleted" := 0%nat; "total" := 2%nat ]} ∧
  stats w3 = {[ "new" := 0%nat; "updated" := 0%nat; "unchanged" := 1%nat;
                "deleted" := 1%nat; "total" := 1%nat ]} ∧
  paths (rows w3) = ["notes/b.txt"].
Proof. vm_compute. repeat split; reflexivity. Qed.

(** The walker on names that are skipped, hidden or in upper case.  Paths
    compare component by component, so [a/b.md] comes before [a.md]
    although the string ["a.md"] is smaller than the string ["a/b.md"]. *)
Example walk_corpus_filters :
  map Meta.file_path
    (walk_corpus fnmatch_glob ascii_lower
       (Some (Dir [ ("a.md", Reg (mkStat 1 1 1) None);
                    ("a", Dir [ ("b.md", Reg (mkStat 1 1 1) None);
                                ("~$x.md", Reg (mkStat 1 1 1) None);
                                (".h.md", Reg (mkStat 1 1 1) None);
                                ("c.TXT", Reg (mkStat 1 1 1) None);
                                ("d.exe", Reg (mkStat 1 1 1) None) ]);
                    (".git", Dir [ ("e.md", Reg (mkStat 1 1 1) None) ]) ]))
       None None) =
  ["a/b.md"; "a/c.TXT"; "a.md"] ∧
  String.ltb "a.md" "a/b.md" = true.
Proof. vm_compute. split; reflexivity. Qed.

(** C9 on the scenario corpus listed in two orders. *)
Lemma walk_corpus_deterministic_witness :
  wf_node scenario_tree ∧ wf_node scenario_tree_relisted ∧
  same_files scenario_tree scenario_tree_relisted ∧
  walk_corpus fnmatch_glob ascii_lower (Some scenario_tree) None None =
  walk_corpus fnmatch_glob ascii_lower (Some scenario_tree_relisted) None None.
Proof.
  split; [solve_wf|]. split; [solve_wf|].
  split; [apply scenario_relisted_same_files|].
  apply (walk_corpus_deterministic fnmatch_glob ascii_lower scenario_tree
           scenario_tree_relisted None None).
  - solve_wf.
  - solve_wf.
  - apply scenario_relisted_same_files.
Defined.

(** C1 as stated fails on a corpus whose only file cannot be read: the file
    is eligible and the catalog stays empty. *)
Lemma index_corpus_mirrors_counterexample :
  ¬ mirrors fnmatch_glob ascii_lower (Some unreadable_tree)
      DEFAULT_SKIP_PATTERNS DEFAULT_SUPPORTED_EXTENSIONS
      (rows (index_corpus fnmatch_glob ascii_lower sample_digest sample_clock
               (Some unreadable_tree) [] 0%nat None None)).
Proof.
  intros [_ H]. destruct (H "a.md") as [_ Hin].
  assert (Hrows : rows (index_corpus fnmatch_glob ascii_lower sample_digest sample_clock
                          (Some unreadable_tree) [] 0%nat None None) = [])
    by (vm_compute; reflexivity).
  rewrite Hrows in Hin. apply (not_elem_of_nil "a.md"). apply Hin.
  exists ["a.md"]. split; [|split; [|done]].
  - split; [done|]. by exists (mkStat 3 1 2), None.
  - split; [|split].
    + by repeat constructor.
    + by repeat constructor.
    + vm_compute. left.
Qed.

(** C1, amended, on the scenario corpus and an empty catalog. *)
Lemma index_corpus_mirrors_fingerprinted_witness :
  let final :=
    rows (index_corpus fnmatch_glob ascii_lower sample_digest sample_clock
            (Some scenario_tree) [] 0%nat None None) in
  NoDup (paths final) ∧
  ∀ s, s ∈ paths final ↔
       ∃ p, corpus_file (Some scenario_tree) p ∧
            eligible fnmatch_glob ascii_lower DEFAULT_SKIP_PATTERNS
              DEFAULT_SUPPORTED_EXTENSIONS p ∧
            Pathlib.str p = s ∧
            (is_Some (compute_file_hash sample_digest (Some scenario_tree) p) ∨
             s ∈ paths []).
Proof.
  apply (index_corpus_mirrors_fingerprinted fnmatch_glob ascii_lower sample_digest
           sample_clock (Some scenario_tree) [] 0%nat None None).
  - solve_wf.
  - solve_catalog_ok.
Defined.

(** C2 on an unreadable file that has an entry from an earlier run. *)
Lemma hash_failure_keeps_entry_witness :
  let r := sample_row 1 "a.md" "sha:old" in
  let m := record_of ascii_lower ["a.md"] (mkStat 3 1 2) in
  Meta.file_path m ∈
    (index_walk fnmatch_glob ascii_lower sample_digest sample_clock (Some unreadable_tree)
       [r] 0%nat None None).2 ∧
  r ∈ rows (index_corpus fnmatch_glob ascii_lower sample_digest sample_clock
              (Some unreadable_tree) [r] 0%nat None None).
Proof.
  apply (hash_failure_keeps_entry fnmatch_glob ascii_lower sample_digest sample_clock
           (Some unreadable_tree) [sample_row 1 "a.md" "sha:old"] 0%nat None None
           (record_of ascii_lower ["a.md"] (mkStat 3 1 2)) (sample_row 1 "a.md" "sha:old")).
  - solve_wf.
  - solve_catalog_ok.
  - vm_compute. left.
  - reflexivity.
  - left.
  - reflexivity.
Defined.

(** C3 as stated fails when the root is missing: the full run empties the
    catalog and returns statistics that count the deletion. *)
Lemma missing_root_counterexample :
  let db := [sample_row 1 "old.md" "sha:old"] in
  let w := index_corpus fnmatch_glob ascii_lower sample_digest sample_clock None db 0%nat
             None None in
  rows w = [] ∧ rows w ≠ db ∧
  stats w = {[ "new" := 0%nat; "updated" := 0%nat; "unchanged" := 0%nat;
               "deleted" := 1%nat; "total" := 0%nat ]}.
Proof. vm_compute. repeat split; done. Qed.

(** C3, amended, on a missing root. *)
Lemma missing_root_no_upsert_witness :
  let db := [sample_row 1 "old.md" "sha:old"] in
  let w := index_corpus fnmatch_glob ascii_lower sample_digest sample_clock None db 0%nat
             None None in
  walk_corpus fnmatch_glob ascii_lower None None None = [] ∧
  ((∀ r, r ∈ rows w → r ∈ db) ∧ ticks w = 0%nat ∧
   stats w !! "new" = Some 0%nat ∧ stats w !! "updated" = Some 0%nat ∧
   stats w !! "unchanged" = Some 0%nat ∧ stats w !! "total" = Some 0%nat) ∧
  reindex_changed fnmatch_glob ascii_lower sample_digest sample_clock None db 0%nat None None =
    mkWork db incremental_stats0 0%nat.
Proof.
  apply (missing_root_no_upsert fnmatch_glob ascii_lower sample_digest sample_clock None
           [sample_row 1 "old.md" "sha:old"] 0%nat None None).
  intros es. discriminate.
Defined.

(** C4 as stated fails on a corpus whose only file cannot be read: the
    second run scans one record and counts none as unchanged. *)
Lemma index_corpus_idempotent_counterexample :
  let run db t0 :=
    index_corpus fnmatch_glob ascii_lower sample_digest sample_clock (Some unreadable_tree)
      db t0 None None in
  let w1 := run [] 0%nat in
  let w2 := run (rows w1) (ticks w1) in
  stats w2 !! "unchanged" = Some 0%nat ∧ stats w2 !! "total" = Some 1%nat ∧
  stats w2 !! "unchanged" ≠ stats w2 !! "total".
Proof. vm_compute. repeat split; done. Qed.

(** C4, amended, on the scenario corpus. *)
Lemma index_corpus_idempotent_witness :
  let root := Some scenario_tree in
  let l := walk_corpus fnmatch_glob ascii_lower root None None in
  let failures :=
    length (filter (λ m, compute_file_hash sample_digest root
                           (Meta.absolute_path m) = None) l) in
  let w1 := index_corpus fnmatch_glob ascii_lower sample_digest sample_clock root [] 0%nat
              None None in
  let w2 := index_corpus fnmatch_glob ascii_lower sample_digest sample_clock root (rows w1)
              (ticks w1) None None in
  stats w2 =
    {[ "new" := 0%nat; "updated" := 0%nat;
       "unchanged" := (length l - failures)%nat;
       "deleted" := 0%nat; "total" := length l ]} ∧
  rows w2 = rows w1 ∧ ticks w2 = ticks w1.
Proof.
  apply (index_corpus_idempotent fnmatch_glob ascii_lower sample_digest sample_clock
           (Some scenario_tree) [] 0%nat None None).
  - solve_wf.
  - solve_catalog_ok.
Defined.

(** C5 on the scenario corpus once [a.md] is gone, with the entries of both
    files in the catalog. *)
Lemma deletion_full_mode_only_witness :
  let root := Some scenario_tree_removed in
  let db := [sample_row 1 "a.md" "sha:alpha";
             sample_row 2 "notes/b.txt" "sha:0123456789"] in
  let l := walk_corpus fnmatch_glob ascii_lower root None None in
  let unseen := filter (λ r, File.file_path r ∉ map Meta.file_path l) db in
  let w := index_corpus fnmatch_glob ascii_lower sample_digest sample_clock root db 0%nat
             None None in
  let w' := reindex_changed fnmatch_glob ascii_lower sample_digest sample_clock root db 0%nat
              None None in
  ((∀ r, r ∈ rows w → File.file_path r ∈ map Meta.file_path l) ∧
   stats w !! "deleted" = Some (length unseen)) ∧
  ((∀ r, r ∈ db → File.file_path r ∈ paths (rows w')) ∧
   (∀ r, r ∈ unseen → r ∈ rows w') ∧
   stats w' !! "deleted" = None ∧
   dom (stats w') = ({[ "new"; "updated"; "unchanged"; "total" ]} : gset string)).
Proof.
  apply (deletion_full_mode_only fnmatch_glob ascii_lower sample_digest sample_clock
           (Some scenario_tree_removed)
           [sample_row 1 "a.md" "sha:alpha";
            sample_row 2 "notes/b.txt" "sha:0123456789"] 0%nat None None).
  - solve_wf.
  - solve_catalog_ok.
Defined.

(** C6 on the scenario corpus: the bytes of [a.md] change, its size and
    timestamps do not; the second full run counts it as updated. *)
Lemma content_change_is_updated_witness :
  let m := record_of ascii_lower ["a.md"] (mkStat 500 1 2) in
  let w1 := index_corpus fnmatch_glob ascii_lower sample_digest sample_clock
              (Some scenario_tree) [] 0%nat None None in
  let before :=
    foldl (index_step sample_digest sample_clock (Some scenario_tree_edited))
      (mkWork (rows w1) full_stats0 (ticks w1), ∅) [] in
  let after :=
    (index_step sample_digest sample_clock (Some scenario_tree_edited)
       before m).1 in
  ∃ u n : nat,
    stats before.1 !! "updated" = Some u ∧
    stats before.1 !! "unchanged" = Some n ∧
    stats after !! "updated" = Some (S u) ∧
    stats after !! "unchanged" = Some n.
Proof.
  apply (proj2 (content_change_is_updated fnmatch_glob ascii_lower
                  sample_digest sample_clock
                  (Some scenario_tree) (Some scenario_tree_edited) [] 0%nat
                  None None ["a.md"] (mkStat 500 1 2) "alpha" "alpha-bis" []
                  [record_of ascii_lower ["notes"; "b.txt"] (mkStat 10 5 6)])).
  - solve_wf.
  - solve_wf.
  - solve_catalog_ok.
  - reflexivity.
  - reflexivity.
  - vm_compute. reflexivity.
Defined.

(** C7 on the scenario corpus with the entry of [a.md] already holding the
    fingerprint of its bytes. *)
Lemma unchanged_entry_untouched_witness :
  let root := Some scenario_tree in
  let r := sample_row 1 "a.md" "sha:alpha" in
  let m := record_of ascii_lower ["a.md"] (mkStat 500 1 2) in
  let before_full :=
    foldl (index_step sample_digest sample_clock root)
      (mkWork [r] full_stats0 0%nat, ∅) [] in
  let before_incremental :=
    foldl (reindex_step sample_digest sample_clock root)
      (mkWork [r] incremental_stats0 0%nat) [] in
  (index_step sample_digest sample_clock root before_full m).1 =
    counted "unchanged" before_full.1 ∧
  reindex_step sample_digest sample_clock root before_incremental m =
    counted "unchanged" before_incremental ∧
  r ∈ rows (index_corpus fnmatch_glob ascii_lower sample_digest sample_clock root [r] 0%nat
              None None) ∧
  r ∈ rows (reindex_changed fnmatch_glob ascii_lower sample_digest sample_clock root [r]
              0%nat None None).
Proof.
  apply (unchanged_entry_untouched fnmatch_glob ascii_lower sample_digest sample_clock
           (Some scenario_tree) [sample_row 1 "a.md" "sha:alpha"] 0%nat None None
           [] [record_of ascii_lower ["notes"; "b.txt"] (mkStat 10 5 6)]
           (record_of ascii_lower ["a.md"] (mkStat 500 1 2))
           (sample_row 1 "a.md" "sha:alpha") "sha:alpha").
  - solve_wf.
  - solve_catalog_ok.
  - vm_compute. reflexivity.
  - reflexivity.
  - left.
  - reflexivity.
  - reflexivity.
Defined.

(** C10 on a corpus whose only file cannot be read. *)
Lemma fingerprint_failures_counted_witness :
  let root := Some unreadable_tree in
  let l := walk_corpus fnmatch_glob ascii_lower root None None in
  let w := index_corpus fnmatch_glob ascii_lower sample_digest sample_clock root [] 0%nat
             None None in
  let w' := reindex_changed fnmatch_glob ascii_lower sample_digest sample_clock root []
              0%nat None None in
  length l = 1%nat ∧
  stats w !! "total" = Some 1%nat ∧ stats w !! "new" = Some 0%nat ∧
  rows w = [] ∧ rows w' = [] ∧
  ∀ m, m ∈ l →
       compute_file_hash sample_digest root (Meta.absolute_path m) = None →
       Meta.file_path m ∉ paths [] →
       (Meta.file_path m ∉ paths (rows w)) ∧ (Meta.file_path m ∉ paths (rows w')).
Proof.
  split; [reflexivity|]. split; [reflexivity|]. split; [reflexivity|].
  split; [reflexivity|]. split; [reflexivity|].
  apply (fingerprint_failures_counted fnmatch_glob ascii_lower sample_digest sample_clock
           (Some unreadable_tree) [] 0%nat None None).
  - solve_wf.
  - solve_catalog_ok.
Defined.

(** * Further properties of the indexer *)

Section IndexerMore.

Variable fnmatch : string → string → bool.
Variable lower : string → string.
Variable sha256 : string → string.
Variable clock : nat → Z.

Local Abbreviation walk := (walk_corpus fnmatch lower).
Local Abbreviation hash := (compute_file_hash sha256).
Local Abbreviation full := (index_corpus fnmatch lower sha256 clock).
Local Abbreviation incremental := (reindex_changed fnmatch lower sha256 clock).
Local Abbreviation rstep := (reindex_step sha256 clock).

Lemma loop_ticks (root : option node) (l : list Meta.t) (w : Work) :
  (ticks w ≤ ticks (foldl (rstep root) w l))%nat.
Proof.
  revert w. induction l as [|m l IH]; intros w; simpl; [done|].
  etrans; [|apply IH].
  unfold reindex_step, reconcile. simpl.
  destruct (hash _ _); [|done].
  destruct (query_first _ _); simpl; [|lia].
  destruct (decide _); simpl; lia.
Qed.

Lemma loop_length (root : option node) (l : list Meta.t) (w : Work) :
  NoDup (map Meta.file_path l) → catalog_ok (rows w) →
  length (rows (foldl (rstep root) w l)) =
  (length (rows w) + branch_count sha256 root (rows w) l New)%nat.
Proof.
  revert w. induction l as [|m l IH]; intros w Hnd Hok; simpl.
  { unfold branch_count. simpl. lia. }
  simpl in Hnd. apply NoDup_cons in Hnd as [Hm Hnd].
  destruct (reindex_step_rows sha256 clock root w m) as [Hrows _].
  rewrite IH; [| done | rewrite Hrows; by apply reconcile_catalog_ok].
  assert (Hb : branch_count sha256 root (rows (rstep root w m)) l New
               = branch_count sha256 root (rows w) l New).
  { unfold branch_count. f_equal. apply filter_ext_elem. intros m' Hm'.
    rewrite (classify_ext sha256 root _ (rows w)); [done|].
    rewrite Hrows. apply reconcile_query_other; [apply Hok|].
    intros Heq. apply Hm. rewrite <- Heq. apply list_elem_of_fmap. by exists m'. }
  rewrite Hb, Hrows.
  assert (Hlen : length (rows (reconcile sha256 clock root w m)) =
                 length (paths (rows (reconcile sha256 clock root w m))))
    by (unfold paths; by rewrite length_map).
  rewrite Hlen, reconcile_paths by apply Hok.
  rewrite length_app. unfold paths at 1. rewrite length_map.
  unfold branch_count at 2. rewrite filter_cons.
  destruct (decide (classify sha256 root (rows w) m = New)); simpl;
    unfold branch_count; lia.
Qed.

Lemma filter_length_split {A} (P : A → Prop) `{∀ x, Decision (P x)} (l : list A) :
  (length (filter P l) + length (filter (λ x, ¬ P x) l) = length l)%nat.
Proof.
  induction l as [|a l IH]; [done|].
  rewrite !filter_cons. destruct (decide (P a)), (decide (¬ P a)); simpl; try lia; tauto.
Qed.

(** X1. No run breaks the constraints of the table: after a full or an
    incremental run the primary keys are distinct and so are the paths,
    whatever the tree. *)
Theorem runs_keep_constraints (root : option node) (db : list File.t)
    (t0 : nat) (skip_patterns supported_extensions : option (list string)) :
  catalog_ok db →
  catalog_ok (rows (full root db t0 skip_patterns supported_extensions)) ∧
  catalog_ok (rows (incremental root db t0 skip_patterns supported_extensions)).
Proof.
  intros Hok. split.
  - by apply full_catalog_ok.
  - unfold reindex_changed. by apply loop_catalog_ok.
Qed.

(** X2. The statistics account for the size of the catalog: a full run leaves
    as many rows as there were, plus new, minus deleted; an incremental
    run as many as there were, plus new. *)
Theorem runs_account_for_rows (root : option node) (db : list File.t)
    (t0 : nat) (skip_patterns supported_extensions : option (list string)) :
  wf_root root → catalog_ok db →
  let w := full root db t0 skip_patterns supported_extensions in
  let w' := incremental root db t0 skip_patterns supported_extensions in
  ∃ n d,
    stats w !! "new" = Some n ∧ stats w !! "deleted" = Some d ∧
    stats w' !! "new" = Some n ∧
    (length (rows w) + d = length db + n)%nat ∧
    length (rows w') = (length db + n)%nat.
Proof.
  intros Hwf Hok w w'.
  set (l := walk root skip_patterns supported_extensions).
  exists (branch_count sha256 root db l New),
         (length (filter (λ r, File.file_path r ∉ map Meta.file_path l) db)).
  pose proof (walk_corpus_NoDup fnmatch lower root skip_patterns supported_extensions
                Hwf) as Hnd.
  split; [|split; [|split; [|split]]].
  - unfold w. rewrite index_corpus_stats by done. by simplify_map_eq.
  - unfold w. rewrite index_corpus_stats by done. by simplify_map_eq.
  - unfold w'. rewrite reindex_changed_stats by done. by simplify_map_eq.
  - unfold w. rewrite index_corpus_rows by done.
    pose proof (index_walk_unseen fnmatch lower sha256 clock root db t0 skip_patterns
                  supported_extensions Hok) as Hun.
    fold l in Hun |- *. rewrite <- Hun, filter_length_split.
    rewrite index_walk_unfold. simpl. fold l.
    by rewrite loop_length.
  - unfold w', reindex_changed. fold l. by rewrite loop_length.
Qed.

(** X3. After a run the entry of every file the run could fingerprint holds
    the digest of the bytes the file has now. *)
Theorem runs_store_fresh_hash (root : option node) (db : list File.t)
    (t0 : nat) (skip_patterns supported_extensions : option (list string))
    (m : Meta.t) (h : string) :
  wf_root root → catalog_ok db →
  m ∈ walk root skip_patterns supported_extensions →
  hash root (Meta.absolute_path m) = Some h →
  (∃ r, query_first (rows (full root db t0 skip_patterns supported_extensions))
          (Meta.file_path m) = Some r ∧ File.file_hash r = Some h) ∧
  (∃ r, query_first
          (rows (incremental root db t0 skip_patterns supported_extensions))
          (Meta.file_path m) = Some r ∧ File.file_hash r = Some h).
Proof.
  intros Hwf Hok Hm Hh. split.
  - by apply full_query_hash.
  - unfold reindex_changed.
    apply loop_query_same; [by apply walk_corpus_NoDup | done..].
Qed.

End IndexerMore.

(** ** The shape of a walked record *)

Lemma string_app_assoc (a b c : string) :
  ((a ++ b) ++ c)%string = (a ++ (b ++ c))%string.
Proof.
  induction a as [|x a IH]; [done|].
  change (String x ((a ++ b) ++ c) = String x (a ++ (b ++ c)))%string.
  by f_equal.
Qed.

Lemma join_snoc (ps : list string) (x : string) :
  ps ≠ [] →
  Pathlib.join "/" (ps ++ [x]) = (Pathlib.join "/" ps ++ "/" ++ x)%string.
Proof.
  induction ps as [|a ps IH]; [done|]. intros _.
  destruct ps as [|b ps]; [done|].
  change (Pathlib.join "/" ((a :: b :: ps) ++ [x]))
    with (a ++ "/" ++ Pathlib.join "/" ((b :: ps) ++ [x]))%string.
  rewrite IH by done.
  change (Pathlib.join "/" (a :: b :: ps))
    with (a ++ "/" ++ Pathlib.join "/" (b :: ps))%string.
  by rewrite !string_app_assoc.
Qed.

Lemma startswith_sep_false (c : ascii) (s : string) :
  c ≠ "/"%char → Pathlib.startswith "/" (String c s) = false.
Proof.
  intros Hc. unfold Pathlib.startswith.
  destruct c as [[] [] [] [] [] [] [] []]; try done.
Qed.

Lemma walk_corpus_item (fnmatch : string → string → bool)
    (lower : string → string) (root : option node)
    (skip exts : option (list string)) (m : Meta.t) :
  m ∈ walk_corpus fnmatch lower root skip exts →
  ∃ p stat,
    eligible fnmatch lower (default DEFAULT_SKIP_PATTERNS skip)
      (default DEFAULT_SUPPORTED_EXTENSIONS exts) p ∧
    m = record_of lower p stat.
Proof.
  unfold walk_corpus. destruct root as [[st0 data0|es]|];
    try by intros ?%elem_of_nil.
  intros ([p n] & _ & Hm)%list_elem_of_omap.
  apply walk_item_Some in Hm as (stat & data & _ & He & ->). by exists p, stat.
Qed.

Lemma record_of_snoc (lower : string → string) (q : list string) (nm : string)
    (stat : Stat) :
  Meta.file_name (record_of lower (q ++ [nm]) stat) = nm ∧
  Meta.parent_dir (record_of lower (q ++ [nm]) stat) =
    (if decide (q = []) then "" else Pathlib.str q) ∧
  Meta.file_path (record_of lower (q ++ [nm]) stat) = Pathlib.str (q ++ [nm]) ∧
  Meta.corpus_section (record_of lower (q ++ [nm]) stat) =
    determine_corpus_section (Pathlib.str (q ++ [nm])).
Proof.
  unfold record_of, Pathlib.name, Pathlib.parent. simpl.
  by rewrite last_last, removelast_last.
Qed.

(** X4. A walked record names its file consistently: the relative path is
    never empty and never starts with a separator, it is the parent
    directory joined with the file name (the file name alone at the root),
    and the section is the first component of the parent directory. *)
Theorem walked_record_shape (fnmatch : string → string → bool)
    (lower : string → string)
    (root : option node)
    (skip_patterns supported_extensions : option (list string)) (m : Meta.t) :
  wf_root root →
  m ∈ walk_corpus fnmatch lower root skip_patterns supported_extensions →
  Meta.file_path m ≠ "" ∧
  Pathlib.startswith "/" (Meta.file_path m) = false ∧
  Meta.file_path m =
    (if decide (Meta.parent_dir m = "") then Meta.file_name m
     else Meta.parent_dir m ++ "/" ++ Meta.file_name m)%string ∧
  Meta.corpus_section m = head (Pathlib.parts (Meta.parent_dir m)) ∧
  (Meta.corpus_section m = None ↔ Meta.parent_dir m = "").
Proof.
  intros Hwf Hm.
  destruct (walk_corpus_record fnmatch lower root skip_patterns supported_extensions m
              Hwf Hm) as (Hne & Hval & _).
  apply walk_corpus_item in Hm as (p & stat & _ & ->).
  change (Meta.absolute_path (record_of lower p stat)) with p in Hne, Hval.
  rewrite (app_removelast_last "" Hne) in Hval |- *.
  set (q := removelast p) in *. set (nm := List.last p "") in *. clearbody q nm.
  destruct (record_of_snoc lower q nm stat) as (-> & -> & -> & ->).
  apply Forall_app in Hval as [Vq Vnm].
  rewrite determine_corpus_section_str by (by apply Forall_app).
  destruct q as [|b qs].
  - simpl. rewrite Forall_singleton in Vnm.
    destruct (join_head_char nm []) as (c & s & Hc & Hj); [done|].
    simpl in Hj. subst nm.
    split; [done|]. split; [by apply startswith_sep_false|]. done.
  - destruct (decide (b :: qs = [])) as [|_]; [done|].
    destruct (join_head_char b qs) as (c & s & Hc & Hj).
    { by apply Forall_cons in Vq as [? _]. }
    assert (Hstr : Pathlib.str ((b :: qs) ++ [nm]) =
                   (Pathlib.str (b :: qs) ++ "/" ++ nm)%string).
    { unfold Pathlib.str. rewrite join_snoc by done. by destruct qs. }
    assert (Hq : Pathlib.str (b :: qs) ≠ "").
    { unfold Pathlib.str. by rewrite Hj. }
    rewrite decide_False by done. rewrite parts_str by done.
    rewrite Hstr. unfold Pathlib.str at 1 2. rewrite Hj.
    split; [done|]. split; [by apply startswith_sep_false|].
    split; [done|]. split; [by destruct qs|].
    split; [by destruct qs | done].
Qed.

(** X5. The extension a walked record carries is [str.lower()] of the
    suffix of its file name, and it is one of the supported extensions: it
    is the extension of the file that is lower-cased, never the entries of
    the list.  A supported extension that [str.lower()] returns for no
    string, as [.MD] is, therefore admits no file at all. *)
Theorem walked_extension_normalised (fnmatch : string → string → bool)
    (lower : string → string) (root : option node)
    (skip_patterns supported_extensions : option (list string)) (m : Meta.t) :
  m ∈ walk_corpus fnmatch lower root skip_patterns supported_extensions →
  Meta.file_extension m ∈
    default DEFAULT_SUPPORTED_EXTENSIONS supported_extensions ∧
  Meta.file_extension m = lower (Pathlib.suffix (Meta.file_name m)) ∧
  ∀ e, (∀ s, lower s ≠ e) → Meta.file_extension m ≠ e.
Proof.
  intros (p & stat & (_ & _ & He) & ->)%walk_corpus_item. simpl.
  split; [done|]. split; [done|].
  intros e He' Heq. by apply (He' (Pathlib.suffix (Pathlib.name p))).
Qed.

(** X6. Skip patterns are matched against the name of the file only: a file
    that is not hidden and has a supported extension is walked exactly
    when its own name matches no pattern, whatever the names of the
    directories above it. *)
Theorem skip_patterns_spare_directories (fnmatch : string → string → bool)
    (lower : string → string)
    (tree : node) (skip_patterns supported_extensions : option (list string))
    (dirs : list string) (name : string) (stat : Stat) (data : option string) :
  wf_root (Some tree) →
  fs_lookup tree (dirs ++ [name]) = Some (Reg stat data) →
  Forall (λ part, Pathlib.startswith "." part = false) (dirs ++ [name]) →
  lower (Pathlib.suffix name) ∈
    default DEFAULT_SUPPORTED_EXTENSIONS supported_extensions →
  record_of lower (dirs ++ [name]) stat ∈
    walk_corpus fnmatch lower (Some tree) skip_patterns supported_extensions ↔
  Forall (λ pattern, fnmatch name pattern = false)
    (default DEFAULT_SKIP_PATTERNS skip_patterns).
Proof.
  intros Hwf Hl Hhid Hext.
  assert (Hname : Pathlib.name (dirs ++ [name]) = name).
  { unfold Pathlib.name. by rewrite last_last. }
  rewrite elem_of_walk_corpus by done. split.
  - intros (p & stat' & data' & _ & _ & (_ & Hskip & _) & Hrec).
    assert (Hp : dirs ++ [name] = p).
    { change (Meta.absolute_path (record_of lower (dirs ++ [name]) stat) = p).
      by rewrite Hrec. }
    subst p. by rewrite Hname in Hskip.
  - intros Hskip. exists (dirs ++ [name]), stat, data.
    split; [by destruct dirs|]. split; [done|]. split; [|done].
    unfold eligible. rewrite Hname. done.
Qed.

(** ** What a run writes *)

Section Written.

Variable fnmatch : string → string → bool.
Variable lower : string → string.
Variable sha256 : string → string.
Variable clock : nat → Z.

Local Abbreviation walk := (walk_corpus fnmatch lower).
Local Abbreviation hash := (compute_file_hash sha256).
Local Abbreviation full := (index_corpus fnmatch lower sha256 clock).
Local Abbreviation incremental := (reindex_changed fnmatch lower sha256 clock).
Local Abbreviation rstep := (reindex_step sha256 clock).

(** A row written at the turn of a record is still there when the walking
    loop ends. *)
Lemma written_row_stays (root : option node) (skip exts : option (list string))
    (l1 l2 : list Meta.t) (m : Meta.t) (w0 : Work) (r : File.t) :
  wf_root root → catalog_ok (rows w0) →
  walk root skip exts = l1 ++ m :: l2 →
  r ∈ rows (rstep root (foldl (rstep root) w0 l1) m) →
  File.file_path r = Meta.file_path m →
  r ∈ rows (foldl (rstep root) w0 (walk root skip exts)).
Proof.
  intros Hwf Hok Hsplit Hr Hp.
  pose proof (walk_corpus_NoDup fnmatch lower root skip exts Hwf) as Hnd.
  rewrite Hsplit in Hnd |- *. rewrite foldl_app. simpl.
  apply loop_frame; [|done|].
  - destruct (reindex_step_rows sha256 clock root (foldl (rstep root) w0 l1) m)
      as [-> _].
    apply reconcile_catalog_ok. by apply loop_catalog_ok.
  - intros m' Hm' Hp'. exfalso.
    rewrite map_app in Hnd. apply NoDup_app in Hnd as (_ & _ & Hnd).
    simpl in Hnd. apply NoDup_cons in Hnd as [Hnd _]. apply Hnd.
    apply list_elem_of_fmap. exists m'. split; [congruence | done].
Qed.

Lemma both_runs_keep (root : option node) (db : list File.t) (t0 : nat)
    (skip exts : option (list string)) (m : Meta.t)
    (P : nat → File.t → Prop) :
  catalog_ok db → m ∈ walk root skip exts →
  (∀ stats0,
     let w := foldl (rstep root) (mkWork db stats0 t0) (walk root skip exts) in
     ∃ r, r ∈ rows w ∧ File.file_path r = Meta.file_path m ∧ P (ticks w) r) →
  (∃ r, r ∈ rows (full root db t0 skip exts) ∧
        P (ticks (full root db t0 skip exts)) r) ∧
  (∃ r, r ∈ rows (incremental root db t0 skip exts) ∧
        P (ticks (incremental root db t0 skip exts)) r).
Proof.
  intros Hok Hm Hr. split.
  - destruct (Hr full_stats0) as (r & Hin & Hp & HP). exists r. split.
    + apply (full_keeps_seen _ _ _ _ _ _ _ _ _ m); [done..|].
      by rewrite index_walk_unfold.
    + by rewrite index_corpus_ticks, index_walk_unfold.
  - destruct (Hr incremental_stats0) as (r & Hin & Hp & HP). by exists r.
Qed.

(** The reading taken at the turn of a record is one of the readings of
    the run. *)
Lemma turn_tick (root : option node) (l1 l2 : list Meta.t) (m : Meta.t)
    (w0 : Work) :
  ticks (rstep root (foldl (rstep root) w0 l1) m) =
    S (ticks (foldl (rstep root) w0 l1)) →
  (ticks w0 ≤ ticks (foldl (rstep root) w0 l1) <
   ticks (foldl (rstep root) w0 (l1 ++ m :: l2)))%nat.
Proof.
  intros Hstep. split; [apply (loop_ticks sha256 clock)|].
  rewrite foldl_app. simpl.
  pose proof (loop_ticks sha256 clock root l2
                (rstep root (foldl (rstep root) w0 l1) m)) as Hle.
  rewrite Hstep in Hle. lia.
Qed.

(** X7. When the digest of a file differs from the one its entry holds, the
    run rewrites the entry in place: the primary key, the path and the
    extracted text stay, the metadata and the digest are those of the file
    now, and [indexed_at] is one of the readings of the clock the run
    takes: the run starts with reading [t0] and ends before the reading
    numbered by its final count. *)
Theorem update_rewrites_in_place (root : option node) (db : list File.t)
    (t0 : nat) (skip_patterns supported_extensions : option (list string))
    (m : Meta.t) (r : File.t) (h : string) :
  wf_root root → catalog_ok db →
  m ∈ walk root skip_patterns supported_extensions →
  hash root (Meta.absolute_path m) = Some h →
  r ∈ db → File.file_path r = Meta.file_path m → File.file_hash r ≠ Some h →
  let written (t_end : nat) (r' : File.t) :=
    File.id r' = File.id r ∧ File.file_path r' = File.file_path r ∧
    File.content_text r' = File.content_text r ∧
    File.file_hash r' = Some h ∧
    File.file_name r' = Meta.file_name m ∧
    File.file_extension r' = Meta.file_extension m ∧
    File.file_size_bytes r' = Meta.file_size_bytes m ∧
    File.parent_dir r' = Meta.parent_dir m ∧
    File.corpus_section r' = Meta.corpus_section m ∧
    File.created_at r' = Some (Meta.created_at m) ∧
    File.modified_at r' = Some (Meta.modified_at m) ∧
    ∃ t, (t0 ≤ t < t_end)%nat ∧ File.indexed_at r' = clock t in
  let w := full root db t0 skip_patterns supported_extensions in
  let w' := incremental root db t0 skip_patterns supported_extensions in
  (∃ r', r' ∈ rows w ∧ written (ticks w) r') ∧
  (∃ r', r' ∈ rows w' ∧ written (ticks w') r').
Proof.
  intros Hwf Hok Hm Hh Hr Hp Hne written w w'.
  apply (both_runs_keep _ _ _ _ _ m); [done..|]. intros stats0.
  destruct (list_elem_of_split _ _ Hm) as (l1 & l2 & Hsplit).
  set (w0 := mkWork db stats0 t0).
  set (before := foldl (rstep root) w0 l1).
  assert (Hq : query_first (rows before) (Meta.file_path m) = Some r).
  { unfold before.
    rewrite (turn_query fnmatch lower sha256 clock root skip_patterns
               supported_extensions l1 l2 m w0); [|done..].
    simpl. rewrite <- Hp. apply query_first_elem; [apply Hok | done]. }
  assert (Hstep : rstep root before m =
            mkWork (session_store (rows before)
                      (updated_row r m (clock (ticks before)) h))
                   (incr "updated" (incr "total" (stats before)))
                   (S (ticks before))).
  { unfold reindex_step, reconcile. simpl.
    by rewrite Hh, Hq, decide_False by done. }
  simpl. exists (updated_row r m (clock (ticks before)) h). split; [|split].
  - apply (written_row_stays root skip_patterns supported_extensions l1 l2 m);
      [done..| |by simpl].
    fold before. rewrite Hstep. simpl.
    apply query_first_Some in Hq as [Hin _].
    apply list_elem_of_fmap. exists r. by rewrite decide_True.
  - by simpl.
  - unfold written. simpl. repeat split; try done.
    exists (ticks before). split; [|done]. rewrite Hsplit.
    apply (turn_tick root l1 l2 m w0). fold before. by rewrite Hstep.
Qed.

(** X8. A file with no entry that the run can fingerprint gets a row of its
    own: a primary key no earlier row has, the path, metadata and digest
    of the file, no extracted text, and as [indexed_at] one of the
    readings of the clock the run takes. *)
Theorem insert_adds_row (root : option node) (db : list File.t)
    (t0 : nat) (skip_patterns supported_extensions : option (list string))
    (m : Meta.t) (h : string) :
  wf_root root → catalog_ok db →
  m ∈ walk root skip_patterns supported_extensions →
  hash root (Meta.absolute_path m) = Some h →
  Meta.file_path m ∉ paths db →
  let written (t_end : nat) (r' : File.t) :=
    (File.id r' ∉ map File.id db) ∧ File.file_path r' = Meta.file_path m ∧
    File.content_text r' = None ∧
    File.file_hash r' = Some h ∧
    File.file_name r' = Meta.file_name m ∧
    File.file_extension r' = Meta.file_extension m ∧
    File.file_size_bytes r' = Meta.file_size_bytes m ∧
    File.parent_dir r' = Meta.parent_dir m ∧
    File.corpus_section r' = Meta.corpus_section m ∧
    File.created_at r' = Some (Meta.created_at m) ∧
    File.modified_at r' = Some (Meta.modified_at m) ∧
    ∃ t, (t0 ≤ t < t_end)%nat ∧ File.indexed_at r' = clock t in
  let w := full root db t0 skip_patterns supported_extensions in
  let w' := incremental root db t0 skip_patterns supported_extensions in
  (∃ r', r' ∈ rows w ∧ written (ticks w) r') ∧
  (∃ r', r' ∈ rows w' ∧ written (ticks w') r').
Proof.
  intros Hwf Hok Hm Hh Hnew written w w'.
  apply (both_runs_keep _ _ _ _ _ m); [done..|]. intros stats0.
  destruct (list_elem_of_split _ _ Hm) as (l1 & l2 & Hsplit).
  set (w0 := mkWork db stats0 t0).
  set (before := foldl (rstep root) w0 l1).
  assert (Hq : query_first (rows before) (Meta.file_path m) = None).
  { unfold before.
    rewrite (turn_query fnmatch lower sha256 clock root skip_patterns
               supported_extensions l1 l2 m w0); [|done..].
    simpl. by apply query_first_None. }
  assert (Hstep : rstep root before m =
            mkWork (session_add (rows before)
                      (new_row m (clock (ticks before)) h))
                   (incr "new" (incr "total" (stats before)))
                   (S (ticks before))).
  { unfold reindex_step, reconcile. simpl. by rewrite Hh, Hq. }
  simpl.
  exists (new_row m (clock (ticks before)) h (fresh_id (rows before))).
  split; [|split].
  - apply (written_row_stays root skip_patterns supported_extensions l1 l2 m);
      [done..| |by simpl].
    fold before. rewrite Hstep. simpl.
    unfold session_add. apply elem_of_app. right. left.
  - by simpl.
  - unfold written. simpl. repeat split; try done.
    + intros Hin.
      assert (Hids : ∀ l w, map File.id (rows w) ⊆
                            map File.id (rows (foldl (rstep root) w l))).
      { clear. intros l. induction l as [|m' l IH]; intros w; simpl; [done|].
        etrans; [|apply IH].
        destruct (reindex_step_rows sha256 clock root w m') as [-> _].
        rewrite reconcile_ids. intros x Hx. apply elem_of_app. by left. }
      apply (fresh_id_fresh (rows before)). by apply (Hids l1 w0).
    + exists (ticks before). split; [|done]. rewrite Hsplit.
      apply (turn_tick root l1 l2 m w0). fold before. by rewrite Hstep.
Qed.

(** ** Runs in sequence *)

(** X9. A full run right after an incremental run over the same tree finds
    nothing to insert or update: it counts every readable file as
    unchanged and deletes exactly the entries of the starting catalog whose
    path the walk does not meet. *)
Theorem full_after_incremental (root : option node) (db : list File.t)
    (t0 : nat) (skip_patterns supported_extensions : option (list string)) :
  wf_root root → catalog_ok db →
  let l := walk root skip_patterns supported_extensions in
  let failures :=
    length (filter (λ m, hash root (Meta.absolute_path m) = None) l) in
  let w1 := incremental root db t0 skip_patterns supported_extensions in
  let w2 := full root (rows w1) (ticks w1) skip_patterns supported_extensions in
  stats w2 =
    {[ "new" := 0%nat; "updated" := 0%nat;
       "unchanged" := (length l - failures)%nat;
       "deleted" :=
         length (filter (λ r, File.file_path r ∉ map Meta.file_path l) db);
       "total" := length l ]} ∧
  rows w2 = filter (λ r, File.file_path r ∈ map Meta.file_path l) (rows w1) ∧
  ticks w2 = ticks w1.
Proof.
  intros Hwf Hok l failures w1 w2.
  pose proof (walk_corpus_NoDup fnmatch lower root skip_patterns supported_extensions
                Hwf) as Hnd.
  assert (Hok1 : catalog_ok (rows w1)).
  { unfold w1, reindex_changed. by apply loop_catalog_ok. }
  assert (Hcl : ∀ m, m ∈ l →
            classify sha256 root (rows w1) m =
            if decide (hash root (Meta.absolute_path m) = None)
            then Failed else Unchanged).
  { intros m Hm.
    destruct (hash root (Meta.absolute_path m)) as [h|] eqn:Hh.
    - rewrite decide_False by done.
      destruct (loop_query_same sha256 clock root l
                  (mkWork db incremental_stats0 t0) m h) as (r & Hq & Hr);
        [done..|].
      unfold classify. fold w1 in Hq. unfold w1, reindex_changed. fold l.
      by rewrite Hh, Hq, decide_True.
    - rewrite decide_True by done. by apply classify_hash. }
  assert (Hsame : rows (index_walk fnmatch lower sha256 clock root (rows w1) (ticks w1)
                          skip_patterns supported_extensions).1 = rows w1 ∧
                  ticks (index_walk fnmatch lower sha256 clock root (rows w1) (ticks w1)
                          skip_patterns supported_extensions).1 = ticks w1).
  { rewrite index_walk_unfold. simpl. fold l.
    apply (loop_rows_same sha256 clock root l
             (mkWork (rows w1) full_stats0 (ticks w1))). simpl.
    intros m Hm. rewrite Hcl by done. destruct (decide _); auto. }
  destruct Hsame as [Hrows Hticks].
  split; [|split].
  - unfold w2. rewrite index_corpus_stats by done. fold l.
    pose proof (branch_count_sum sha256 root (rows w1) l) as Hsum.
    rewrite branch_count_Failed in Hsum. fold failures in Hsum.
    assert (HN : branch_count sha256 root (rows w1) l New = 0%nat).
    { unfold branch_count. rewrite filter_none; [done|].
      intros m Hm. rewrite Hcl by done. by destruct (decide _). }
    assert (HU : branch_count sha256 root (rows w1) l Updated = 0%nat).
    { unfold branch_count. rewrite filter_none; [done|].
      intros m Hm. rewrite Hcl by done. by destruct (decide _). }
    assert (HD : filter (λ r, File.file_path r ∉ map Meta.file_path l) (rows w1)
                 = filter (λ r, File.file_path r ∉ map Meta.file_path l) db).
    { unfold w1, reindex_changed. fold l.
      rewrite loop_filter; [done | done |].
      intros m x Hm Hp Hx. apply Hx. rewrite Hp.
      apply list_elem_of_fmap. by exists m. }
    rewrite HD. rewrite HN, HU in Hsum |- *.
    replace (branch_count sha256 root (rows w1) l Unchanged)
      with (length l - failures)%nat by lia.
    done.
  - unfold w2. rewrite index_corpus_rows by done. by rewrite Hrows.
  - unfold w2. by rewrite index_corpus_ticks.
Qed.

(** X10. When the walk yields no record (no eligible file below the root, or a
    root that is not a directory) a full run deletes every entry of the
    catalog and counts each one in deleted. *)
Theorem full_run_on_empty_walk (root : option node) (db : list File.t)
    (t0 : nat) (skip_patterns supported_extensions : option (list string)) :
  walk root skip_patterns supported_extensions = [] →
  full root db t0 skip_patterns supported_extensions =
  mkWork []
    {[ "new" := 0%nat; "updated" := 0%nat; "unchanged" := 0%nat;
       "deleted" := length db; "total" := 0%nat ]}
    t0.
Proof.
  intros Hwalk. rewrite index_corpus_unfold, Hwalk. simpl.
  set (w := foldl _ _ db).
  assert (Hrows : rows w = []).
  { unfold w. rewrite delete_loop_rows. simpl. apply filter_none.
    intros x Hx Hid. apply Hid. apply list_elem_of_fmap. exists x.
    split; [done|]. apply list_elem_of_filter. split; [set_solver | done]. }
  assert (Hticks : ticks w = t0) by (unfold w; by rewrite delete_loop_ticks).
  assert (Hstats : stats w = {[ "new" := 0%nat; "updated" := 0%nat;
                                "unchanged" := 0%nat; "deleted" := length db;
                                "total" := 0%nat ]}).
  { apply map_eq. intros k. unfold w. rewrite delete_loop_stats. simpl.
    rewrite filter_all by (intros; set_solver).
    unfold full_stats0.
    destruct (decide (k = "deleted")) as [->|]; [by simplify_map_eq|].
    destruct (decide (k = "new")) as [->|]; [by simplify_map_eq|].
    destruct (decide (k = "updated")) as [->|]; [by simplify_map_eq|].
    destruct (decide (k = "unchanged")) as [->|]; [by simplify_map_eq|].
    destruct (decide (k = "total")) as [->|]; by simplify_map_eq. }
  destruct w as [rw sw tw]. simpl in *. by subst.
Qed.

End Written.

(** * Search *)

Lemma page_count_covers (total per_page : Z) :
  (0 ≤ total)%Z → (1 ≤ per_page)%Z →
  (1 ≤ page_count total per_page ∧
   total ≤ page_count total per_page * per_page ∧
   (0 < total → (page_count total per_page - 1) * per_page < total))%Z.
Proof.
  intros Ht Hp. unfold page_count.
  pose proof (Z.div_mod (total + per_page - 1) per_page) as Hdm.
  pose proof (Z.mod_pos_bound (total + per_page - 1) per_page) as Hmod.
  set (q := ((total + per_page - 1) / per_page)%Z) in *.
  set (r := ((total + per_page - 1) mod per_page)%Z) in *.
  split; [lia|]. split; [nia|]. intros Hpos.
  assert (1 ≤ q)%Z by nia. nia.
Qed.

Lemma sqlite_integer_spec (n : Z) :
  sqlite_integer n = true ↔
  (-9223372036854775808 ≤ n ≤ 9223372036854775807)%Z.
Proof. unfold sqlite_integer. rewrite andb_true_iff, !Z.leb_le. done. Qed.

(** The page [execute_search] serves when offset and limit are SQLite
    integers. *)
Lemma execute_search_served (query : list File.t) (params : SearchParams.t) :
  let per_page := SearchParams.per_page params in
  let total := Z.of_nat (length query) in
  let pages := page_count total per_page in
  let page := Z.min (SearchParams.page params) pages in
  (1 ≤ per_page ≤ 9223372036854775807)%Z → (1 ≤ SearchParams.page params)%Z →
  (total ≤ 9223372036854775807)%Z →
  execute_search query params =
    inr {[ "files" := SFiles (take (Z.to_nat per_page)
                               (drop (Z.to_nat ((page - 1) * per_page)) query));
           "total" := SInt total; "page" := SInt page;
           "per_page" := SInt per_page; "pages" := SInt pages ]} ∧
  (1 ≤ page ≤ pages)%Z ∧
  ((page - 1) * per_page < Z.max total 1)%Z.
Proof.
  intros per_page total pages page Hpp Hpage Htotal.
  destruct (page_count_covers total per_page) as (Hp1 & Hp2 & Hp3);
    [lia | lia |].
  fold pages in Hp1, Hp2, Hp3.
  assert (Hoff : ((page - 1) * per_page < Z.max total 1)%Z).
  { destruct (decide (total = 0%Z)) as [Hz|Hz].
    - assert (pages = 1%Z) as Hone.
      { unfold pages, page_count. rewrite Hz.
        rewrite Z.div_small by lia. lia. }
      unfold page. rewrite Hone. lia.
    - specialize (Hp3 ltac:(lia)). unfold page. nia. }
  split; [|split; [unfold page; lia | done]].
  unfold execute_search. fold per_page total.
  rewrite decide_False by lia.
  change (Z.max 1 ((total + per_page - 1) / per_page)) with pages.
  fold page. unfold sql_offset, sql_limit.
  assert (sqlite_integer ((page - 1) * per_page) = true) as ->.
  { apply sqlite_integer_spec. unfold page. nia. }
  simpl.
  assert (sqlite_integer per_page = true) as ->
    by (apply sqlite_integer_spec; lia).
  assert ((per_page <? 0)%Z = false) as -> by lia. done.
Qed.


(** [execute_search] divides by zero exactly when the page size is 0, and
    the dict it returns has the keys files, total, page, per_page and
    pages. *)
Lemma execute_search_keys (query : list File.t) (params : SearchParams.t) :
  (execute_search query params = inl ZeroDivisionError ↔
   SearchParams.per_page params = 0%Z) ∧
  ∀ d, execute_search query params = inr d →
       dom d = ({[ "files"; "total"; "page"; "per_page"; "pages" ]} : gset string).
Proof.
  unfold execute_search. destruct (decide _) as [Hz|Hz]; split; try done.
  - by destruct (_ ≫= _).
  - destruct (_ ≫= _); [|done].
    intros d [= <-]. rewrite !dom_insert_L, dom_singleton_L. set_solver.
Qed.

(** A page size SQLite cannot hold. *)
Lemma execute_search_overflow (query : list File.t) (params : SearchParams.t) :
  SearchParams.per_page params ≠ 0%Z →
  sqlite_integer (SearchParams.per_page params) = false →
  execute_search query params = inl OverflowError.
Proof.
  intros Hz Hpp. unfold execute_search. rewrite decide_False by done.
  unfold sql_offset, sql_limit. destruct (sqlite_integer (_ * _)); simpl; [|done].
  by rewrite Hpp.
Qed.

(** X12. With a requested page of at least 1 and a query that selects no
    more rows than SQLite can count: for a page size from 1 up to the
    largest SQLite integer, the page that is served is between 1 and the
    number of pages, never beyond the requested one; it holds at most a
    page size of rows, taken in the order of the query; and it is not
    empty when the query selects anything, even when the requested page
    lies beyond the last one.  For a larger page size the search dies of
    [OverflowError]. *)
Theorem execute_search_page (query : list File.t) (params : SearchParams.t) :
  (1 ≤ SearchParams.per_page params)%Z → (1 ≤ SearchParams.page params)%Z →
  (Z.of_nat (length query) ≤ 9223372036854775807)%Z →
  let per_page := SearchParams.per_page params in
  let total := Z.of_nat (length query) in
  let pages := page_count total per_page in
  let page := Z.min (SearchParams.page params) pages in
  let files := take (Z.to_nat per_page)
                 (drop (Z.to_nat ((page - 1) * per_page)) query) in
  if decide (per_page ≤ 9223372036854775807)%Z then
    execute_search query params =
      inr {[ "files" := SFiles files; "total" := SInt total;
             "page" := SInt page; "per_page" := SInt per_page;
             "pages" := SInt pages ]} ∧
    (1 ≤ page ≤ pages)%Z ∧
    (length files ≤ Z.to_nat per_page)%nat ∧
    (query ≠ [] → files ≠ [])
  else execute_search query params = inl OverflowError.
Proof.
  intros Hpp Hpage Htotal per_page total pages page files.
  destruct (decide (per_page ≤ 9223372036854775807)%Z) as [Hmax|Hmax].
  - destruct (execute_search_served query params) as (Hrun & Hpg & Hoff);
      [done..|].
    fold per_page total pages page in Hrun, Hpg, Hoff.
    split; [done|]. split; [done|]. split.
    + unfold files. rewrite length_take. lia.
    + intros Hq. unfold files.
      assert (0 < total)%Z by (unfold total; destruct query; [done | simpl; lia]).
      assert (Hlt : (Z.to_nat ((page - 1) * per_page) < length query)%nat).
      { unfold total in *. lia. }
      destruct (drop _ query) as [|x rest] eqn:Hd.
      { apply (f_equal length) in Hd. rewrite length_drop in Hd. simpl in Hd. lia. }
      destruct (Z.to_nat per_page) eqn:Hn; [lia | done].
  - apply execute_search_overflow; [fold per_page; lia|].
    apply not_true_is_false. rewrite sqlite_integer_spec. fold per_page. lia.
Qed.

Lemma take_chunks {A} (q : list A) (n k : nat) :
  concat (map (λ i, take n (drop (i * n) q)) (seq 0 k)) = take (k * n) q.
Proof.
  induction k as [|k IH]; [by rewrite take_0|].
  rewrite seq_S, map_app, concat_app, IH. simpl. rewrite app_nil_r.
  rewrite take_take_drop. f_equal. lia.
Qed.

(** X13. With a page size from 1 up to the largest SQLite integer, and a
    query that selects no more rows than SQLite can count, the pages from
    1 to the number of pages partition the rows of the query: put end to
    end they give every row once, in the order of the query. *)
Theorem execute_search_pages_cover (query : list File.t)
    (params : SearchParams.t) :
  (1 ≤ SearchParams.per_page params ≤ 9223372036854775807)%Z →
  (Z.of_nat (length query) ≤ 9223372036854775807)%Z →
  let pages :=
    page_count (Z.of_nat (length query)) (SearchParams.per_page params) in
  concat (map (λ i, result_files
                      (execute_search query (with_page params (Z.of_nat i))))
            (seq 1 (Z.to_nat pages))) = query.
Proof.
  intros Hpp Htotal pages.
  set (pp := SearchParams.per_page params) in *.
  set (total := Z.of_nat (length query)) in *.
  destruct (page_count_covers total pp) as (Hp1 & Hp2 & _); [lia | lia |].
  fold pages in Hp1, Hp2.
  etrans; [|apply (take_ge query (Z.to_nat pages * Z.to_nat pp));
            unfold total in *; nia].
  rewrite <- take_chunks, <- fmap_S_seq.
  change (map ?f (S <$> ?l)) with (f <$> (S <$> l)).
  rewrite <- list_fmap_compose. f_equal.
  apply list_fmap_ext. intros j i Hi%lookup_seq. destruct Hi as [-> Hj].
  simpl.
  destruct (execute_search_served query (with_page params (Z.of_nat (S j))))
    as (-> & _); [simpl; fold pp; lia | simpl; lia | done |].
  simpl. fold pp total pages.
  rewrite lookup_insert_eq.
  rewrite Z.min_l by lia.
  replace (Z.of_nat (S j) - 1)%Z with (Z.of_nat j) by lia.
  by rewrite Z2Nat.inj_mul, Nat2Z.id by lia.
Qed.

(** X14. [cli.py search] never lists a result.  With no date option it dies of
    [ZeroDivisionError] on [--limit 0] and of [OverflowError] on a limit
    that is no SQLite integer; otherwise it reports that nothing matched
    when nothing does, and dies of [KeyError] on the key ['items'] as soon
    as the query selects a file, because [execute_search] returns its rows
    under ['files']. *)
Theorem cli_search_never_lists (fromisoformat : string → option Z)
    (strftime_date : Z → string)
    (build_query : SearchParams.t → list File.t)
    (name ext section after before : string) (limit : Z) :
  let command := cli_search fromisoformat strftime_date build_query in
  (∀ out, command name ext section after before limit = Returned out →
          out = ["No matching files found."]) ∧
  command name ext section "" "" limit =
    if decide (limit = 0%Z) then Raised "ZeroDivisionError"
    else if sqlite_integer limit then
      if decide (build_query (cli_search_params name ext section limit) = [])
      then Returned ["No matching files found."]
      else Raised "KeyError: 'items'"
    else Raised "OverflowError".
Proof.
  intros command.
  assert (Hrun : ∀ params,
            SearchParams.page params = 1%Z →
            match execute_search (build_query params) params with
            | inl ZeroDivisionError => Raised "ZeroDivisionError"
            | inl OverflowError => Raised "OverflowError"
            | inr results => search_report strftime_date results
            end =
            if decide (SearchParams.per_page params = 0%Z)
            then Raised "ZeroDivisionError"
            else if sqlite_integer (SearchParams.per_page params) then
              if decide (build_query params = [])
              then Returned ["No matching files found."]
              else Raised "KeyError: 'items'"
            else Raised "OverflowError").
  { intros params Hpage. unfold execute_search.
    destruct (decide (SearchParams.per_page params = 0%Z)) as [|Hpp]; [done|].
    set (q := build_query params).
    set (pp := SearchParams.per_page params) in *.
    assert (Hoff : sql_offset
                     ((Z.min (SearchParams.page params)
                         (Z.max 1 ((Z.of_nat (length q) + pp - 1) / pp)) - 1) * pp) q
                   = Some q).
    { rewrite Hpage.
      replace ((Z.min 1 _ - 1) * pp)%Z with 0%Z by lia. done. }
    rewrite Hoff. simpl. unfold sql_limit.
    destruct (sqlite_integer pp); [|done].
    unfold search_report. rewrite lookup_insert_eq.
    destruct (decide (q = [])) as [->|Hq].
    - by destruct (pp <? 0)%Z, (Z.to_nat pp).
    - assert (Hfiles : (if (pp <? 0)%Z then q else take (Z.to_nat pp) q) ≠ []).
      { destruct (pp <? 0)%Z eqn:E; [done|].
        destruct q as [|x q']; [done|].
        destruct (Z.to_nat pp) eqn:E'; [lia | done]. }
      destruct (if (pp <? 0)%Z then q else take (Z.to_nat pp) q); [done|].
      by simplify_map_eq. }
  split.
  - intros out. unfold command, cli_search. cbv zeta.
    destruct (decide (after = "")); [|destruct (fromisoformat after); [|done]];
      (destruct (decide (before = ""));
       [|destruct (fromisoformat before); [|done]]);
      rewrite Hrun by done; simpl;
      repeat case_decide; try done;
      (destruct (sqlite_integer limit); [|done]);
      repeat case_decide; by intros [= <-].
  - unfold command, cli_search. cbv zeta.
    rewrite !decide_True by done. by rewrite Hrun.
Qed.

(** * Configuration *)

(** Induction on a loaded value, with the hypothesis for every member of a
    list and every value of a dict. *)
Lemma yaml_ind_entries (P : yaml → Prop) :
  (∀ s, P (YStr s)) → (∀ n, P (YInt n)) → (∀ b, P (YBool b)) → P YNull →
  (∀ b t, P (YOther b t)) →
  (∀ items, Forall P items → P (YList items)) →
  (∀ entries, Forall (λ e, P e.2) entries → P (YDict entries)) →
  ∀ v, P v.
Proof.
  intros HS HI HB HN HO HL HD.
  fix IH 1. intros [s|n|b| |tr t|items|entries];
    [apply HS|apply HI|apply HB|apply HN|apply HO| |].
  - apply HL. induction items as [|x items IHi]; constructor; auto.
  - apply HD. induction entries as [|[k x] entries IHe]; constructor; auto.
Qed.

(** The same for a value in the store. *)
Lemma obj_ind_items (P : obj → Prop) :
  (∀ v, P (OLeaf v)) →
  (∀ l items, Forall (λ e, P e.2) items → P (ODict l items)) →
  ∀ o, P o.
Proof.
  intros HL HD. fix IH 1. intros [v|l items]; [apply HL|].
  apply HD. induction items as [|[k x] items IHe]; constructor; auto.
Qed.

Lemma fresh_loc_fresh (h : heap) : h !! fresh_loc h = None.
Proof. unfold fresh_loc. apply (not_elem_of_dom (D:=gset nat)). apply is_fresh. Qed.

Lemma dict_get_set (k key : string) (v : hval) (d : dictobj) :
  dict_get k (dict_set key v d) = if decide (key = k) then Some v else dict_get k d.
Proof.
  induction d as [|[k' v'] d IH]; simpl.
  - destruct (decide (key = k)); done.
  - destruct (decide (k' = key)) as [->|Hne]; simpl.
    + destruct (decide (key = k)); done.
    + destruct (decide (k' = k)) as [->|Hne'].
      * by rewrite decide_False.
      * done.
Qed.

Lemma dict_get_items (k : string) (items : list (string * obj)) (hv : hval) :
  dict_get k (items_val items) = Some hv →
  ∃ x, (k, x) ∈ items ∧ obj_val x = hv.
Proof.
  induction items as [|[k' x] items IH]; simpl; [done|].
  destruct (decide (k' = k)) as [->|Hne].
  - intros [= <-]. exists x. split; [left|done].
  - intros (y & Hin & Hy)%IH. exists y. split; [by right|done].
Qed.

Lemma subseteq_is_Some (h h' : heap) (l : nat) :
  h ⊆ h' → is_Some (h !! l) → is_Some (h' !! l).
Proof. intros Hsub [x Hx]. exists x. by eapply lookup_weaken. Qed.

Lemma subseteq_None (h h' : heap) (l : nat) :
  h ⊆ h' → h' !! l = None → h !! l = None.
Proof.
  intros Hsub Hl. destruct (h !! l) eqn:E; [|done].
  eapply lookup_weaken in E; [|exact Hsub]. congruence.
Qed.

Lemma stored_ODict (h : heap) (l : nat) (items : list (string * obj)) :
  stored h (ODict l items) ↔
  h !! l = Some (items_val items) ∧ Forall (λ e, stored h e.2) items.
Proof.
  simpl. apply and_iff_compat_l.
  induction items as [|[k x] items IH]; [by split|].
  rewrite Forall_cons. simpl. by rewrite IH.
Qed.

Lemma stored_weaken (o : obj) (h h' : heap) :
  h ⊆ h' → stored h o → stored h' o.
Proof.
  intros Hsub. induction o as [v|l items IH] using obj_ind_items; [done|].
  rewrite !stored_ODict. intros [Hl Hitems]. split; [by eapply lookup_weaken|].
  rewrite Forall_forall in IH, Hitems |- *. auto.
Qed.

Lemma stored_ref (h : heap) (x : obj) (l : nat) :
  stored h x → obj_val x = HRef l → is_Some (h !! l).
Proof.
  destruct x as [v|l' items]; [done|]. intros [Hl _]%stored_ODict [= <-].
  by eexists.
Qed.

Lemma closed_insert (h : heap) (l : nat) (d : dictobj) :
  closed h →
  (∀ k l', dict_get k d = Some (HRef l') → l' = l ∨ is_Some (h !! l')) →
  closed (<[l := d]> h).
Proof.
  intros Hc Hd l0 d0 k l' Hl0 Hk. rewrite lookup_insert_is_Some.
  destruct (decide (l = l')) as [->|Hne]; [by left|right; split; [done|]].
  destruct (decide (l0 = l)) as [->|Hne0].
  - rewrite lookup_insert_eq in Hl0. injection Hl0 as <-.
    destruct (Hd _ _ Hk) as [->|?]; done.
  - rewrite lookup_insert_ne in Hl0 by done. eauto.
Qed.

(** The loader only adds objects: the value it returns is in the store as
    it is described, its dicts are new, and a store without dangling
    references stays one. *)
Lemma alloc_spec (v : yaml) (h h' : heap) (o : obj) :
  alloc v h = (h', o) →
  h ⊆ h' ∧ stored h' o ∧ (closed h → closed h') ∧
  (∀ l, obj_val o = HRef l → h !! l = None) ∧
  (∀ l items k x l', o = ODict l items → (k, x) ∈ items →
     obj_val x = HRef l' → h !! l' = None) ∧
  match v with
  | YDict entries => ∃ l items, o = ODict l items ∧ items.*1 = entries.*1
  | _ => o = OLeaf v ∧ h' = h
  end.
Proof.
  revert h h' o.
  induction v as [s|n|b| |tr t|items _|entries IH] using yaml_ind_entries;
    intros h h' o; simpl;
    try (intros [= <- <-]; repeat split; done).
  set (go := fix go (entries : list (string * yaml)) (h : heap)
                 : heap * list (string * obj) :=
           match entries with
           | [] => (h, [])
           | (k, x) :: rest =>
               let '(h, o) := alloc x h in
               let '(h, items) := go rest h in
               (h, (k, o) :: items)
           end).
  assert (Hgo : ∀ h h1 items, go entries h = (h1, items) →
            h ⊆ h1 ∧ Forall (λ e, stored h1 e.2) items ∧
            (closed h → closed h1) ∧
            (∀ k x l', (k, x) ∈ items → obj_val x = HRef l' → h !! l' = None) ∧
            items.*1 = entries.*1).
  { clear h h' o. induction IH as [|[k x] entries Hx _ IHe]; intros h h1 items; simpl.
    - intros [= <- <-]. repeat split; try done. by intros ??? ?%elem_of_nil.
    - destruct (alloc x h) as [h2 o] eqn:Ea.
      destruct (go entries h2) as [h3 items'] eqn:Eg. intros [= <- <-].
      apply Hx in Ea as (Hsub & Hst & Hcl & Hnew & _).
      apply IHe in Eg as (Hsub' & Hst' & Hcl' & Hnew' & Hkeys).
      split; [by etrans|]. split.
      { constructor; [by eapply stored_weaken|done]. }
      split; [auto|]. split; [|by rewrite fmap_cons, Hkeys].
      intros k0 x0 l' [[= -> ->]|Hin]%elem_of_cons Hl'; [by apply Hnew|].
      eapply subseteq_None; [exact Hsub|]. by eapply Hnew'. }
  destruct (go entries h) as [h1 items] eqn:Eg. intros [= <- <-].
  apply Hgo in Eg as (Hsub & Hst & Hcl & Hnew & Hkeys).
  pose proof (fresh_loc_fresh h1) as Hf.
  assert (Hsub1 : h1 ⊆ <[fresh_loc h1 := items_val items]> h1)
    by by apply insert_subseteq.
  split; [by etrans|]. split.
  { apply stored_ODict. split; [apply lookup_insert_eq|].
    eapply Forall_impl; [exact Hst|]. intros e. by apply stored_weaken. }
  split.
  { intros Hc. apply closed_insert; [auto|]. intros k l' Hk. right.
    apply dict_get_items in Hk as (x & Hin & Hx).
    rewrite Forall_forall in Hst. apply (stored_ref _ x); [|done].
    by apply (Hst (k, x)). }
  split; [intros l [= <-]; by eapply subseteq_None|].
  split; [|by exists (fresh_loc h1), items].
  intros l items0 k x l' [= _ <-]. apply Hnew.
Qed.

(** The loop of [_deep_merge]: every dict but the result stays as it is;
    the result keeps what it has under the keys the override lacks, and a
    dict it refers to afterwards is one it referred to under the same key,
    or the override's own under that key, or new. *)
Lemma merge_loop_frame rec (r : nat) (items : list (string * obj))
    (h h' : heap) (d : dictobj) :
  Forall (λ e, merge_frame rec e.2) items →
  h !! r = Some d →
  merge_loop rec r items h = Some h' →
  delete r h ⊆ delete r h' ∧
  ∃ d', h' !! r = Some d' ∧
    (∀ k, k ∉ items.*1 → dict_get k d' = dict_get k d) ∧
    (∀ k l, dict_get k d' = Some (HRef l) →
       dict_get k d = Some (HRef l) ∨
       (∃ x, (k, x) ∈ items ∧ obj_val x = HRef l) ∨
       h !! l = None ∧ is_Some (h' !! l)).
Proof.
  intros Hrec. revert h d. induction Hrec as [|[key value] items Hv _ IH];
    intros h d Hr; simpl.
  - intros [= <-]. split; [done|]. exists d. repeat split; auto.
  - rewrite Hr. simpl.
    assert (Hstep : ∀ h1 hv, h ⊆ h1 →
      (∀ l, hv = HRef l →
         obj_val value = HRef l ∨ h !! l = None ∧ is_Some (h1 !! l)) →
      merge_loop rec r items (<[r := dict_set key hv d]> h1) = Some h' →
      delete r h ⊆ delete r h' ∧
      ∃ d', h' !! r = Some d' ∧
        (∀ k, k ∉ key :: items.*1 → dict_get k d' = dict_get k d) ∧
        (∀ k l, dict_get k d' = Some (HRef l) →
           dict_get k d = Some (HRef l) ∨
           (∃ x, (k, x) ∈ (key, value) :: items ∧ obj_val x = HRef l) ∨
           h !! l = None ∧ is_Some (h' !! l))).
    { intros h1 hv Hsub Hhv Hloop.
      eapply IH in Hloop as (Hdel & d' & Hd' & Hother & Hrefs);
        [|apply lookup_insert_eq].
      rewrite delete_insert_eq in Hdel.
      assert (Hdom : ∀ l, is_Some (h1 !! l) → is_Some (h' !! l)).
      { intros l [x Hx]. destruct (decide (l = r)) as [->|Hne]; [by eexists|].
        exists x. assert (Hx' : delete r h' !! l = Some x).
        { eapply lookup_weaken; [|exact Hdel]. by rewrite lookup_delete_ne. }
        by rewrite lookup_delete_ne in Hx'. }
      split.
      { etrans; [|exact Hdel]. by apply delete_mono. }
      exists d'. split; [done|]. split.
      - intros k Hk. apply not_elem_of_cons in Hk as [Hne Hk].
        rewrite Hother by done. rewrite dict_get_set. by rewrite decide_False.
      - intros k l Hl. apply Hrefs in Hl as [Hl|[(x & Hin & Hx)|[Hl Hs]]].
        + rewrite dict_get_set in Hl. destruct (decide (key = k)) as [->|Hne].
          * injection Hl as ->. destruct (Hhv l eq_refl) as [Hown|[? ?]].
            -- right. left. exists value. split; [left|done].
            -- right. right. split; [done|]. by apply Hdom.
          * by left.
        + right. left. exists x. split; [by right|done].
        + right. right. split; [|done].
          destruct (decide (l = r)) as [->|Hne]; [by rewrite lookup_insert_eq in Hl|].
          rewrite lookup_insert_ne in Hl by done.
          by eapply subseteq_None. }
    assert (Hown : Some (<[r:=dict_set key (obj_val value) d]> h) ≫=
        merge_loop rec r items = Some h' →
      delete r h ⊆ delete r h' ∧
      ∃ d', h' !! r = Some d' ∧
        (∀ k, k ∉ key :: items.*1 → dict_get k d' = dict_get k d) ∧
        (∀ k l, dict_get k d' = Some (HRef l) →
           dict_get k d = Some (HRef l) ∨
           (∃ x, (k, x) ∈ (key, value) :: items ∧ obj_val x = HRef l) ∨
           h !! l = None ∧ is_Some (h' !! l))).
    { simpl. apply Hstep; [done|]. intros l Hl. by left. }
    destruct (dict_get key d) as [[x|b]|] eqn:Eg; try exact Hown.
    destruct value as [v|lv es]; try exact Hown.
    destruct (rec (ODict lv es) h b) as [[h1 m]|] eqn:Er; simpl; [|done].
    apply Hv in Er as (Hsub & Hm & Hm').
    pose proof (lookup_weaken _ _ _ _ Hr Hsub) as Hr1. rewrite Hr1. simpl.
    apply Hstep; [done|]. intros l [= <-]. by right.
Qed.

(** [_deep_merge] only adds objects to the store. *)
Lemma deep_merge_merge_frame (override : obj) : merge_frame _deep_merge override.
Proof.
  induction override as [v|lo items IH] using obj_ind_items;
    intros h base h' m; simpl; try done.
  destruct (h !! base) as [d|] eqn:Eb; simpl; [|done].
  destruct (merge_loop _ _ _ _) as [h1|] eqn:El; simpl; [|done].
  intros [= <- <-].
  eapply merge_loop_frame in El as (Hdel & d' & Hd' & _); [|done|apply lookup_insert_eq].
  rewrite delete_insert_eq in Hdel.
  pose proof (fresh_loc_fresh h) as Hf.
  rewrite delete_id in Hdel by done.
  split; [|split; [done|by eexists]].
  etrans; [exact Hdel|]. apply delete_subseteq.
Qed.

Lemma merge_loop_total rec (r : nat) (items : list (string * obj)) (h : heap) :
  Forall (λ e, merge_frame rec e.2 ∧ merge_total rec e.2) items →
  closed h → is_Some (h !! r) →
  Forall (λ e, stored (delete r h) e.2) items →
  ∃ h', merge_loop rec r items h = Some h' ∧ closed h'.
Proof.
  intros Hrec. revert h. induction Hrec as [|[key value] items [Hf Ht] _ IH];
    intros h Hc [d Hr] Hst; simpl.
  - by exists h.
  - rewrite Hr. simpl. apply Forall_cons in Hst as [Hv Hst]. simpl in Hv.
    assert (Hvh : stored h value).
    { eapply stored_weaken; [|exact Hv]. apply delete_subseteq. }
    assert (Hstep : ∀ h1 hv, closed h1 → h ⊆ h1 →
      (∀ l, hv = HRef l → is_Some (h1 !! l)) →
      ∃ h', merge_loop rec r items (<[r := dict_set key hv d]> h1) = Some h' ∧
            closed h').
    { intros h1 hv Hc1 Hsub Hhv. apply IH.
      - apply closed_insert; [done|]. intros k l'. rewrite dict_get_set.
        destruct (decide (key = k)) as [->|Hne].
        + intros [= ->]. right. by apply Hhv.
        + intros Hk. right. eapply subseteq_is_Some; [exact Hsub|]. eauto.
      - rewrite lookup_insert_eq. by eexists.
      - rewrite delete_insert_eq. eapply Forall_impl; [exact Hst|].
        intros e. apply stored_weaken. by apply delete_mono. }
    assert (Hown : ∃ h', Some (<[r:=dict_set key (obj_val value) d]> h) ≫=
        merge_loop rec r items = Some h' ∧ closed h').
    { simpl. apply Hstep; [done..|]. intros l Hl. by eapply stored_ref. }
    destruct (dict_get key d) as [[x|b]|] eqn:Eg; try exact Hown.
    destruct value as [v|lv es]; try exact Hown.
    destruct (Ht h b lv es eq_refl Hc Hvh) as (h1 & m & Er & Hc1); [by eauto|].
    simpl in Er. rewrite Er. simpl. apply Hf in Er as (Hsub & Hm & Hm').
    pose proof (lookup_weaken _ _ _ _ Hr Hsub) as Hr1. rewrite Hr1. simpl.
    apply Hstep; [done..|]. by intros l [= <-].
Qed.

Lemma deep_merge_merge_total (override : obj) : merge_total _deep_merge override.
Proof.
  induction override as [v|lo items IH] using obj_ind_items;
    intros h base l es Hes Hc Hst [d Hb]; try done.
  simpl. rewrite Hb. simpl. apply stored_ODict in Hst as [_ Hst].
  pose proof (fresh_loc_fresh h) as Hfresh.
  destruct (merge_loop_total _deep_merge (fresh_loc h) items (<[fresh_loc h := d]> h))
    as (h' & El & Hc').
  - eapply Forall_impl; [exact IH|]. intros [k x] Hx. split; [|done].
    apply deep_merge_merge_frame.
  - apply closed_insert; [done|]. intros k l' Hk. right. eauto.
  - rewrite lookup_insert_eq. by eexists.
  - rewrite delete_insert_eq, delete_id by done. done.
  - rewrite El. simpl. eauto.
Qed.

Lemma deep_merge_result (lo : nat) (items : list (string * obj))
    (h : heap) (base : nat) (d : dictobj) :
  closed h → h !! base = Some d → stored h (ODict lo items) →
  ∃ h' r d',
    _deep_merge (ODict lo items) h base = Some (h', r) ∧
    h ⊆ h' ∧ closed h' ∧ h !! r = None ∧ h' !! r = Some d' ∧
    (∀ k, k ∉ items.*1 → dict_get k d' = dict_get k d) ∧
    (∀ k l, dict_get k d' = Some (HRef l) →
       dict_get k d = Some (HRef l) ∨
       (∃ x, (k, x) ∈ items ∧ obj_val x = HRef l) ∨
       l ≠ r ∧ h !! l = None ∧ is_Some (h' !! l)).
Proof.
  intros Hc Hb Hst.
  destruct (deep_merge_merge_total (ODict lo items) h base lo items eq_refl Hc Hst)
    as (h' & r & Em & Hc'); [by eexists|].
  exists h', r. pose proof (deep_merge_merge_frame _ _ _ _ _ Em) as (Hsub & Hr & _).
  pose proof Em as Hrun. simpl in Em. rewrite Hb in Em. simpl in Em.
  destruct (merge_loop _ _ _ _) as [h1|] eqn:El; simpl in Em; [|done].
  injection Em as -> <-.
  eapply merge_loop_frame in El as (_ & d' & Hd' & Hother & Hrefs);
    [| |apply lookup_insert_eq].
  2: { apply Forall_forall. intros e _. apply deep_merge_merge_frame. }
  exists d'. repeat split; try done.
  intros k l Hl. apply Hrefs in Hl as [Hl|[Hl|[Hl Hs]]]; [by left|by right; left|].
  right. right. apply lookup_insert_None in Hl as [? ?]. done.
Qed.

(** One turn of the loop of [_deep_merge] taken apart. *)
Lemma merge_loop_cons rec (r : nat) (key : string) (value : obj)
    (rest : list (string * obj)) (h h' : heap) (d : dictobj) :
  merge_frame rec value → h !! r = Some d →
  merge_loop rec r ((key, value) :: rest) h = Some h' →
  ∃ h1 hv, merge_loop rec r rest (<[r := dict_set key hv d]> h1) = Some h' ∧
    ((∀ l items, value ≠ ODict l items) ∨ (∀ b, dict_get key d ≠ Some (HRef b)) →
     hv = obj_val value).
Proof.
  intros Hf Hr. simpl. rewrite Hr. simpl.
  assert (Hown : Some (<[r:=dict_set key (obj_val value) d]> h) ≫=
        merge_loop rec r rest = Some h' →
      ∃ h1 hv, merge_loop rec r rest (<[r := dict_set key hv d]> h1) = Some h' ∧
        ((∀ l items, value ≠ ODict l items) ∨
         (∀ b, dict_get key d ≠ Some (HRef b)) → hv = obj_val value)).
  { simpl. intros Hl. by exists h, (obj_val value). }
  destruct (dict_get key d) as [[x|b]|] eqn:Eg; try exact Hown.
  destruct value as [v|lv es]; try exact Hown.
  destruct (rec (ODict lv es) h b) as [[h1 m]|] eqn:Er; simpl; [|done].
  apply Hf in Er as (Hsub & _).
  pose proof (lookup_weaken _ _ _ _ Hr Hsub) as Hr1. rewrite Hr1. simpl.
  intros Hl. exists h1, (HRef m). split; [done|].
  intros [Hnd|Hnd]; [by destruct (Hnd lv es)|by destruct (Hnd b)].
Qed.

(** Where the loop does not merge, the result holds the value of the
    override as it is. *)
Lemma merge_loop_kept rec (r : nat) (items : list (string * obj))
    (h h' : heap) (d : dictobj) (k : string) (x : obj) :
  Forall (λ e, merge_frame rec e.2) items →
  h !! r = Some d → merge_loop rec r items h = Some h' →
  NoDup items.*1 → (k, x) ∈ items →
  (∀ l es, x ≠ ODict l es) ∨ (∀ b, dict_get k d ≠ Some (HRef b)) →
  ∃ d', h' !! r = Some d' ∧ dict_get k d' = Some (obj_val x).
Proof.
  intros Hrec. revert h d. induction Hrec as [|[key value] items Hv Hrec IH];
    intros h d Hr Hl Hnd Hin Hkeep.
  - by apply elem_of_nil in Hin.
  - apply NoDup_cons in Hnd as [Hfresh Hnd].
    destruct (merge_loop_cons _ _ _ _ _ _ _ _ Hv Hr Hl) as (h1 & hv & Hl1 & Hhv).
    apply elem_of_cons in Hin as [[= <- <-]|Hin].
    + eapply merge_loop_frame in Hl1 as (_ & d' & Hd' & Hother & _);
        [|done|apply lookup_insert_eq].
      exists d'. split; [done|]. rewrite Hother by done.
      rewrite dict_get_set, decide_True by done. by rewrite Hhv.
    + eapply IH; [apply lookup_insert_eq|done..|].
      destruct Hkeep as [?|Hkeep]; [by left|right].
      intros b. rewrite dict_get_set.
      destruct (decide (key = k)) as [->|]; [|done].
      destruct Hfresh. apply list_elem_of_fmap. by exists (k, x).
Qed.

(** X15. [_deep_merge] returns a new dict and changes no other.  The keys
    the override lacks hold the values of [base], references included: the
    nested dicts are shared with [base].  Under a key where [base] has no
    dict the result holds the value of the override as it is: a dict of
    the override is shared with the override.  Every other dict the result
    refers to is new. *)
Theorem deep_merge_copies_one_level (lo : nat) (items : list (string * obj))
    (h : heap) (base : nat) (d : dictobj) :
  closed h → h !! base = Some d → stored h (ODict lo items) →
  ∃ h' r d',
    _deep_merge (ODict lo items) h base = Some (h', r) ∧
    h ⊆ h' ∧ closed h' ∧ h !! r = None ∧ h' !! r = Some d' ∧
    (∀ k, k ∉ items.*1 → dict_get k d' = dict_get k d) ∧
    (∀ k x, NoDup items.*1 → (k, x) ∈ items →
       (∀ b, dict_get k d ≠ Some (HRef b)) →
       dict_get k d' = Some (obj_val x)) ∧
    (∀ k l, dict_get k d' = Some (HRef l) →
       dict_get k d = Some (HRef l) ∨
       (∃ x, (k, x) ∈ items ∧ obj_val x = HRef l) ∨
       l ≠ r ∧ h !! l = None ∧ is_Some (h' !! l)).
Proof.
  intros Hc Hb Hst.
  destruct (deep_merge_result lo items h base d Hc Hb Hst)
    as (h' & r & d' & Hrun & Hsub & Hc' & Hr & Hd' & Hother & Hrefs).
  exists h', r, d'. repeat split; try done.
  intros k x Hnd Hin Hno.
  simpl in Hrun. rewrite Hb in Hrun. simpl in Hrun.
  destruct (merge_loop _ _ _ _) as [h1|] eqn:El; simpl in Hrun; [|done].
  injection Hrun as -> <-.
  eapply merge_loop_kept in El as (d1 & Hd1 & Hk);
    [| |apply lookup_insert_eq|done..|by right].
  - rewrite Hd' in Hd1. by injection Hd1 as <-.
  - apply Forall_forall. intros e _. apply deep_merge_merge_frame.
Qed.

(** X16. A value of the override that is no dict replaces what [base] has under
    its key, a whole section included. *)
Theorem deep_merge_override_wins (lo : nat) (items : list (string * obj))
    (h : heap) (base : nat) (d : dictobj) (k : string) (v : yaml) :
  closed h → h !! base = Some d → stored h (ODict lo items) →
  NoDup items.*1 → (k, OLeaf v) ∈ items →
  ∃ h' r d', _deep_merge (ODict lo items) h base = Some (h', r) ∧
    h' !! r = Some d' ∧ dict_get k d' = Some (HLeaf v).
Proof.
  intros Hcl Hb Hst Hnd Hin.
  destruct (deep_merge_result lo items h base d Hcl Hb Hst)
    as (h' & r & _ & Hrun & _).
  exists h', r. pose proof Hrun as Hrun'. simpl in Hrun. rewrite Hb in Hrun.
  simpl in Hrun.
  destruct (merge_loop _ _ _ _) as [h1|] eqn:El; simpl in Hrun; [|done].
  injection Hrun as <- <-.
  eapply merge_loop_kept in El as (d' & Hd' & Hk);
    [| |apply lookup_insert_eq|done..|by left].
  - by exists d'.
  - apply Forall_forall. intros e _. apply deep_merge_merge_frame.
Qed.

Section ConfigFacts.

Variable py_int : string → option Z.
Variable expanduser : string → string.
Variable environ : gmap string string.

Lemma config_inv_section d0 c config dc h :
  config_inv d0 c config dc h →
  section_dict h config "corpus" = inr (c, dc).
Proof.
  intros (_ & _ & Hc & _ & _ & _ & d & Hd & Hcorpus & _).
  unfold section_dict. by rewrite Hd, Hcorpus, Hc.
Qed.

Lemma config_inv_write d0 c config dc h section key v l d :
  config_inv d0 c config dc h →
  section_dict h config section = inr (l, d) →
  config_inv d0 c config
    (if decide (section = "corpus") then dict_set key (HLeaf v) dc else dc)
    (<[l := dict_set key (HLeaf v) d]> h).
Proof.
  intros Hinv Hs. pose proof (config_inv_section _ _ _ _ _ Hinv) as Hcs.
  destruct Hinv as (Hcl & H0 & Hc & Hn0 & Hnc & Hc0 & dcfg & Hd & Hcorpus & Hrefs).
  assert (Hl : dict_get section dcfg = Some (HRef l) ∧ h !! l = Some d).
  { unfold section_dict in Hs. rewrite Hd in Hs.
    destruct (dict_get section dcfg) as [[x|l']|]; try done.
    destruct (h !! l') eqn:E; [|done]. by injection Hs as -> ->. }
  destruct Hl as [Hl Hld]. destruct (Hrefs _ _ Hl) as (Hl0 & Hlc & Hlcorpus).
  assert (Hclosed : closed (<[l := dict_set key (HLeaf v) d]> h)).
  { apply closed_insert; [done|]. intros k l'. rewrite dict_get_set.
    destruct (decide (key = k)); [done|]. intros Hk. right. eauto. }
  split; [done|]. split; [by rewrite lookup_insert_ne|].
  split.
  { destruct (decide (section = "corpus")) as [->|Hne].
    - rewrite Hcs in Hs. injection Hs as <- <-. by rewrite lookup_insert_eq.
    - rewrite lookup_insert_ne; [done|]. by apply Hlcorpus. }
  do 3 (split; [done|]). exists dcfg. by rewrite lookup_insert_ne.
Qed.

Lemma set_item_inv d0 c config dc h section key v h' res :
  config_inv d0 c config dc h →
  set_item h config section key (HLeaf v) = (h', res) →
  match res with
  | inl _ => h' = h
  | inr _ =>
      config_inv d0 c config
        (if decide (section = "corpus") then dict_set key (HLeaf v) dc else dc) h'
  end.
Proof.
  intros Hinv. unfold set_item.
  destruct (section_dict h config section) as [e|[l d]] eqn:Es.
  - by intros [= <- <-].
  - intros [= <- <-]. by apply config_inv_write.
Qed.

Lemma expand_item_inv d0 c config dc h section key h' res :
  config_inv d0 c config dc h → section ≠ "corpus" →
  expand_item expanduser h config section key = (h', res) →
  match res with
  | inl _ => h' = h
  | inr _ => config_inv d0 c config dc h'
  end.
Proof.
  intros Hinv Hne. unfold expand_item.
  destruct (section_dict h config section) as [e|[l d]] eqn:Es.
  - by intros [= <- <-].
  - destruct (dict_get key d) as [[[s| | | | | |]|]|]; try by intros [= <- <-].
    intros [= <- <-]. 
    pose proof (config_inv_write _ _ _ _ _ _ key (YStr (expanduser s)) _ _ Hinv Es) as H.
    by rewrite decide_False in H.
Qed.

Lemma expand_root_path_inv d0 c config dc h h' res :
  config_inv d0 c config dc h →
  expand_root_path expanduser h config = (h', res) →
  match res with
  | inl _ => h' = h
  | inr _ => config_inv d0 c config (expanded expanduser dc) h'
  end.
Proof.
  intros Hinv. pose proof (config_inv_section _ _ _ _ _ Hinv) as Hcs.
  unfold expand_root_path, expand_item, expanded. rewrite Hcs.
  destruct (dict_get "root_path" dc) as [[v|r]|] eqn:Eg.
  - destruct v as [s|n|b| |tr t|items|entries]; simpl;
      [|destruct (negb _)|destruct b| |destruct tr
       |destruct (negb _)|destruct (negb _)]; try by intros [= <- <-].
    destruct (decide (s = "")) as [->|Hs]; simpl.
    + by intros [= <- <-].
    + rewrite bool_decide_eq_false_2 by done. simpl. intros [= <- <-].
      pose proof (config_inv_write _ _ _ _ _ _ "root_path" (YStr (expanduser s)) _ _
                    Hinv Hcs) as H.
      by rewrite decide_True in H.
  - destruct (h !! r) as [[|? ?]|]; by intros [= <- <-].
  - by intros [= <- <-].
Qed.

(** The loop over [ENV_OVERRIDES]: the corpus section of the defaults gets
    the override first, whatever happens afterwards. *)
Lemma apply_env_inv d0 c config dc h h' res :
  config_inv d0 c config dc h →
  apply_env py_int environ ENV_OVERRIDES h config = (h', res) →
  h' !! DEFAULT_CONFIG = Some d0 ∧ h' !! c = Some (overridden environ dc) ∧ closed h' ∧
  match res with
  | inl _ => True
  | inr _ => config_inv d0 c config (overridden environ dc) h'
  end.
Proof.
  intros Hinv. unfold ENV_OVERRIDES, overridden. simpl.
  assert (Hfin : ∀ dc h, config_inv d0 c config dc h →
            h !! DEFAULT_CONFIG = Some d0 ∧ h !! c = Some dc ∧ closed h).
  { by intros ?? (? & ? & ? & _). }
  assert (Hport : ∀ dc h, config_inv d0 c config dc h →
    match environ !! "KCM_PORT" with
    | Some value =>
        match YInt <$> py_int value with
        | Some v =>
            let (h0, s) := set_item h config "server" "port" (HLeaf v) in
            match s with inl e => (h0, inl e) | inr _ => (h0, inr ()) end
        | None => (h, inl ValueError)
        end
    | None => (h, inr ())
    end = (h', res) →
    h' !! DEFAULT_CONFIG = Some d0 ∧ h' !! c = Some dc ∧ closed h' ∧
    match res with inl _ => True | inr _ => config_inv d0 c config dc h' end).
  { clear dc h Hinv. intros dc h Hinv.
    destruct (environ !! "KCM_PORT") as [value|].
    - destruct (py_int value) as [n|]; simpl.
      + destruct (set_item _ _ _ _ _) as [h1 [e|[]]] eqn:Es;
          apply (set_item_inv _ _ _ _ _ _ _ _ _ _ Hinv) in Es; simpl in Es.
        * intros [= <- <-]. subst h1. destruct (Hfin _ _ Hinv) as (? & ? & ?). done.
        * intros [= <- <-]. destruct (Hfin _ _ Es) as (? & ? & ?). done.
      + intros [= <- <-]. destruct (Hfin _ _ Hinv) as (? & ? & ?). done.
    - intros [= <- <-]. destruct (Hfin _ _ Hinv) as (? & ? & ?). done. }
  assert (Hdb : ∀ dc h, config_inv d0 c config dc h →
    match environ !! "KCM_DATABASE_PATH" with
    | Some value =>
        let (h0, s) := set_item h config "database" "path" (HLeaf (YStr value)) in
        match s with
        | inl e => (h0, inl e)
        | inr _ =>
            match environ !! "KCM_PORT" with
            | Some value =>
                match YInt <$> py_int value with
                | Some v =>
                    let (h0, s) := set_item h0 config "server" "port" (HLeaf v) in
                    match s with inl e => (h0, inl e) | inr _ => (h0, inr ()) end
                | None => (h0, inl ValueError)
                end
            | None => (h0, inr ())
            end
        end
    | None =>
        match environ !! "KCM_PORT" with
        | Some value =>
            match YInt <$> py_int value with
            | Some v =>
                let (h0, s) := set_item h config "server" "port" (HLeaf v) in
                match s with inl e => (h0, inl e) | inr _ => (h0, inr ()) end
            | None => (h, inl ValueError)
            end
        | None => (h, inr ())
        end
    end = (h', res) →
    h' !! DEFAULT_CONFIG = Some d0 ∧ h' !! c = Some dc ∧ closed h' ∧
    match res with inl _ => True | inr _ => config_inv d0 c config dc h' end).
  { clear dc h Hinv. intros dc h Hinv.
    destruct (environ !! "KCM_DATABASE_PATH") as [value|]; [|by apply Hport].
    destruct (set_item _ _ _ _ _) as [h1 [e|[]]] eqn:Es;
      apply (set_item_inv _ _ _ _ _ _ _ _ _ _ Hinv) in Es; simpl in Es.
    - intros [= <- <-]. subst h1. destruct (Hfin _ _ Hinv) as (? & ? & ?). done.
    - by apply Hport. }
  destruct (environ !! "KCM_CORPUS_ROOT") as [value|]; [|by apply Hdb].
  destruct (set_item _ _ _ _ _) as [h1 [e|[]]] eqn:Es.
  - pose proof (config_inv_section _ _ _ _ _ Hinv) as Hcs.
    unfold set_item in Es. by rewrite Hcs in Es.
  - apply (set_item_inv _ _ _ _ _ _ _ _ _ _ Hinv) in Es; simpl in Es.
    by apply Hdb.
Qed.

End ConfigFacts.

Section LoadConfigFacts.

Variable py_int : string → option Z.
Variable expanduser : string → string.
Variable environ : gmap string string.

Local Abbreviation load := (load_config py_int expanduser environ).

(** Merging a configuration that lacks the corpus section leaves the
    working dict with the corpus section of the defaults. *)
Lemma merge_inv (d0 : dictobj) (c base : nat) (dc d : dictobj)
    (lo : nat) (items : list (string * obj)) (h : heap) :
  closed h → h !! DEFAULT_CONFIG = Some d0 → h !! c = Some dc →
  c ≠ DEFAULT_CONFIG → h !! base = Some d →
  dict_get "corpus" d = Some (HRef c) →
  (∀ k l, dict_get k d = Some (HRef l) →
     l ≠ DEFAULT_CONFIG ∧ (k ≠ "corpus" → l ≠ c)) →
  stored h (ODict lo items) → "corpus" ∉ items.*1 →
  (∀ k x l, (k, x) ∈ items → obj_val x = HRef l → l ≠ DEFAULT_CONFIG ∧ l ≠ c) →
  ∃ h' config, _deep_merge (ODict lo items) h base = Some (h', config) ∧
    h ⊆ h' ∧ h !! config = None ∧ config_inv d0 c config dc h'.
Proof.
  intros Hcl H0 Hc Hc0 Hb Hcorpus Hrefs Hst Hno Hown.
  destruct (deep_merge_result lo items h base d Hcl Hb Hst)
    as (h' & r & d' & Hrun & Hsub & Hcl' & Hr & Hr' & Hother & Hnew).
  exists h', r. split; [done|]. split; [done|]. split; [done|].
  split; [done|]. split; [by eapply lookup_weaken|].
  split; [by eapply lookup_weaken|].
  split; [intros ->; congruence|]. split; [intros ->; congruence|].
  split; [done|]. exists d'. split; [done|].
  split; [by rewrite Hother|].
  intros k l Hl.
  destruct (Hnew _ _ Hl) as [Hold|[(x & Hin & Hx)|(Hlr & Hfresh & _)]].
  - destruct (Hrefs _ _ Hold) as [? ?]. repeat split; try done.
    intros ->. destruct (Hcl _ _ _ _ Hb Hold) as [y Hy]. congruence.
  - destruct (Hown _ _ _ Hin Hx) as [? ?]. repeat split; try done.
    intros ->. apply stored_ODict in Hst as [_ Hst].
    rewrite Forall_forall in Hst.
    destruct (stored_ref h x r (Hst _ Hin) Hx) as [y Hy]. congruence.
  - repeat split; try done; intros; intros ->; congruence.
Qed.

(** The state of [load_config] at line 74. *)
Lemma load_config_merged (yaml_file : option yaml) (h : heap)
    (d0 : dictobj) (c : nat) (dc : dictobj) :
  defaults_ok h → h !! DEFAULT_CONFIG = Some d0 →
  dict_get "corpus" d0 = Some (HRef c) → h !! c = Some dc →
  no_section "corpus" yaml_file →
  ∃ h1 config,
    h ⊆ h1 ∧ h !! config = None ∧ config_inv d0 c config dc h1 ∧
    ∀ h' res, load yaml_file h = (h', res) →
      match apply_env py_int environ ENV_OVERRIDES h1 config with
      | (h, inl e) => (h, inl e)
      | (h, inr _) =>
          match expand_item expanduser h config "database" "path" with
          | (h, inl e) => (h, inl e)
          | (h, inr _) =>
              match expand_item expanduser h config "consolidation" "output_dir" with
              | (h, inl e) => (h, inl e)
              | (h, inr _) =>
                  match expand_root_path expanduser h config with
                  | (h, inl e) => (h, inl e)
                  | (h, inr _) => (h, inr config)
                  end
              end
          end
      end = (h', res).
Proof.
  intros (Hcl & d0' & H0' & Hne0 & Hinj) H0 Hcorpus Hc Hno.
  rewrite H0 in H0'. injection H0' as <-.
  assert (Hc0 : c ≠ DEFAULT_CONFIG) by eauto.
  (* a merge with a loaded value that lacks the corpus section *)
  assert (Hmerge : ∀ (entries : list (string * yaml)) (hb : heap) (base : nat)
            (d : dictobj),
    h ⊆ hb → closed hb → hb !! base = Some d →
    dict_get "corpus" d = Some (HRef c) →
    (∀ k l, dict_get k d = Some (HRef l) →
       l ≠ DEFAULT_CONFIG ∧ (k ≠ "corpus" → l ≠ c)) →
    "corpus" ∉ entries.*1 →
    ∃ ha o h2 config,
      alloc (YDict entries) hb = (ha, o) ∧
      _deep_merge o ha base = Some (h2, config) ∧
      h ⊆ h2 ∧ h !! config = None ∧ config_inv d0 c config dc h2).
  { intros entries hb base d Hsub Hclb Hbase Hcd Hrefs Hent.
    destruct (alloc (YDict entries) hb) as [ha o] eqn:Ea.
    destruct (alloc_spec _ _ _ _ Ea)
      as (Hsuba & Hst & Hcla & _ & Hnew & lo & items & -> & Hkeys).
    destruct (merge_inv d0 c base dc d lo items ha)
      as (h2 & config & Hrun & Hsub2 & Hfresh & Hinv); try done.
    - auto.
    - eapply lookup_weaken; [|exact Hsuba]. by eapply lookup_weaken.
    - eapply lookup_weaken; [|exact Hsuba]. by eapply lookup_weaken.
    - by eapply lookup_weaken.
    - by rewrite Hkeys.
    - intros k x l Hin Hx. pose proof (Hnew _ _ _ _ _ eq_refl Hin Hx) as Hl.
      split; intros ->.
      + eapply lookup_weaken in H0; [|exact Hsub]. congruence.
      + eapply lookup_weaken in Hc; [|exact Hsub]. congruence.
    - exists ha, (ODict lo items), h2, config. split; [done|]. split; [done|].
      split; [by do 2 (etrans; [|done])|]. split; [|done].
      eapply subseteq_None; [|exact Hfresh]. by etrans. }
  pose proof (fresh_loc_fresh h) as Hf.
  set (h0 := <[fresh_loc h := d0]> h).
  assert (Hsub0 : h ⊆ h0) by by apply insert_subseteq.
  assert (Hcl0 : closed h0).
  { apply closed_insert; [done|]. intros k l Hk. right. eauto. }
  destruct (Hmerge [] h0 DEFAULT_CONFIG d0)
    as (ha & empty & h1 & cfg & Ea1 & Hrun1 & Hsub1 & Hfresh1 & Hinv1); try done.
  { by eapply lookup_weaken. }
  { intros k l Hk. split; [eauto|]. intros Hne ->. apply Hne. by eapply Hinj. }
  { apply not_elem_of_nil. }
  unfold load, load_config. rewrite H0. fold h0. rewrite Ea1, Hrun1.
  destruct yaml_file as [loaded|]; [|by exists h1, cfg].
  pose proof Hinv1 as (Hcl1 & H01 & Hc1 & _ & _ & _ & d1 & Hd1 & Hcorpus1 & Hrefs1).
  destruct (alloc loaded h1) as [h3 yc] eqn:Ea3.
  assert (Hent : ∃ entries, "corpus" ∉ entries.*1 ∧ ∃ hb,
            h ⊆ hb ∧ closed hb ∧ h1 ⊆ hb ∧
            (if yaml_truthy loaded then (h3, yc)
             else alloc (YDict []) h3) = alloc (YDict entries) hb).
  { destruct (alloc_spec _ _ _ _ Ea3) as (Hsub3 & _ & Hcl3 & _ & _ & Hshape).
    destruct (yaml_truthy loaded) eqn:Et.
    - destruct loaded as [s|n|b| |tr t|items|entries]; simpl in Hno, Et;
        try congruence.
      exists entries. split; [done|]. exists h1. by rewrite Ea3.
    - exists []. split; [apply not_elem_of_nil|]. exists h3.
      repeat split; [by etrans|auto|done]. }
  destruct Hent as (entries & Hent & hb & Hsubb & Hclb & Hsub1b & ->).
  destruct (Hmerge entries hb cfg d1)
    as (ha2 & o2 & h2 & cfg2 & -> & -> & ? & ? & ?); try done.
  { by eapply lookup_weaken. }
  { intros k l Hk. destruct (Hrefs1 _ _ Hk) as (? & ? & ?). done. }
  by exists h2, cfg2.
Qed.

Lemma load_config_corpus_section (yaml_file : option yaml) (h h' : heap)
    (res : exn + nat) (d0 : dictobj) (c : nat) (dc : dictobj) :
  defaults_ok h → h !! DEFAULT_CONFIG = Some d0 →
  dict_get "corpus" d0 = Some (HRef c) → h !! c = Some dc →
  no_section "corpus" yaml_file →
  load yaml_file h = (h', res) →
  defaults_ok h' ∧ h' !! DEFAULT_CONFIG = Some d0 ∧
  match res with
  | inl _ =>
      h' !! c = Some (overridden environ dc) ∨
      h' !! c = Some (expanded expanduser (overridden environ dc))
  | inr config =>
      h !! config = None ∧
      section_dict h' config "corpus"
        = inr (c, expanded expanduser (overridden environ dc)) ∧
      section_dict h' DEFAULT_CONFIG "corpus"
        = inr (c, expanded expanduser (overridden environ dc))
  end.
Proof.
  intros Hok H0 Hcorpus Hc Hno Hrun.
  destruct (load_config_merged yaml_file h d0 c dc Hok H0 Hcorpus Hc Hno)
    as (h1 & config & Hsub & Hfresh & Hinv & Hrest).
  apply Hrest in Hrun. clear Hrest.
  destruct Hok as (_ & d0' & H0' & Hne0 & Hinj).
  rewrite H0 in H0'. injection H0' as <-.
  assert (Hok : ∀ h2, closed h2 → h2 !! DEFAULT_CONFIG = Some d0 → defaults_ok h2).
  { intros h2 ? ?. split; [done|]. by exists d0. }
  assert (Hfin : ∀ dc h, config_inv d0 c config dc h →
            h !! DEFAULT_CONFIG = Some d0 ∧ h !! c = Some dc ∧ closed h).
  { by intros ?? (? & ? & ? & _). }
  destruct (apply_env _ _ _ _ _) as [h2 [e|[]]] eqn:Eenv;
    apply (apply_env_inv _ _ _ _ _ _ _ _ _ Hinv) in Eenv
      as (H02 & Hc2 & Hcl2 & Hinv2).
  { injection Hrun as <- <-. auto. }
  destruct (expand_item _ h2 _ _ _) as [h3 [e|[]]] eqn:Edb;
    apply (expand_item_inv _ _ _ _ _ _ _ _ _ _ Hinv2) in Edb; try done.
  { simpl in Edb. injection Hrun as <- <-. subst. auto. }
  destruct (expand_item _ h3 _ _ _) as [h4 [e|[]]] eqn:Eout;
    apply (expand_item_inv _ _ _ _ _ _ _ _ _ _ Edb) in Eout; try done.
  { simpl in Eout. injection Hrun as <- <-. subst. destruct (Hfin _ _ Edb) as (? & ? & ?). auto. }
  destruct (expand_root_path _ h4 _) as [h5 [e|[]]] eqn:Eroot;
    apply (expand_root_path_inv _ _ _ _ _ _ _ _ Eout) in Eroot.
  { simpl in Eroot. injection Hrun as <- <-. subst. destruct (Hfin _ _ Eout) as (? & ? & ?). auto. }
  injection Hrun as <- <-. destruct (Hfin _ _ Eroot) as (? & ? & ?).
  split; [auto|]. split; [done|]. split; [done|].
  split; [by apply (config_inv_section _ _ _ _ _ Eroot)|].
  unfold section_dict. by rewrite H, Hcorpus, H1.
Qed.

(** X17. Without a corpus section in the configuration file, the corpus section
    of the dict [load_config] returns is the very object of
    [DEFAULT_CONFIG]: the environment override and the expansion of the
    root path are written into the module-level defaults, the override
    even when the call fails afterwards. *)
Theorem load_config_writes_defaults (yaml_file : option yaml) (h h' : heap)
    (res : exn + nat) (d0 : dictobj) (c : nat) (dc : dictobj) :
  defaults_ok h → h !! DEFAULT_CONFIG = Some d0 →
  dict_get "corpus" d0 = Some (HRef c) → h !! c = Some dc →
  no_section "corpus" yaml_file →
  load yaml_file h = (h', res) →
  defaults_ok h' ∧ h' !! DEFAULT_CONFIG = Some d0 ∧
  match res with
  | inl _ =>
      h' !! c = Some (overridden environ dc) ∨
      h' !! c = Some (expanded expanduser (overridden environ dc))
  | inr config =>
      h !! config = None ∧
      section_dict h' config "corpus"
        = inr (c, expanded expanduser (overridden environ dc)) ∧
      section_dict h' DEFAULT_CONFIG "corpus"
        = inr (c, expanded expanduser (overridden environ dc))
  end.
Proof. exact (load_config_corpus_section yaml_file h h' res d0 c dc). Qed.

(** A value of [KCM_PORT] that [int] rejects makes every call fail. *)
Lemma apply_env_port (s : string) (h h' : heap) (config : nat) (res : exn + ()) :
  environ !! "KCM_PORT" = Some s → py_int s = None →
  apply_env py_int environ ENV_OVERRIDES h config = (h', res) →
  ∃ e, res = inl e.
Proof.
  intros Hs Hint. unfold ENV_OVERRIDES. simpl. rewrite Hs, Hint. simpl.
  repeat (match goal with
          | |- context [match environ !! ?k with _ => _ end] =>
              destruct (environ !! k)
          | |- context [set_item ?a ?b ?c ?d ?e] =>
              destruct (set_item a b c d e) as [? [?|[]]]
          end); intros [= <- <-]; eauto.
Qed.

(** X18. With [KCM_PORT] set to something [int] rejects the call returns no
    configuration; with [KCM_CORPUS_ROOT] set as well, and no corpus
    section in the configuration file, the failed call has overwritten the
    root path of [DEFAULT_CONFIG]. *)
Theorem load_config_bad_port (yaml_file : option yaml) (h h' : heap)
    (res : exn + nat) (d0 : dictobj) (c : nat) (dc : dictobj) (s v : string) :
  defaults_ok h → h !! DEFAULT_CONFIG = Some d0 →
  dict_get "corpus" d0 = Some (HRef c) → h !! c = Some dc →
  no_section "corpus" yaml_file →
  environ !! "KCM_PORT" = Some s → py_int s = None →
  environ !! "KCM_CORPUS_ROOT" = Some v →
  load yaml_file h = (h', res) →
  (∃ e, res = inl e) ∧
  h' !! DEFAULT_CONFIG = Some d0 ∧
  h' !! c = Some (dict_set "root_path" (HLeaf (YStr v)) dc).
Proof.
  intros Hok H0 Hcorpus Hc Hno Hs Hint Hv Hrun.
  destruct (load_config_merged yaml_file h d0 c dc Hok H0 Hcorpus Hc Hno)
    as (h1 & config & Hsub & Hfresh & Hinv & Hrest).
  apply Hrest in Hrun. clear Hrest.
  destruct (apply_env _ _ _ _ _) as [h2 r] eqn:Eenv.
  pose proof (apply_env_port _ _ _ _ _ Hs Hint Eenv) as [e ->].
  apply (apply_env_inv _ _ _ _ _ _ _ _ _ Hinv) in Eenv as (H02 & Hc2 & _).
  injection Hrun as <- <-. split; [by eexists|]. split; [done|].
  unfold overridden in Hc2. by rewrite Hv in Hc2.
Qed.

(** X19. A configuration file that holds something true that is no mapping (a
    string, a number, a list) makes [load_config] fail with
    [AttributeError]; nothing in the store is changed. *)
Theorem load_config_not_a_mapping (loaded : yaml) (h : heap) :
  is_Some (h !! DEFAULT_CONFIG) → yaml_truthy loaded = true →
  (∀ entries, loaded ≠ YDict entries) →
  ∃ h', load (Some loaded) h = (h', inl AttributeError) ∧ h ⊆ h'.
Proof.
  intros [d0 H0] Ht Hnd. unfold load, load_config. rewrite H0.
  pose proof (fresh_loc_fresh h) as Hf.
  set (h0 := <[fresh_loc h := d0]> h).
  assert (Hsub0 : h ⊆ h0) by by apply insert_subseteq.
  destruct (alloc (YDict []) h0) as [ha empty] eqn:Ea.
  destruct (alloc_spec _ _ _ _ Ea) as (Hsuba & _ & _ & _ & _ & l & items & -> & Hk).
  destruct items; [|done].
  assert (Ha0 : ha !! DEFAULT_CONFIG = Some d0).
  { eapply lookup_weaken; [|exact Hsuba]. by eapply lookup_weaken. }
  simpl. rewrite Ha0. simpl. rewrite Ht.
  pose proof (fresh_loc_fresh ha) as Hfa.
  assert (Hleaf : alloc loaded (<[fresh_loc ha := d0]> ha)
                  = (<[fresh_loc ha := d0]> ha, OLeaf loaded)).
  { destruct loaded; try done. by destruct (Hnd entries). }
  rewrite Hleaf. simpl. eexists. split; [done|].
  etrans; [exact Hsub0|]. etrans; [exact Hsuba|]. by apply insert_subseteq.
Qed.

End LoadConfigFacts.

(** The store of a freshly imported module meets what [load_config]
    needs. *)
Lemma initial_heap_ok (database_path output_dir : string) :
  defaults_ok (initial_heap database_path output_dir).
Proof.
  assert (Hdom : ∀ l, (l < 6)%nat → is_Some (initial_heap database_path output_dir !! l)).
  { intros l Hl. unfold initial_heap.
    do 6 (destruct l as [|l]; [by simplify_map_eq|]). lia. }
  split.
  - intros l d k l' Hl Hk. apply Hdom. unfold initial_heap in Hl.
    repeat (apply lookup_insert_Some in Hl as [[<- <-]|[_ Hl]];
            [simpl in Hk; repeat case_decide; simplify_eq; lia|]).
    apply lookup_singleton_Some in Hl as [<- <-].
    simpl in Hk; repeat case_decide; simplify_eq.
  - eexists. split; [unfold initial_heap; by simplify_map_eq|]. split.
    + intros k l Hk. simpl in Hk. repeat case_decide; simplify_eq; done.
    + intros k k' l Hk Hk'. simpl in Hk, Hk'.
      repeat case_decide; simplify_eq; done.
Qed.

(** X20. An environment override of one call outlives it: after a call with
    [KCM_CORPUS_ROOT] set, a later call without it, in the same process,
    returns that root path (expanded once more) and not the default. *)
Theorem env_override_outlives_call (py_int : string → option Z)
    (expanduser : string → string) (environ1 environ2 : gmap string string)
    (yaml1 yaml2 : option yaml) (database_path output_dir v : string)
    (h1 h2 : heap) (config1 config2 : nat) :
  no_section "corpus" yaml1 → no_section "corpus" yaml2 →
  environ1 !! "KCM_CORPUS_ROOT" = Some v → v ≠ "" →
  environ2 !! "KCM_CORPUS_ROOT" = None → expanduser v ≠ "" →
  load_config py_int expanduser environ1 yaml1 (initial_heap database_path output_dir)
    = (h1, inr config1) →
  load_config py_int expanduser environ2 yaml2 h1 = (h2, inr config2) →
  get_item (initial_heap database_path output_dir) DEFAULT_CONFIG "corpus" "root_path"
    = Some (HLeaf (YStr "")) ∧
  get_item h1 config1 "corpus" "root_path"
    = Some (HLeaf (YStr (expanduser v))) ∧
  get_item h2 config2 "corpus" "root_path"
    = Some (HLeaf (YStr (expanduser (expanduser v)))).
Proof.
  intros Hno1 Hno2 Hv Hne He2 Hne' Hrun1 Hrun2.
  set (dc := [("root_path", HLeaf (YStr ""))] : dictobj).
  assert (H0 : ∃ d0, initial_heap database_path output_dir !! DEFAULT_CONFIG = Some d0 ∧
                     dict_get "corpus" d0 = Some (HRef 1)).
  { eexists. split; [unfold initial_heap; by simplify_map_eq|]. done. }
  destruct H0 as (d0 & H0 & Hcorpus).
  assert (Hc : initial_heap database_path output_dir !! 1%nat = Some dc).
  { unfold initial_heap. by simplify_map_eq. }
  split.
  { unfold get_item, section_dict. by rewrite H0, Hcorpus, Hc. }
  pose proof (load_config_corpus_section _ _ _ _ _ _ _ _ _ _
                (initial_heap_ok database_path output_dir) H0 Hcorpus Hc Hno1 Hrun1)
    as (Hok1 & H01 & _ & Hs1 & Hs1').
  assert (Hdc1 : expanded expanduser (overridden environ1 dc)
                 = [("root_path", HLeaf (YStr (expanduser v)))]).
  { unfold overridden. rewrite Hv. unfold expanded. simpl.
    by rewrite decide_False. }
  rewrite Hdc1 in Hs1, Hs1'.
  split.
  { unfold get_item. by rewrite Hs1. }
  assert (Hc1 : h1 !! 1%nat = Some [("root_path", HLeaf (YStr (expanduser v)))]).
  { unfold section_dict in Hs1'. rewrite H01, Hcorpus in Hs1'.
    destruct (h1 !! 1%nat); [|done]. by injection Hs1' as ->. }
  pose proof (load_config_corpus_section _ _ _ _ _ _ _ _ _ _
                Hok1 H01 Hcorpus Hc1 Hno2 Hrun2)
    as (_ & _ & _ & Hs2 & _).
  unfold get_item. rewrite Hs2. unfold overridden. rewrite He2.
  unfold expanded. simpl. by rewrite decide_False.
Qed.

(** * Export file names *)

Section ConsolidatorFacts.

Variable isalnum : nat → bool.
Variable isspace : nat → bool.

Lemma lstrip_sublist (s : pystr) : lstrip isspace s ⊆ s.
Proof.
  induction s as [|x s IH]; simpl; [done|].
  destruct (isspace x); [|done]. intros y Hy. right. by apply IH.
Qed.

Lemma lstrip_length (s : pystr) : (length (lstrip isspace s) ≤ length s)%nat.
Proof. induction s as [|x s IH]; simpl; [done|]. destruct (isspace x); simpl; lia. Qed.

Lemma py_strip_sublist (s : pystr) : py_strip isspace s ⊆ s.
Proof.
  intros c. unfold py_strip. rewrite elem_of_reverse. intros Hc.
  apply lstrip_sublist in Hc. rewrite elem_of_reverse in Hc.
  by apply lstrip_sublist in Hc.
Qed.

Lemma safe_name_alphabet (name : pystr) (c : nat) :
  c ∈ safe_name isalnum isspace name → isalnum c = true ∨ c = 45 ∨ c = 95.
Proof.
  unfold safe_name, replace_space.
  intros (c1 & -> & Hc1)%list_elem_of_fmap.
  apply py_strip_sublist in Hc1.
  apply list_elem_of_fmap in Hc1 as (c0 & -> & _).
  destruct (isalnum c0) eqn:Ea; simpl.
  - destruct (decide (c0 = 32)) as [->|]; auto.
  - destruct (bool_decide (c0 ∈ literal "-_ ")) eqn:Eb.
    + apply bool_decide_eq_true in Eb. vm_compute in Eb.
      apply elem_of_cons in Eb as [->|Eb]; [auto|].
      apply elem_of_cons in Eb as [->|Eb]; [auto|].
      apply list_elem_of_singleton in Eb as ->. auto.
    + auto.
Qed.

(** X21. The name part of an export file is made of alphanumeric characters,
    hyphens and underscores only, and is no longer than the label it is
    made from. *)
Theorem safe_name_characters (name : pystr) :
  (∀ c, c ∈ safe_name isalnum isspace name →
        isalnum c = true ∨ c = 45 ∨ c = 95) ∧
  (length (safe_name isalnum isspace name) ≤ length name)%nat.
Proof.
  split; [intros c; apply safe_name_alphabet|].
  unfold safe_name, replace_space, py_strip.
  rewrite length_map, length_reverse.
  etrans; [apply lstrip_length|]. rewrite length_reverse.
  etrans; [apply lstrip_length|]. by rewrite length_map.
Qed.

(** X22. An export is written directly into the output directory: whatever the
    label, the file name holds no path separator; and there is a file
    name exactly for the three formats. *)
Theorem export_filename_flat (output_format : string)
    (timestamp name : pystr) :
  isalnum 47 = false → 47 ∉ timestamp →
  (export_filename isalnum isspace output_format timestamp name = None ↔
   output_format ∉ ["markdown"; "json"; "text"]) ∧
  ∀ filename,
    export_filename isalnum isspace output_format timestamp name = Some filename →
    47 ∉ filename.
Proof.
  intros Hslash Hts. unfold export_filename, FORMAT_HANDLERS.
  assert (Hsafe : 47 ∉ safe_name isalnum isspace name).
  { intros Hin. apply safe_name_alphabet in Hin as [?|[?|?]]; congruence. }
  assert (Hflat : ∀ ext, 47 ∉ literal ext →
            47 ∉ timestamp ++ literal "_" ++ safe_name isalnum isspace name ++ literal ext).
  { intros ext Hext. rewrite !elem_of_app. intros [?|[Hu|[?|?]]]; try done.
    vm_compute in Hu. apply list_elem_of_singleton in Hu. lia. }
  simpl. repeat case_decide; simpl.
  - split; [split; [done|]|].
    + intros Hn. destruct Hn. subst. set_solver.
    + intros filename [= <-]. apply Hflat. vm_compute. set_solver.
  - split; [split; [done|]|].
    + intros Hn. destruct Hn. subst. set_solver.
    + intros filename [= <-]. apply Hflat. vm_compute. set_solver.
  - split; [split; [done|]|].
    + intros Hn. destruct Hn. subst. set_solver.
    + intros filename [= <-]. apply Hflat. vm_compute. set_solver.
  - split; [|done]. split; [|done]. intros _. set_solver.
Qed.

End ConsolidatorFacts.

(** * The further properties on concrete inputs *)

(** Membership in a list that evaluates to a short concrete one. *)
Ltac solve_elem :=
  vm_compute; first [left | right; first [left | right; left]].

(** X1 on the scenario corpus and a catalog with a stale entry. *)
Lemma runs_keep_constraints_witness :
  let db := [sample_row 1 "a.md" "sha:old"] in
  catalog_ok (rows (index_corpus fnmatch_glob ascii_lower sample_digest sample_clock
                      (Some scenario_tree) db 0%nat None None)) ∧
  catalog_ok (rows (reindex_changed fnmatch_glob ascii_lower sample_digest sample_clock
                      (Some scenario_tree) db 0%nat None None)).
Proof.
  apply (runs_keep_constraints fnmatch_glob ascii_lower sample_digest sample_clock
           (Some scenario_tree) [sample_row 1 "a.md" "sha:old"] 0%nat None None).
  solve_catalog_ok.
Defined.

(** X2 on the scenario corpus and a catalog with a stale entry and an entry
    whose file is gone. *)
Lemma runs_account_for_rows_witness :
  let db := [sample_row 1 "a.md" "sha:old"; sample_row 2 "gone.md" "sha:gone"] in
  let w := index_corpus fnmatch_glob ascii_lower sample_digest sample_clock
             (Some scenario_tree) db 0%nat None None in
  let w' := reindex_changed fnmatch_glob ascii_lower sample_digest sample_clock
              (Some scenario_tree) db 0%nat None None in
  ∃ n d,
    stats w !! "new" = Some n ∧ stats w !! "deleted" = Some d ∧
    stats w' !! "new" = Some n ∧
    (length (rows w) + d = length db + n)%nat ∧
    length (rows w') = (length db + n)%nat.
Proof.
  apply (runs_account_for_rows fnmatch_glob ascii_lower sample_digest sample_clock
           (Some scenario_tree)
           [sample_row 1 "a.md" "sha:old"; sample_row 2 "gone.md" "sha:gone"]
           0%nat None None).
  - solve_wf.
  - solve_catalog_ok.
Defined.

(** X3 on [a.md] of the scenario corpus, whose entry holds an old digest. *)
Lemma runs_store_fresh_hash_witness :
  let db := [sample_row 1 "a.md" "sha:old"] in
  let m := record_of ascii_lower ["a.md"] (mkStat 500 1 2) in
  (∃ r, query_first (rows (index_corpus fnmatch_glob ascii_lower sample_digest sample_clock
                             (Some scenario_tree) db 0%nat None None))
          (Meta.file_path m) = Some r ∧ File.file_hash r = Some "sha:alpha") ∧
  (∃ r, query_first (rows (reindex_changed fnmatch_glob ascii_lower sample_digest sample_clock
                             (Some scenario_tree) db 0%nat None None))
          (Meta.file_path m) = Some r ∧ File.file_hash r = Some "sha:alpha").
Proof.
  apply (runs_store_fresh_hash fnmatch_glob ascii_lower sample_digest sample_clock
           (Some scenario_tree) [sample_row 1 "a.md" "sha:old"] 0%nat None None
           (record_of ascii_lower ["a.md"] (mkStat 500 1 2)) "sha:alpha").
  - solve_wf.
  - solve_catalog_ok.
  - solve_elem.
  - reflexivity.
Defined.

(** X4 on [notes/b.txt] of the scenario corpus. *)
Lemma walked_record_shape_witness :
  let m := record_of ascii_lower ["notes"; "b.txt"] (mkStat 10 5 6) in
  Meta.file_path m ≠ "" ∧
  Pathlib.startswith "/" (Meta.file_path m) = false ∧
  Meta.file_path m =
    (if decide (Meta.parent_dir m = "") then Meta.file_name m
     else Meta.parent_dir m ++ "/" ++ Meta.file_name m)%string ∧
  Meta.corpus_section m = head (Pathlib.parts (Meta.parent_dir m)) ∧
  (Meta.corpus_section m = None ↔ Meta.parent_dir m = "").
Proof.
  apply (walked_record_shape fnmatch_glob ascii_lower (Some scenario_tree) None None
           (record_of ascii_lower ["notes"; "b.txt"] (mkStat 10 5 6))).
  - solve_wf.
  - solve_elem.
Defined.

(** X5 on [notes/b.txt] of the scenario corpus. *)
Lemma walked_extension_normalised_witness :
  let m := record_of ascii_lower ["notes"; "b.txt"] (mkStat 10 5 6) in
  Meta.file_extension m ∈ DEFAULT_SUPPORTED_EXTENSIONS ∧
  Meta.file_extension m = ascii_lower (Pathlib.suffix (Meta.file_name m)) ∧
  ∀ e, (∀ s, ascii_lower s ≠ e) → Meta.file_extension m ≠ e.
Proof.
  apply (walked_extension_normalised fnmatch_glob ascii_lower (Some scenario_tree) None None
           (record_of ascii_lower ["notes"; "b.txt"] (mkStat 10 5 6))).
  solve_elem.
Defined.

(** On ASCII strings [.MD] is such an extension. *)
Lemma ascii_lower_char_not_M (c : ascii) : ascii_lower_char c ≠ "M"%char.
Proof. by destruct c as [[] [] [] [] [] [] [] []]. Qed.

Lemma ascii_lower_not_MD (s : string) : ascii_lower s ≠ ".MD".
Proof.
  destruct s as [|c1 [|c2 s]]; simpl; try discriminate.
  intros [= _ H _]. by apply ascii_lower_char_not_M in H.
Qed.

(** X7 on [a.md] of the scenario corpus, whose entry holds an old digest. *)
Lemma update_rewrites_in_place_witness :
  let db := [sample_row 1 "a.md" "sha:old"] in
  let r := sample_row 1 "a.md" "sha:old" in
  let m := record_of ascii_lower ["a.md"] (mkStat 500 1 2) in
  let written (t_end : nat) (r' : File.t) :=
    File.id r' = File.id r ∧ File.file_path r' = File.file_path r ∧
    File.content_text r' = File.content_text r ∧
    File.file_hash r' = Some "sha:alpha" ∧
    File.file_name r' = Meta.file_name m ∧
    File.file_extension r' = Meta.file_extension m ∧
    File.file_size_bytes r' = Meta.file_size_bytes m ∧
    File.parent_dir r' = Meta.parent_dir m ∧
    File.corpus_section r' = Meta.corpus_section m ∧
    File.created_at r' = Some (Meta.created_at m) ∧
    File.modified_at r' = Some (Meta.modified_at m) ∧
    ∃ t, (0 ≤ t < t_end)%nat ∧ File.indexed_at r' = sample_clock t in
  let w := index_corpus fnmatch_glob ascii_lower sample_digest sample_clock
             (Some scenario_tree) db 0%nat None None in
  let w' := reindex_changed fnmatch_glob ascii_lower sample_digest sample_clock
              (Some scenario_tree) db 0%nat None None in
  (∃ r', r' ∈ rows w ∧ written (ticks w) r') ∧
  (∃ r', r' ∈ rows w' ∧ written (ticks w') r').
Proof.
  apply (update_rewrites_in_place fnmatch_glob ascii_lower sample_digest sample_clock
           (Some scenario_tree) [sample_row 1 "a.md" "sha:old"] 0%nat None None
           (record_of ascii_lower ["a.md"] (mkStat 500 1 2))
           (sample_row 1 "a.md" "sha:old") "sha:alpha").
  - solve_wf.
  - solve_catalog_ok.
  - solve_elem.
  - reflexivity.
  - left.
  - reflexivity.
  - discriminate.
Defined.

(** X8 on [a.md] of the scenario corpus and a catalog without it. *)
Lemma insert_adds_row_witness :
  let db := [sample_row 1 "other.md" "sha:other"] in
  let m := record_of ascii_lower ["a.md"] (mkStat 500 1 2) in
  let written (t_end : nat) (r' : File.t) :=
    (File.id r' ∉ map File.id db) ∧ File.file_path r' = Meta.file_path m ∧
    File.content_text r' = None ∧
    File.file_hash r' = Some "sha:alpha" ∧
    File.file_name r' = Meta.file_name m ∧
    File.file_extension r' = Meta.file_extension m ∧
    File.file_size_bytes r' = Meta.file_size_bytes m ∧
    File.parent_dir r' = Meta.parent_dir m ∧
    File.corpus_section r' = Meta.corpus_section m ∧
    File.created_at r' = Some (Meta.created_at m) ∧
    File.modified_at r' = Some (Meta.modified_at m) ∧
    ∃ t, (0 ≤ t < t_end)%nat ∧ File.indexed_at r' = sample_clock t in
  let w := index_corpus fnmatch_glob ascii_lower sample_digest sample_clock
             (Some scenario_tree) db 0%nat None None in
  let w' := reindex_changed fnmatch_glob ascii_lower sample_digest sample_clock
              (Some scenario_tree) db 0%nat None None in
  (∃ r', r' ∈ rows w ∧ written (ticks w) r') ∧
  (∃ r', r' ∈ rows w' ∧ written (ticks w') r').
Proof.
  apply (insert_adds_row fnmatch_glob ascii_lower sample_digest sample_clock
           (Some scenario_tree) [sample_row 1 "other.md" "sha:other"] 0%nat
           None None (record_of ascii_lower ["a.md"] (mkStat 500 1 2)) "sha:alpha").
  - solve_wf.
  - solve_catalog_ok.
  - solve_elem.
  - reflexivity.
  - simpl. rewrite not_elem_of_cons. split; [done|apply not_elem_of_nil].
Defined.

(** X9 on the scenario corpus and a catalog with a stale entry and an entry
    whose file is gone. *)
Lemma full_after_incremental_witness :
  let root := Some scenario_tree in
  let db := [sample_row 1 "a.md" "sha:old"; sample_row 2 "gone.md" "sha:gone"] in
  let l := walk_corpus fnmatch_glob ascii_lower root None None in
  let failures :=
    length (filter (λ m, compute_file_hash sample_digest root
                           (Meta.absolute_path m) = None) l) in
  let w1 := reindex_changed fnmatch_glob ascii_lower sample_digest sample_clock root db
              0%nat None None in
  let w2 := index_corpus fnmatch_glob ascii_lower sample_digest sample_clock root (rows w1)
              (ticks w1) None None in
  stats w2 =
    {[ "new" := 0%nat; "updated" := 0%nat;
       "unchanged" := (length l - failures)%nat;
       "deleted" :=
         length (filter (λ r, File.file_path r ∉ map Meta.file_path l) db);
       "total" := length l ]} ∧
  rows w2 = filter (λ r, File.file_path r ∈ map Meta.file_path l) (rows w1) ∧
  ticks w2 = ticks w1.
Proof.
  apply (full_after_incremental fnmatch_glob ascii_lower sample_digest sample_clock
           (Some scenario_tree)
           [sample_row 1 "a.md" "sha:old"; sample_row 2 "gone.md" "sha:gone"]
           0%nat None None).
  - solve_wf.
  - solve_catalog_ok.
Defined.

(** X10 on a missing root and a catalog of two entries. *)
Lemma full_run_on_empty_walk_witness :
  let db := [sample_row 1 "a.md" "sha:alpha"; sample_row 2 "b.md" "sha:beta"] in
  index_corpus fnmatch_glob ascii_lower sample_digest sample_clock None db 7%nat None None =
  mkWork []
    {[ "new" := 0%nat; "updated" := 0%nat; "unchanged" := 0%nat;
       "deleted" := 2%nat; "total" := 0%nat ]}
    7%nat.
Proof.
  apply (full_run_on_empty_walk fnmatch_glob ascii_lower sample_digest sample_clock None
           [sample_row 1 "a.md" "sha:alpha"; sample_row 2 "b.md" "sha:beta"]
           7%nat None None).
  reflexivity.
Defined.

(** X12 on three rows in pages of two, asking for page 5. *)
Lemma execute_search_page_witness :
  execute_search sample_rows (sample_params 5) =
    inr {[ "files" := SFiles [sample_row 3 "c.md" "sha:gamma"];
           "total" := SInt 3; "page" := SInt 2; "per_page" := SInt 2;
           "pages" := SInt 2 ]}.
Proof.
  apply (execute_search_page sample_rows (sample_params 5)); simpl; lia.
Defined.

(** X13 on three rows in pages of two. *)
Lemma execute_search_pages_cover_witness :
  concat (map (λ i, result_files
                      (execute_search sample_rows
                         (with_page (sample_params 1) (Z.of_nat i))))
            (seq 1 2)) = sample_rows.
Proof.
  apply (execute_search_pages_cover sample_rows (sample_params 1)); simpl; lia.
Defined.

(** Loading the sample configuration gives the sample override. *)
Lemma sample_loaded_alloc :
  alloc (YDict sample_yaml) sample_store = (sample_loaded_store, sample_override).
Proof. vm_compute. reflexivity. Qed.

Lemma sample_loaded_store_closed : closed sample_loaded_store.
Proof.
  pose proof (alloc_spec _ _ _ _ sample_loaded_alloc) as (_ & _ & Hcl & _).
  apply Hcl, initial_heap_ok.
Qed.

Lemma sample_override_stored : stored sample_loaded_store sample_override.
Proof. by pose proof (alloc_spec _ _ _ _ sample_loaded_alloc) as (_ & ? & _). Qed.

(** X15 on the defaults and a loaded configuration that sets the port and a
    title. *)
Lemma deep_merge_copies_one_level_witness :
  ∃ h' r d',
    _deep_merge sample_override sample_loaded_store DEFAULT_CONFIG
      = Some (h', r) ∧
    sample_loaded_store ⊆ h' ∧ closed h' ∧
    sample_loaded_store !! r = None ∧ h' !! r = Some d' ∧
    (∀ k, k ∉ ["server"; "title"] →
       dict_get k d' = dict_get k sample_defaults) ∧
    (∀ k x, NoDup ["server"; "title"] →
       (k, x) ∈ [ ("server", ODict 6 [("port", OLeaf (YInt 8080))]);
                  ("title", OLeaf (YStr "notes")) ] →
       (∀ b, dict_get k sample_defaults ≠ Some (HRef b)) →
       dict_get k d' = Some (obj_val x)) ∧
    (∀ k l, dict_get k d' = Some (HRef l) →
       dict_get k sample_defaults = Some (HRef l) ∨
       (∃ x, (k, x) ∈ [ ("server", ODict 6 [("port", OLeaf (YInt 8080))]);
                        ("title", OLeaf (YStr "notes")) ] ∧
             obj_val x = HRef l) ∨
       l ≠ r ∧ sample_loaded_store !! l = None ∧ is_Some (h' !! l)).
Proof.
  apply (deep_merge_copies_one_level 7
           [ ("server", ODict 6 [("port", OLeaf (YInt 8080))]);
             ("title", OLeaf (YStr "notes")) ]
           sample_loaded_store DEFAULT_CONFIG sample_defaults).
  - apply sample_loaded_store_closed.
  - vm_compute. reflexivity.
  - apply sample_override_stored.
Defined.

(** X16 on the defaults and a loaded configuration that sets the port and a
    title. *)
Lemma deep_merge_override_wins_witness :
  ∃ h' r d',
    _deep_merge sample_override sample_loaded_store DEFAULT_CONFIG
      = Some (h', r) ∧
    h' !! r = Some d' ∧ dict_get "title" d' = Some (HLeaf (YStr "notes")).
Proof.
  apply (deep_merge_override_wins 7
           [ ("server", ODict 6 [("port", OLeaf (YInt 8080))]);
             ("title", OLeaf (YStr "notes")) ]
           sample_loaded_store DEFAULT_CONFIG sample_defaults
           "title" (YStr "notes")).
  - apply sample_loaded_store_closed.
  - vm_compute. reflexivity.
  - apply sample_override_stored.
  - simpl. apply NoDup_cons_2; [|apply NoDup_singleton].
    by apply not_elem_of_cons; split; [|apply not_elem_of_nil].
  - right. left.
Defined.

(** X17 on a freshly imported module, a configuration without corpus section
    and [KCM_CORPUS_ROOT] set. *)
Lemma load_config_writes_defaults_witness :
  let run := load_config sample_int sample_expanduser sample_environ
               (Some (YDict sample_yaml)) sample_store in
  let dc := [("root_path", HLeaf (YStr ""))] in
  defaults_ok run.1 ∧ run.1 !! DEFAULT_CONFIG = Some sample_defaults ∧
  match run.2 with
  | inl _ =>
      run.1 !! 1%nat = Some (overridden sample_environ dc) ∨
      run.1 !! 1%nat =
        Some (expanded sample_expanduser (overridden sample_environ dc))
  | inr config =>
      sample_store !! config = None ∧
      section_dict run.1 config "corpus"
        = inr (1%nat, expanded sample_expanduser (overridden sample_environ dc)) ∧
      section_dict run.1 DEFAULT_CONFIG "corpus"
        = inr (1%nat, expanded sample_expanduser (overridden sample_environ dc))
  end.
Proof.
  apply (load_config_writes_defaults sample_int sample_expanduser sample_environ
           (Some (YDict sample_yaml)) sample_store).
  - apply initial_heap_ok.
  - vm_compute. reflexivity.
  - reflexivity.
  - vm_compute. reflexivity.
  - simpl. rewrite !not_elem_of_cons. repeat split; try done. apply not_elem_of_nil.
  - by destruct (load_config _ _ _ _ _).
Defined.

(** X18 on a freshly imported module with [KCM_PORT=http] and
    [KCM_CORPUS_ROOT] set. *)
Lemma load_config_bad_port_witness :
  let run := load_config sample_int sample_expanduser sample_environ_bad_port
               None sample_store in
  (∃ e, run.2 = inl e) ∧
  run.1 !! DEFAULT_CONFIG = Some sample_defaults ∧
  run.1 !! 1%nat = Some [("root_path", HLeaf (YStr "~/corpus"))].
Proof.
  apply (load_config_bad_port sample_int sample_expanduser sample_environ_bad_port
           None sample_store _ _ sample_defaults 1%nat
           [("root_path", HLeaf (YStr ""))] "http" "~/corpus").
  - apply initial_heap_ok.
  - vm_compute. reflexivity.
  - reflexivity.
  - vm_compute. reflexivity.
  - exact I.
  - vm_compute. reflexivity.
  - reflexivity.
  - vm_compute. reflexivity.
  - by destruct (load_config _ _ _ _ _).
Defined.

(** X19 on a configuration file that holds a list. *)
Lemma load_config_not_a_mapping_witness :
  ∃ h', load_config sample_int sample_expanduser sample_environ
          (Some (YList [YStr "corpus"])) sample_store
        = (h', inl AttributeError) ∧
        sample_store ⊆ h'.
Proof.
  apply (load_config_not_a_mapping sample_int sample_expanduser sample_environ
           (YList [YStr "corpus"]) sample_store).
  - vm_compute. by eexists.
  - reflexivity.
  - discriminate.
Defined.

(** X20 on a freshly imported module: a call with [KCM_CORPUS_ROOT] set,
    then one with an empty environment. *)
Lemma env_override_outlives_call_witness :
  let run1 := load_config sample_int sample_expanduser sample_environ None
                sample_store in
  let config1 := match run1.2 with inr c => c | inl _ => 0%nat end in
  let run2 := load_config sample_int sample_expanduser ∅ None run1.1 in
  let config2 := match run2.2 with inr c => c | inl _ => 0%nat end in
  get_item sample_store DEFAULT_CONFIG "corpus" "root_path"
    = Some (HLeaf (YStr "")) ∧
  get_item run1.1 config1 "corpus" "root_path"
    = Some (HLeaf (YStr "/home/kcm/corpus")) ∧
  get_item run2.1 config2 "corpus" "root_path"
    = Some (HLeaf (YStr "/home/kcm/corpus")).
Proof.
  apply (env_override_outlives_call sample_int sample_expanduser sample_environ ∅
           None None sample_database_path sample_output_dir "~/corpus").
  - exact I.
  - exact I.
  - vm_compute. reflexivity.
  - discriminate.
  - vm_compute. reflexivity.
  - discriminate.
  - vm_compute. reflexivity.
  - vm_compute. reflexivity.
Defined.

(** X22 on a label that tries to leave the output directory. *)
Lemma export_filename_flat_witness :
  (export_filename sample_isalnum sample_isspace "json"
     (literal "20240131_120000") (literal " ../etc/passwd ") = None ↔
   "json" ∉ ["markdown"; "json"; "text"]) ∧
  ∀ filename,
    export_filename sample_isalnum sample_isspace "json"
      (literal "20240131_120000") (literal " ../etc/passwd ") = Some filename →
    47 ∉ filename.
Proof.
  apply (export_filename_flat sample_isalnum sample_isspace "json"
           (literal "20240131_120000") (literal " ../etc/passwd ")).
  - reflexivity.
  - apply (bool_decide_unpack _). vm_compute. exact I.
Defined.

(** X6 on a file below a directory named [build.tmp], which the pattern
    [*.tmp] matches. *)
Lemma skip_patterns_spare_directories_witness :
  fnmatch_glob "build.tmp" "*.tmp" = true ∧
  (record_of ascii_lower ["build.tmp"; "a.md"] (mkStat 3 1 2) ∈
     walk_corpus fnmatch_glob ascii_lower (Some pattern_dir_tree) None None ↔
   Forall (λ pattern, fnmatch_glob "a.md" pattern = false)
     DEFAULT_SKIP_PATTERNS).
Proof.
  split; [reflexivity|].
  apply (skip_patterns_spare_directories fnmatch_glob ascii_lower pattern_dir_tree None None
           ["build.tmp"] "a.md" (mkStat 3 1 2) (Some "abc")).
  - solve_wf.
  - reflexivity.
  - repeat constructor.
  - vm_compute. left.
Defined.
